(** * core: arena allocator and open-addressing hash table

    A shallow embedding of [core/memory.h], [core/memory.cpp] and
    [core/table.h].  Machine integers ([usize], [u64], pointers) are values
    of [Z] in the range [0, 2^64); every arithmetic step of the source that
    can wrap is written with [wrap].  Memory is a flat byte-addressed map
    from addresses to bytes. *)

From Stdlib Require Import ZArith Lia List Bool Permutation.
From stdpp Require Import base list gmap.

Open Scope Z_scope.

(** ** Machine words *)

Module Machine.

Definition word_bits : Z := 64.
Definition word_modulus : Z := 2 ^ 64.

(** Reduction of an integer to its [usize]/[u64] representative. *)
Definition wrap (x : Z) : Z := x mod 2 ^ 64.

(** [sizeof(usize)] on the 64-bit targets the library is written for. *)
Definition sizeof_usize : Z := 8.

Definition NULL : Z := 0.

(** Byte [k] (little endian) of a word. *)
Definition byte_of (v k : Z) : Z := Z.land (Z.shiftr v (8 * k)) 255.

(** A flat memory: one byte per address. *)
Definition memory := Z -> Z.

(** [memcpy(dst, &v, sizeof(usize))] for a [usize] object [v]. *)
Definition store_usize (m : memory) (p v : Z) : memory :=
  fun q => if (p <=? q) && (q <? p + sizeof_usize) then byte_of v (q - p) else m q.

(** [memcpy(&v, src, sizeof(usize))]: the [usize] stored at [p]. *)
Definition load_usize (m : memory) (p : Z) : Z :=
  fold_right (fun k acc => (m (p + k)) mod 256 + 256 * acc) 0
             (0 :: 1 :: 2 :: 3 :: 4 :: 5 :: 6 :: 7 :: nil).

(** [memcpy(dst, src, n)] on non-overlapping regions. *)
Definition memcpy (m : memory) (dst src n : Z) : memory :=
  fun q => if (dst <=? q) && (q <? dst + n) then m (src + (q - dst)) else m q.

(** [M_MIN] of [core/macro.h]. *)
Definition M_MIN (a b : Z) : Z := if a <? b then a else b.

(** Outcome of a run: a value, undefined behaviour or a failed assertion
    ([Fault]), or a loop that has not finished within the fuel given. *)
Inductive Result (A : Type) : Type :=
| Ok (a : A)
| Fault
| OutOfFuel.
Arguments Ok {A} a.
Arguments Fault {A}.
Arguments OutOfFuel {A}.

End Machine.

(** ** core/memory.cpp: alignment, arenas, scoped allocators *)

Module Memory.
Import Machine.

(** [alignptr]: [mask = align - 1; result += (-result) & mask], on 64-bit
    two's-complement integers. *)
Definition alignptr (ptr align : Z) : Z :=
  let mask := wrap (align - 1) in
  let result := ptr in
  wrap (result + Z.land (wrap (- result)) mask).

(** [nextpow2], the [__builtin_clzl] branch: [64 - clz(n - 1)] is the bit
    length of [n - 1], that is [Z.log2 (n - 1) + 1] for [n - 1 > 0]. *)
Definition nextpow2 (n : Z) : Z :=
  if n =? 1 then 1
  else wrap (Z.shiftl 1 (Z.log2 (wrap (n - 1)) + 1)).

(** [struct Arena { usize capacity; usize allocated; u8 data[]; }].  [data]
    is the address of the flexible array member and [bytes] the memory it
    lives in.  The two fields before [data] are kept in the record, apart
    from [bytes]: this is the code as long as nothing is written through
    [bytes] below [data], which holds for the blocks [arena_alloc] returns
    (they start at or above [data + 8], their size header is in [data])
    and is assumed of the block given to [arena_realloc], "a pointer
    returned by arena_alloc or arena_realloc" by its header comment. *)
Record Arena : Type := mkArena {
  capacity : Z;
  allocated : Z;
  data : Z;
  bytes : memory
}.

Definition sizeof_Arena : Z := 16.

(** [make_arena(capacity, allocator)]: [block] is what [mem::alloc] returned
    for [sizeof(Arena) + capacity] bytes. *)
Definition make_arena (capacity : Z) (block : Z) (m : memory) : option Arena :=
  if block =? NULL then None
  else Some (mkArena capacity 0 (wrap (block + sizeof_Arena)) m).

(** [make_arena(size, buffer)]. *)
Definition make_arena_buffer (size : Z) (buffer : Z) (m : memory) : option Arena :=
  if (buffer =? NULL) || (size <? sizeof_Arena) then None
  else Some (mkArena (wrap (size - sizeof_Arena)) 0 (wrap (buffer + sizeof_Arena)) m).

Definition arena_alloc (arena : Arena) (size align : Z) : Z * Arena :=
  let block := wrap (data arena + allocated arena) in
  let ptr := alignptr (wrap (block + sizeof_usize)) align in
  let new_size := wrap (allocated arena + wrap (ptr - block) + size) in
  if new_size <=? capacity arena then
    (ptr, mkArena (capacity arena) new_size (data arena)
                  (store_usize (bytes arena) (wrap (ptr - sizeof_usize)) size))
  else (NULL, arena).

(** [arena_realloc].  The [assert] aborts ([Fault]) on a misaligned block. *)
Definition arena_realloc (arena : Arena) (block size align : Z) : Result (Z * Arena) :=
  if block =? NULL then Ok (arena_alloc arena size align)
  else if (align =? 0) || negb (block mod align =? 0) then Fault
  else
    let ptr := block in
    let block_size := load_usize (bytes arena) (wrap (ptr - sizeof_usize)) in
    let new_size := wrap (allocated arena + (size - block_size)) in
    if wrap (ptr + block_size) =? wrap (data arena + allocated arena) then
      if new_size <=? capacity arena then
        Ok (ptr, mkArena (capacity arena) new_size (data arena)
                         (store_usize (bytes arena) (wrap (ptr - sizeof_usize)) size))
      else Ok (NULL, arena)
    else
      let '(new_block, arena') := arena_alloc arena size align in
      if new_block =? NULL then Ok (new_block, arena')
      else Ok (new_block,
               mkArena (capacity arena') (allocated arena') (data arena')
                       (memcpy (bytes arena') new_block block (M_MIN block_size size))).

Definition arena_reset (arena : Arena) : Arena :=
  mkArena (capacity arena) 0 (data arena) (bytes arena).

(** A block handed out earlier by [arena_alloc] or [arena_realloc] and still
    inside the allocated part of the arena: its size header sits just before
    it and its bytes end at or before the cursor. *)
Definition valid_block (arena : Arena) (block : Z) : Prop :=
  0 <= data arena /\ 0 <= allocated arena /\
  data arena + sizeof_usize <= block /\
  block + load_usize (bytes arena) (block - sizeof_usize) <= data arena + allocated arena.

(** The next aligned pointer is representable: no address computation of
    [arena_alloc] leaves the 64-bit address space. *)
Definition pointer_fits (arena : Arena) (align : Z) : Prop :=
  0 <= allocated arena /\ 0 <= data arena /\
  data arena + allocated arena + sizeof_usize + align <= 2 ^ 64.

(** The arenas of the program, by address: [Arena *] is a key of the store. *)
Abbreviation Store := (gmap Z Arena).

(** [struct Linear_Allocator : Allocator { Arena *arena; usize allocated_mark; }].
    The three function pointers of the base are [linear_alloc],
    [linear_realloc] and [linear_free] below. *)
Record Linear_Allocator : Type := mkLinear_Allocator {
  arena : Z;
  allocated_mark : Z
}.

Definition linear_alloc (allocator : Linear_Allocator) (size align : Z) (s : Store)
  : Result (Z * Store) :=
  match s !! arena allocator with
  | None => Fault
  | Some a =>
      let '(ptr, a') := arena_alloc a size align in
      Ok (ptr, <[arena allocator := a']> s)
  end.

Definition linear_realloc (allocator : Linear_Allocator) (block size align : Z) (s : Store)
  : Result (Z * Store) :=
  match s !! arena allocator with
  | None => Fault
  | Some a =>
      match arena_realloc a block size align with
      | Ok (ptr, a') => Ok (ptr, <[arena allocator := a']> s)
      | Fault => Fault
      | OutOfFuel => OutOfFuel
      end
  end.

Definition linear_free (allocator : Linear_Allocator) (block : Z) (s : Store) : Store := s.

Definition make_linear_allocator (arena : Z) (s : Store) : Result Linear_Allocator :=
  match s !! arena with
  | None => Fault
  | Some a => Ok (mkLinear_Allocator arena (allocated a))
  end.

(** [deinit(Linear_Allocator)]: [allocator.arena->allocated = allocator.allocated_mark]. *)
Definition deinit (allocator : Linear_Allocator) (s : Store) : Result Store :=
  match s !! arena allocator with
  | None => Fault
  | Some a =>
      Ok (<[arena allocator :=
              mkArena (capacity a) (allocated_mark allocator) (data a) (bytes a)]> s)
  end.

(** A call made through the [Allocator] interface of a scoped allocator
    ([mem::alloc], [mem::realloc], [mem::free]). *)
Inductive Request : Type :=
| Req_alloc (size align : Z)
| Req_realloc (block size align : Z)
| Req_free (block : Z).

Definition serve (allocator : Linear_Allocator) (r : Request) (s : Store) : Result Store :=
  match r with
  | Req_alloc size align =>
      match linear_alloc allocator size align s with
      | Ok (_, s') => Ok s'
      | Fault => Fault
      | OutOfFuel => OutOfFuel
      end
  | Req_realloc block size align =>
      match linear_realloc allocator block size align s with
      | Ok (_, s') => Ok s'
      | Fault => Fault
      | OutOfFuel => OutOfFuel
      end
  | Req_free block => Ok (linear_free allocator block s)
  end.

Fixpoint serve_all (allocator : Linear_Allocator) (rs : list Request) (s : Store)
  : Result Store :=
  match rs with
  | [] => Ok s
  | r :: rs' =>
      match serve allocator r s with
      | Ok s' => serve_all allocator rs' s'
      | Fault => Fault
      | OutOfFuel => OutOfFuel
      end
  end.

(** The arena of the test suite: 512 bytes filled with [0xFF], its [data]
    member 16-byte aligned. *)
Definition test_arena : Arena := mkArena 512 0 4112 (fun _ => 255).

(** The arena after the four allocations of the test: [a], [b], [c], [d]
    of 400, 4, 8 and 4 bytes at alignment 16, at the addresses 4128, 4544,
    4560 and 4576. *)
Definition test_arena_abcd : Arena :=
  snd (arena_alloc (snd (arena_alloc (snd (arena_alloc (snd (arena_alloc
    test_arena 400 16)) 4 16)) 8 16)) 4 16).

(** The arena test: pointer returned and [allocated] after each of its
    seven calls. *)
Definition arena_test_trace : list (Z * Z) :=
  let '(a, s1) := arena_alloc test_arena 400 16 in
  let '(b, s2) := arena_alloc s1 4 16 in
  let '(c, s3) := arena_alloc s2 8 16 in
  let '(d, s4) := arena_alloc s3 4 16 in
  match arena_realloc s4 d 12 16 with
  | Ok (d1, s5) =>
      match arena_realloc s5 d 8 16 with
      | Ok (d2, s6) =>
          match arena_realloc s6 c 4 16 with
          | Ok (c1, s7) =>
              [(a, allocated s1); (b, allocated s2); (c, allocated s3);
               (d, allocated s4); (d1, allocated s5); (d2, allocated s6);
               (c1, allocated s7)]
          | _ => []
          end
      | _ => []
      end
  | _ => []
  end.

(** A store holding the test arena at address 4096, and a scoped allocator
    over it made when nothing was allocated. *)
Definition test_store : Store := {[ 4096 := test_arena ]}.
Definition test_scope : Linear_Allocator := mkLinear_Allocator 4096 0.

(** [allocated] of the arena at [r], if it is in the store. *)
Definition allocated_at (r : Z) (s : Result Store) : option Z :=
  match s with
  | Ok s' => allocated <$> (s' !! r)
  | _ => None
  end.

(** The scoped-allocator test: [alloc] over the arena, one allocation,
    [temp] over the same arena, another allocation through [alloc], then
    [deinit(temp)].  The values of [allocated] after the two allocations
    and after [deinit]. *)
Definition linear_test_trace : list (option Z) :=
  match make_linear_allocator 4096 test_store with
  | Ok alloc =>
      let s1 := serve alloc (Req_alloc 4 16) test_store in
      match s1 with
      | Ok s1' =>
          match make_linear_allocator 4096 s1' with
          | Ok temp =>
              let s2 := serve alloc (Req_alloc 4 16) s1' in
              match s2 with
              | Ok s2' => [allocated_at 4096 s1; allocated_at 4096 s2;
                           allocated_at 4096 (deinit temp s2')]
              | _ => []
              end
          | _ => []
          end
      | _ => []
      end
  | _ => []
  end.

End Memory.

(** ** core/table.h: the hash table *)

Module Table.
Import Machine.

(** Object representation of a key or value type: its size and the bytes
    [memcpy], [memset] and the default hash see. *)
Class Repr (T : Type) : Type := {
  sizeof : Z;
  to_bytes : T -> list Z;
  of_bytes : list Z -> T
}.

(** Layout of [Table_Entry<K, V>]: the key sits at offset 0, then the value,
    then the 8-byte signature. *)
Class Entry_Layout (K V : Type) : Type := {
  value_offset : Z;
  sign_offset : Z;
  sizeof_Table_Entry : Z;
  alignof_Table_Entry : Z
}.

(** [Table_Signature]: [EMPTY = 0ull], [TOMBSTONE = ~0ull]. *)
Definition EMPTY : Z := 0.
Definition TOMBSTONE : Z := 2 ^ 64 - 1.

Definition LOAD_FACTOR : Z := 70.
Definition MIN_CAPACITY : Z := 8.

(** [struct Table_Entry : Table_Pair<K, V> { Table_Signature sign; }];
    [sign] is [sign.value]. *)
Record Table_Entry (K V : Type) : Type := mkEntry {
  key : K;
  value : V;
  sign : Z
}.
Arguments mkEntry {K V} key value sign.
Arguments key {K V} _.
Arguments value {K V} _.
Arguments sign {K V} _.

(** [struct Table].  [entries] is the pointer, [slots] the array it points
    to, slot [i] being [entries[i]]. *)
Record Table (K V : Type) : Type := mkTable {
  count : Z;
  entries : Z;
  capacity : Z;
  allocator : Z;
  hash_func : K -> Z;
  slots : list (Table_Entry K V)
}.
Arguments mkTable {K V} count entries capacity allocator hash_func slots.
Arguments count {K V} _.
Arguments entries {K V} _.
Arguments capacity {K V} _.
Arguments allocator {K V} _.
Arguments hash_func {K V} _ _.
Arguments slots {K V} _.

(** Calls made through allocator capabilities, oldest first. *)
Inductive Event : Type :=
| Ev_alloc (allocator size align result : Z)
| Ev_free (allocator block : Z).

Abbreviation World := (list Event).

(** [hash_fnv1a]. *)
Definition hash_fnv1a (key : list Z) : Z :=
  fold_left (fun h b => wrap (Z.lxor h b * 0x00000100000001B3)) key 0xCBF29CE484222325.

(** [table_create_signature]: [(hash >> 2) | 0x8000000000000000]. *)
Definition table_create_signature (hash : Z) : Z :=
  Z.lor (Z.shiftr hash 2) 0x8000000000000000.

(** [table_is_sentinel_entry]. *)
Definition table_is_sentinel_entry {K V} (entry : Table_Entry K V) : bool :=
  (sign entry =? 0) || (sign entry =? TOMBSTONE).

(** The loop [for (; i >= capacity;) i -= capacity]; [n] bounds its
    iterations. *)
Fixpoint subtract_loop (n : nat) (i capacity : Z) : Z :=
  match n with
  | O => i
  | S n' => if i >=? capacity then subtract_loop n' (i - capacity) capacity else i
  end.

(** The same loop run to its end; for [capacity > 0] it makes [i / capacity]
    iterations. *)
Definition reduce_index (i capacity : Z) : Z :=
  subtract_loop (Z.to_nat (i / capacity)) i capacity.

(** The [n]-th triangular number, the sum of the offsets [1, 2, ..., n]. *)
Definition triangular (n : Z) : Z := n * (n + 1) / 2.

(** One advance of the probe: [i += probe; probe += 1;] and the wrap-around
    loop. *)
Definition probe_next (capacity : Z) (st : Z * Z) : Z * Z :=
  let '(i, probe) := st in
  let i := wrap (i + probe) in
  let probe := wrap (probe + 1) in
  (reduce_index i capacity, probe).

(** The state of the probe after [n] advances. *)
Fixpoint probe_state (capacity : Z) (n : nat) (st : Z * Z) : Z * Z :=
  match n with
  | O => st
  | S n' => probe_state capacity n' (probe_next capacity st)
  end.

(** The first [n] indices probed from [start]. *)
Fixpoint probe_indices (capacity : Z) (n : nat) (st : Z * Z) : list Z :=
  match n with
  | O => []
  | S n' => fst st :: probe_indices capacity n' (probe_next capacity st)
  end.

(** Zero the first [n] bytes of an object representation ([memset] over a
    prefix); [n] may be negative or exceed the length. *)
Definition zero_prefix (n : Z) (bs : list Z) : list Z :=
  replicate (Z.to_nat (Z.min n (Z.of_nat (length bs)))) 0 ++ drop (Z.to_nat n) bs.

Definition usize_to_bytes (v : Z) : list Z :=
  map (byte_of v) [0; 1; 2; 3; 4; 5; 6; 7].

Definition usize_of_bytes (bs : list Z) : Z :=
  fold_right (fun b acc => b mod 256 + 256 * acc) 0 bs.

Section Table.
Context {K V : Type} {repr_K : Repr K} {repr_V : Repr V} {layout : Entry_Layout K V}.

(** [operator==] on keys. *)
Variable key_eqb : K -> K -> bool.

(** What [allocator->alloc(allocator, size, align)] returns after the calls
    in the world so far; [NULL] on failure. *)
Variable allocator_alloc : World -> Z -> Z -> Z -> Z.

(** [&DEFAULT_ALLOCATOR], the address of the global [mallocator]. *)
Variable DEFAULT_ALLOCATOR : Z.

(** [mem::alloc(size, align, allocator)]. *)
Definition mem_alloc (size align allocator : Z) (w : World) : Z * World :=
  let p := allocator_alloc w allocator size align in
  (p, w ++ [Ev_alloc allocator size align p]).

(** [mem::free(block, allocator)]. *)
Definition mem_free (block allocator : Z) (w : World) : World :=
  w ++ [Ev_free allocator block].

(** [table_auto_hash] for a key that is not a slice: FNV-1a over the
    object representation. *)
Definition table_auto_hash (key : K) : Z := hash_fnv1a (to_bytes key).

Definition make_table (hash_func : K -> Z) (allocator : Z) : Table K V :=
  mkTable 0 NULL 0 allocator hash_func [].

(** [deinit(Table)]: [mem::free(table.entries)], the allocator argument
    left to its default. *)
Definition deinit (table : Table K V) (w : World) : World :=
  mem_free (entries table) DEFAULT_ALLOCATOR w.

(** The probing loop of [table_find_entry]; a slot is named by its index
    and [None] is the null pointer. *)
Fixpoint find_entry_loop (fuel : nat) (table : Table K V) (key0 : K) (sign0 : Z)
    (i probe : Z) (first_removed_slot : option Z) : Result (option Z) :=
  match fuel with
  | O => OutOfFuel
  | S fuel' =>
      match slots table !! Z.to_nat i with
      | None => Fault
      | Some entry =>
          if sign entry =? 0 then
            match first_removed_slot with
            | Some r => Ok (Some r)
            | None => Ok (Some i)
            end
          else if (sign entry =? sign0) && key_eqb key0 (key entry) then Ok (Some i)
          else
            let first_removed_slot :=
              match first_removed_slot with
              | None => if sign entry =? TOMBSTONE then Some i else None
              | Some r => Some r
              end in
            if capacity table =? 0 then OutOfFuel
            else
              let '(i, probe) := probe_next (capacity table) (i, probe) in
              find_entry_loop fuel' table key0 sign0 i probe first_removed_slot
      end
  end.

(** [table_find_entry(table, key, sign)]. *)
Definition table_find_entry_sign (fuel : nat) (table : Table K V) (key0 : K) (sign0 : Z)
  : Result (option Z) :=
  if capacity table =? count table then Ok None
  else if entries table =? NULL then Fault
  else
    let hash := Z.land sign0 0x3FFFFFFFFFFFFFFF in
    let i := Z.land hash (wrap (capacity table - 1)) in
    find_entry_loop fuel table key0 sign0 i 1 None.

(** [table_find_entry(table, key)]. *)
Definition table_find_entry (fuel : nat) (table : Table K V) (key0 : K)
  : Result (option Z) :=
  let hash := wrap (hash_func table key0) in
  let sign0 := table_create_signature hash in
  table_find_entry_sign fuel table key0 sign0.

(** Reading through an entry pointer; a null or out-of-range pointer is a
    [Fault]. *)
Definition entry_at (table : Table K V) (p : option Z) : Result (Table_Entry K V) :=
  match p with
  | None => Fault
  | Some i =>
      match slots table !! Z.to_nat i with
      | None => Fault
      | Some e => Ok e
      end
  end.

(** [table_find]: the slot whose value is pointed to, or [None] for NULL. *)
Definition table_find (fuel : nat) (table : Table K V) (key0 : K) : Result (option Z) :=
  if capacity table =? 0 then Ok None
  else
    match table_find_entry fuel table key0 with
    | Ok p =>
        match entry_at table p with
        | Ok entry => if negb (table_is_sentinel_entry entry) then Ok p else Ok None
        | Fault => Fault
        | OutOfFuel => OutOfFuel
        end
    | Fault => Fault
    | OutOfFuel => OutOfFuel
    end.

(** The value a result of [table_find] points to. *)
Definition value_at (table : Table K V) (p : option Z) : option V :=
  match p with
  | None => None
  | Some i => value <$> (slots table !! Z.to_nat i)
  end.

(** An entry whose object representation is all zero bytes. *)
Definition zero_entry : Table_Entry K V :=
  mkEntry (of_bytes (replicate (Z.to_nat (sizeof (T := K))) 0))
          (of_bytes (replicate (Z.to_nat (sizeof (T := V))) 0))
          0.

(** One round of the re-insertion loop of [table_expand], for the old
    entry [ptr]. *)
Definition expand_step (fuel : nat) (ptr : Table_Entry K V) (copy : Table K V)
  : Result (Table K V) :=
  if negb (table_is_sentinel_entry ptr) then
    match table_find_entry_sign fuel copy (key ptr) (sign ptr) with
    | Ok (Some i) =>
        match slots copy !! Z.to_nat i with
        | None => Fault
        | Some _ =>
            Ok (mkTable (count copy) (entries copy) (capacity copy) (allocator copy)
                        (hash_func copy)
                        (<[Z.to_nat i := mkEntry (key ptr) (value ptr) (sign ptr)]>
                           (slots copy)))
        end
    | Ok None => Fault
    | Fault => Fault
    | OutOfFuel => OutOfFuel
    end
  else Ok copy.

(** The loop [for (ptr = table->entries; ptr != end; ++ptr)] over the old
    array, from index [i] for [n] more entries. *)
Fixpoint expand_loop (fuel : nat) (old : list (Table_Entry K V)) (i : nat) (n : nat)
    (copy : Table K V) : Result (Table K V) :=
  match n with
  | O => Ok copy
  | S n' =>
      match old !! i with
      | None => Fault
      | Some ptr =>
          match expand_step fuel ptr copy with
          | Ok copy' => expand_loop fuel old (S i) n' copy'
          | Fault => Fault
          | OutOfFuel => OutOfFuel
          end
      end
  end.

(** [table_expand].  A failed assertion, a null block passed to [memset],
    and a block too small for [capacity] entries (the byte count wrapped)
    are [Fault]s. *)
Definition table_expand (fuel : nat) (table : Table K V) (capacity0 : Z) (w : World)
  : Result (Table K V * World) :=
  if capacity0 =? 0 then Fault
  else if capacity0 <? capacity table then Fault
  else
    let capacity1 := Memory.nextpow2 capacity0 in
    let '(p, w1) := mem_alloc (wrap (capacity1 * sizeof_Table_Entry))
                              alignof_Table_Entry (allocator table) w in
    if p =? NULL then Fault
    else if 2 ^ 64 <=? capacity1 * sizeof_Table_Entry then Fault
    else
      let copy := mkTable (count table) p capacity1 (allocator table) (hash_func table)
                          (replicate (Z.to_nat capacity1) zero_entry) in
      match expand_loop fuel (slots table) 0 (Z.to_nat (capacity table)) copy with
      | Ok copy' => Ok (copy', mem_free (entries table) (allocator table) w1)
      | Fault => Fault
      | OutOfFuel => OutOfFuel
      end.

(** The growth check that opens [table_create_entry]. *)
Definition table_grow_check (fuel : nat) (table : Table K V) (w : World)
  : Result (Table K V * World) :=
  let load_factor := wrap ((count table + 1) * 100) in
  if load_factor >=? wrap (capacity table * LOAD_FACTOR) then
    if capacity table >=? MIN_CAPACITY then
      table_expand fuel table (wrap (Z.shiftl (capacity table) 1)) w
    else
      table_expand fuel table MIN_CAPACITY w
  else Ok (table, w).

(** The rest of [table_create_entry]: the slot search and the claim of a
    sentinel slot. *)
Definition table_claim_entry (fuel : nat) (table : Table K V) (key0 : K)
  : Result (Z * Table K V) :=
  let hash := wrap (hash_func table key0) in
  let sign0 := table_create_signature hash in
  match table_find_entry_sign fuel table key0 sign0 with
  | Ok (Some i) =>
      match slots table !! Z.to_nat i with
      | None => Fault
      | Some entry =>
          if table_is_sentinel_entry entry then
            Ok (i, mkTable (wrap (count table + 1)) (entries table) (capacity table)
                           (allocator table) (hash_func table)
                           (<[Z.to_nat i := mkEntry key0 (value entry) sign0]> (slots table)))
          else Ok (i, table)
      end
  | Ok None => Fault
  | Fault => Fault
  | OutOfFuel => OutOfFuel
  end.

Definition table_create_entry (fuel : nat) (table : Table K V) (key0 : K) (w : World)
  : Result (Z * Table K V * World) :=
  match table_grow_check fuel table w with
  | Ok (table1, w1) =>
      match table_claim_entry fuel table1 key0 with
      | Ok (i, table2) => Ok (i, table2, w1)
      | Fault => Fault
      | OutOfFuel => OutOfFuel
      end
  | Fault => Fault
  | OutOfFuel => OutOfFuel
  end.

(** [table_update]: the slot of the stored value, the table and the world. *)
Definition table_update (fuel : nat) (table : Table K V) (key0 : K) (value0 : V) (w : World)
  : Result (Z * Table K V * World) :=
  match table_create_entry fuel table key0 w with
  | Ok (i, table1, w1) =>
      match slots table1 !! Z.to_nat i with
      | None => Fault
      | Some entry =>
          Ok (i,
              mkTable (count table1) (entries table1) (capacity table1) (allocator table1)
                      (hash_func table1)
                      (<[Z.to_nat i := mkEntry (key entry) value0 (sign entry)]> (slots table1)),
              w1)
      end
  | Fault => Fault
  | OutOfFuel => OutOfFuel
  end.

Definition table_remove (fuel : nat) (table : Table K V) (key0 : K)
  : Result (bool * Table K V) :=
  if count table >? 0 then
    match table_find_entry fuel table key0 with
    | Ok p =>
        match p, entry_at table p with
        | Some i, Ok entry =>
            if negb (table_is_sentinel_entry entry) then
              Ok (true,
                  mkTable (wrap (count table - 1)) (entries table) (capacity table)
                          (allocator table) (hash_func table)
                          (<[Z.to_nat i := mkEntry (key entry) (value entry) TOMBSTONE]>
                             (slots table)))
            else Ok (false, table)
        | _, Fault => Fault
        | _, OutOfFuel => OutOfFuel
        | None, Ok _ => Fault
        end
    | Fault => Fault
    | OutOfFuel => OutOfFuel
    end
  else Ok (false, table).

(** The entry at byte offset [base] of the array after the bytes of the
    array below address [n] have been zeroed. *)
Definition memset_entry (n base : Z) (entry : Table_Entry K V) : Table_Entry K V :=
  mkEntry
    (of_bytes (zero_prefix (n - base) (to_bytes (key entry))))
    (of_bytes (zero_prefix (n - (base + value_offset)) (to_bytes (value entry))))
    (usize_of_bytes (zero_prefix (n - (base + sign_offset)) (usize_to_bytes (sign entry)))).

(** [memset(entries, 0, n)] seen through the entries of the array. *)
Definition memset_entries (n : Z) (es : list (Table_Entry K V)) : list (Table_Entry K V) :=
  imap (fun j entry => memset_entry n (Z.of_nat j * sizeof_Table_Entry) entry) es.

(** [table_clear]: [memset(table->entries, 0, table->capacity)], then
    [count = 0]. *)
Definition table_clear (table : Table K V) : Result (Table K V) :=
  if (entries table =? NULL) && negb (capacity table =? 0) then Fault
  else
    Ok (mkTable 0 (entries table) (capacity table) (allocator table) (hash_func table)
                (memset_entries (capacity table) (slots table))).

(** Operations of a client on one table. *)
Inductive Op : Type :=
| Op_update (key0 : K) (value0 : V)
| Op_remove (key0 : K)
| Op_clear.

Definition apply_op (fuel : nat) (op : Op) (st : Table K V * World)
  : Result (Table K V * World) :=
  let '(table, w) := st in
  match op with
  | Op_update key0 value0 =>
      match table_update fuel table key0 value0 w with
      | Ok (_, table', w') => Ok (table', w')
      | Fault => Fault
      | OutOfFuel => OutOfFuel
      end
  | Op_remove key0 =>
      match table_remove fuel table key0 with
      | Ok (_, table') => Ok (table', w)
      | Fault => Fault
      | OutOfFuel => OutOfFuel
      end
  | Op_clear =>
      match table_clear table with
      | Ok table' => Ok (table', w)
      | Fault => Fault
      | OutOfFuel => OutOfFuel
      end
  end.

(** The tables a client can reach from [make_table] by [table_update],
    [table_remove] and [table_clear], each call with whatever fuel and
    allocator history let it return. *)
Inductive reachable : Table K V -> Prop :=
| reachable_make (hash_func : K -> Z) (allocator : Z) :
    reachable (make_table hash_func allocator)
| reachable_op (fuel : nat) (op : Op) (table table' : Table K V) (w w' : World) :
    reachable table ->
    apply_op fuel op (table, w) = Ok (table', w') ->
    reachable table'.

(** Load invariant of a table: it is empty and unallocated, or its capacity
    is a power of two of at least [MIN_CAPACITY] and fewer than 70% of the
    slots are counted. *)
Definition load_invariant (table : Table K V) : Prop :=
  0 <= count table /\
  ((capacity table = 0 /\ count table = 0) \/
   exists k, 3 <= k <= 63 /\ capacity table = 2 ^ k /\
             count table * 100 < capacity table * LOAD_FACTOR).

(** What the growth check establishes for the slot search. *)
Definition insert_ready (table : Table K V) : Prop :=
  0 <= count table /\
  exists k, 3 <= k <= 63 /\ capacity table = 2 ^ k /\
            (count table + 1) * 100 < capacity table * LOAD_FACTOR.

(** *** What a table stands for *)

(** The client's view: the live keys, each with the value most recently
    passed to [table_update] since the key was last removed. *)
Definition spec_remove (key0 : K) (m : list (K * V)) : list (K * V) :=
  List.filter (fun p => negb (key_eqb key0 (fst p))) m.

Definition spec_update (key0 : K) (value0 : V) (m : list (K * V)) : list (K * V) :=
  (key0, value0) :: spec_remove key0 m.

Definition spec_find (key0 : K) (m : list (K * V)) : option V :=
  snd <$> List.find (fun p => key_eqb key0 (fst p)) m.

Definition spec_step (m : list (K * V)) (op : Op) : list (K * V) :=
  match op with
  | Op_update key0 value0 => spec_update key0 value0 m
  | Op_remove key0 => spec_remove key0 m
  | Op_clear => []
  end.

Definition spec_run (ops : list Op) : list (K * V) := fold_left spec_step ops [].

Definition is_clear (op : Op) : bool :=
  match op with
  | Op_clear => true
  | _ => false
  end.

(** The test of the probing loop for the entry looked for. *)
Definition matches (key0 : K) (sign0 : Z) (e : Table_Entry K V) : bool :=
  (sign e =? sign0) && key_eqb key0 (key e).

(** The signature [table_create_entry] stores for a key, and the slot at
    which the search for a signature starts. *)
Definition live_signature (table : Table K V) (key0 : K) : Z :=
  table_create_signature (wrap (hash_func table key0)).

Definition home_slot (table : Table K V) (sign0 : Z) : Z :=
  Z.land (Z.land sign0 0x3FFFFFFFFFFFFFFF) (wrap (capacity table - 1)).

(** The table holds [key0] with [value0] in a live slot. *)
Definition holds (table : Table K V) (key0 : K) (value0 : V) : Prop :=
  exists (j : nat) (e : Table_Entry K V),
    slots table !! j = Some e /\ table_is_sentinel_entry e = false /\
    key e = key0 /\ value e = value0.

(** The slot remembered in [first_removed_slot], if any, is a tombstone. *)
Definition first_removed_ok (table : Table K V) (first_removed_slot : option Z) : Prop :=
  forall r, first_removed_slot = Some r ->
    0 <= r /\
    exists e, slots table !! Z.to_nat r = Some e /\ sign e = TOMBSTONE.

(** Well-formed slots: the array has [capacity] slots, a live entry carries
    the signature of its key, no key is live twice, and the search for a
    live entry ends at its slot. *)
Record slots_invariant (table : Table K V) : Prop := {
  inv_capacity : 0 < capacity table < 2 ^ 64;
  inv_length : length (slots table) = Z.to_nat (capacity table);
  inv_sign : forall j e,
    slots table !! j = Some e -> table_is_sentinel_entry e = false ->
    sign e = live_signature table (key e);
  inv_distinct : forall j1 j2 e1 e2,
    slots table !! j1 = Some e1 -> slots table !! j2 = Some e2 ->
    table_is_sentinel_entry e1 = false -> table_is_sentinel_entry e2 = false ->
    key e1 = key e2 -> j1 = j2;
  inv_findable : forall j e,
    slots table !! j = Some e -> table_is_sentinel_entry e = false ->
    exists fuel,
      find_entry_loop fuel table (key e) (sign e) (home_slot table (sign e)) 1 None
      = Ok (Some (Z.of_nat j))
}.

(** [copy] holds exactly the live entries among the first [i] of [old]:
    the state of [table_expand] between two rounds of its loop. *)
Definition copied_upto (old : Table K V) (copy : Table K V) (i : nat) : Prop :=
  slots_invariant copy /\
  hash_func copy = hash_func old /\
  forall k v,
    holds copy k v <->
    exists (j : nat) (e : Table_Entry K V),
      (j < i)%nat /\ slots old !! j = Some e /\
      table_is_sentinel_entry e = false /\ key e = k /\ value e = v.

(** The table represents the client's view [m]. *)
Record represents (table : Table K V) (m : list (K * V)) : Prop := {
  rep_nodup : NoDup (map fst m);
  rep_null : capacity table = 0 -> slots table = [];
  rep_entries : capacity table <> 0 -> entries table <> NULL;
  rep_slots : capacity table <> 0 -> slots_invariant table;
  rep_holds : forall k v, holds table k v <-> spec_find k m = Some v;
  rep_count : count table = Z.of_nat (length m)
}.

Fixpoint apply_ops (fuel : nat) (ops : list Op) (st : Table K V * World)
  : Result (Table K V * World) :=
  match ops with
  | [] => Ok st
  | op :: ops' =>
      match apply_op fuel op st with
      | Ok st' => apply_ops fuel ops' st'
      | Fault => Fault
      | OutOfFuel => OutOfFuel
      end
  end.

End Table.

(** *** [Table<int, int>] as the tests instantiate it *)

(** A 32-bit [int], little endian, two's complement. *)
#[export] Instance int_repr : Repr Z := {|
  sizeof := 4;
  to_bytes := fun v => map (byte_of (v mod 2 ^ 32)) [0; 1; 2; 3];
  of_bytes := fun bs =>
    let u := usize_of_bytes (take 4 bs) mod 2 ^ 32 in
    if u <? 2 ^ 31 then u else u - 2 ^ 32
|}.

(** [Table_Entry<int, int>]: key at 0, value at 4, signature at 8, 16 bytes. *)
#[export] Instance int_int_layout : Entry_Layout Z Z := {|
  value_offset := 4;
  sign_offset := 8;
  sizeof_Table_Entry := 16;
  alignof_Table_Entry := 8
|}.

(** An allocator that always succeeds, handing out fresh 16-aligned blocks. *)
Definition bump_alloc (w : World) (allocator size align : Z) : Z :=
  65536 * (1 + Z.of_nat (length w)).

(** Addresses standing for [&mallocator] and for a scoped allocator. *)
Definition mallocator_addr : Z := 4096.
Definition scoped_allocator_addr : Z := 8192.

(** [make_table<int, int>()], both arguments left to their defaults. *)
Definition int_table : Table Z Z := make_table table_auto_hash mallocator_addr.

(** The keys [0 .. 23] of the table tests, and [table_update(&table, i, i * m)]
    for each of them. *)
Definition test_keys : list Z := seqZ 0 24.
Definition updates_scaled (m : Z) : list (@Op Z Z) :=
  map (fun k => Op_update k (k * m)) test_keys.

(** What the tests look at after a run: [count], [capacity] and what
    [table_find] points to for each test key. *)
Definition observe (r : Result (Table Z Z * World)) : option (Z * Z * list (option Z)) :=
  match r with
  | Ok (table, _) =>
      Some (count table, capacity table,
            map (fun k => match table_find Z.eqb 64 table k with
                          | Ok p => value_at table p
                          | _ => None
                          end) test_keys)
  | _ => None
  end.

(** The hash of the collision test: [~0ull] for every key. *)
Definition badhash (key0 : Z) : Z := 2 ^ 64 - 1.

(** The same table made with another allocator than the default. *)
Definition scoped_table : Table Z Z := make_table table_auto_hash scoped_allocator_addr.

(** [scoped_table] after [table_update(&table, 1, 10)]. *)
Definition scoped_one : Table Z Z :=
  mkTable 1 65536 8 scoped_allocator_addr table_auto_hash
    [mkEntry 0 0 0; mkEntry 1 10 12342874119663392217; mkEntry 0 0 0;
     mkEntry 0 0 0; mkEntry 0 0 0; mkEntry 0 0 0; mkEntry 0 0 0; mkEntry 0 0 0].

(** Three insertions into an empty table. *)
Definition three_updates : list (@Op Z Z) :=
  [Op_update 0 0; Op_update 1 10; Op_update 2 20].

(** The table after [three_updates]: capacity 8, the keys 0, 1, 2 in the
    slots 5, 1, 6. *)
Definition three_table : Table Z Z :=
  mkTable 3 65536 8 mallocator_addr table_auto_hash
    [mkEntry 0 0 0; mkEntry 1 10 12342874119663392217; mkEntry 0 0 0;
     mkEntry 0 0 0; mkEntry 0 0 0; mkEntry 0 0 10613116938239575293;
     mkEntry 2 20 11765288593819329349; mkEntry 0 0 0].

(** Eight insert-then-remove rounds.  Under the default hash the keys
    5, 1, 13, 9, 4, 0, 12, 8 have the home slots 0, 1, ..., 7 of a table of
    capacity 8. *)
Definition churn_ops : list (@Op Z Z) :=
  [Op_update 5 50; Op_remove 5; Op_update 1 10; Op_remove 1;
   Op_update 13 130; Op_remove 13; Op_update 9 90; Op_remove 9;
   Op_update 4 40; Op_remove 4; Op_update 0 0; Op_remove 0;
   Op_update 12 120; Op_remove 12; Op_update 8 80; Op_remove 8].

(** The table those rounds leave behind: every slot a tombstone. *)
Definition churned_table : Table Z Z :=
  mkTable 0 65536 8 mallocator_addr table_auto_hash
    [mkEntry 5 50 TOMBSTONE; mkEntry 1 10 TOMBSTONE; mkEntry 13 130 TOMBSTONE;
     mkEntry 9 90 TOMBSTONE; mkEntry 4 40 TOMBSTONE; mkEntry 0 0 TOMBSTONE;
     mkEntry 12 120 TOMBSTONE; mkEntry 8 80 TOMBSTONE].

End Table.

(** ** core/table.h: iteration and [operator[]] *)

Module Iteration.
Import Machine Table.

(** [Table::iterator { Table_Entry *ptr; Table_Entry *end; }].  An entry
    pointer [entries + i] is held as the slot index [i]. *)
Record iterator : Type := mkIterator {
  ptr : Z;
  end_ : Z
}.

(** [iterator::operator==] and [operator!=] compare [ptr] only. *)
Definition iterator_eqb (a b : iterator) : bool := ptr b =? ptr a.

Section Iteration.
Context {K V : Type} {repr_K : Repr K} {repr_V : Repr V} {layout : Entry_Layout K V}.
Variable key_eqb : K -> K -> bool.
Variable allocator_alloc : World -> Z -> Z -> Z -> Z.

(** The loop [for (; ptr != end && table_is_sentinel_entry(ptr); ++ptr)] of
    [begin] and [operator++].  Reading an entry outside the array is a
    [Fault]. *)
Fixpoint skip_sentinels (fuel : nat) (table : Table K V) (p e : Z) : Result Z :=
  match fuel with
  | O => OutOfFuel
  | S fuel' =>
      if p =? e then Ok p
      else
        match (if p <? 0 then None else slots table !! Z.to_nat p) with
        | None => Fault
        | Some entry =>
            if table_is_sentinel_entry entry then skip_sentinels fuel' table (p + 1) e
            else Ok p
        end
  end.

(** [begin(table)]. *)
Definition table_begin (fuel : nat) (table : Table K V) : Result iterator :=
  match skip_sentinels fuel table 0 (capacity table) with
  | Ok p => Ok (mkIterator p (capacity table))
  | Fault => Fault
  | OutOfFuel => OutOfFuel
  end.

(** [end(table)]. *)
Definition table_end (table : Table K V) : iterator :=
  mkIterator (capacity table) (capacity table).

(** [iterator::operator++]. *)
Definition iterator_next (fuel : nat) (table : Table K V) (it : iterator) : Result iterator :=
  match skip_sentinels fuel table (ptr it + 1) (end_ it) with
  | Ok p => Ok (mkIterator p (end_ it))
  | Fault => Fault
  | OutOfFuel => OutOfFuel
  end.

(** [iterator::operator*]: the [Table_Pair] the entry begins with. *)
Definition iterator_deref (table : Table K V) (it : iterator) : Result (K * V) :=
  match (if ptr it <? 0 then None else slots table !! Z.to_nat (ptr it)) with
  | Some entry => Ok (key entry, value entry)
  | None => Fault
  end.

(** The range-based [for (auto &pair : table)]: from [it], dereference and
    advance until [it != end] fails; the pairs seen, in order. *)
Fixpoint iterate (fuel : nat) (table : Table K V) (it last : iterator)
  : Result (list (K * V)) :=
  match fuel with
  | O => OutOfFuel
  | S fuel' =>
      if iterator_eqb it last then Ok []
      else
        match iterator_deref table it with
        | Ok kv =>
            match iterator_next (S fuel') table it with
            | Ok it' =>
                match iterate fuel' table it' last with
                | Ok kvs => Ok (kv :: kvs)
                | Fault => Fault
                | OutOfFuel => OutOfFuel
                end
            | Fault => Fault
            | OutOfFuel => OutOfFuel
            end
        | Fault => Fault
        | OutOfFuel => OutOfFuel
        end
  end.

Definition table_items (fuel : nat) (table : Table K V) : Result (list (K * V)) :=
  match table_begin fuel table with
  | Ok it => iterate fuel table it (table_end table)
  | Fault => Fault
  | OutOfFuel => OutOfFuel
  end.

(** [Table::operator[]]: [table_create_entry], then a reference to the
    value of the entry; the slot referred to, the table and the world. *)
Definition table_subscript (fuel : nat) (table : Table K V) (key0 : K) (w : World)
  : Result (Z * Table K V * World) :=
  table_create_entry key_eqb allocator_alloc fuel table key0 w.

(** Operations that insert or overwrite only. *)
Definition is_update (op : @Op K V) : bool :=
  match op with
  | Op_update _ _ => true
  | _ => false
  end.

(** The live entries of an array, in slot order. *)
Definition live_pairs (es : list (Table_Entry K V)) : list (K * V) :=
  map (fun e => (key e, value e))
      (List.filter (fun e => negb (table_is_sentinel_entry e)) es).

End Iteration.

End Iteration.

(** ** core/memory.cpp: runs of arena requests *)

Module Arenas.
Import Machine Memory.

(** A request an arena gets directly. *)
Inductive Arena_Op : Type :=
| Op_alloc (size align : Z)
| Op_realloc (block size align : Z)
| Op_reset.

Definition arena_step (a : Arena) (op : Arena_Op) : Result Arena :=
  match op with
  | Op_alloc size align => Ok (snd (arena_alloc a size align))
  | Op_realloc block size align =>
      match arena_realloc a block size align with
      | Ok (_, a') => Ok a'
      | Fault => Fault
      | OutOfFuel => OutOfFuel
      end
  | Op_reset => Ok (arena_reset a)
  end.

Fixpoint arena_run (a : Arena) (ops : list Arena_Op) : Result Arena :=
  match ops with
  | [] => Ok a
  | op :: ops' =>
      match arena_step a op with
      | Ok a' => arena_run a' ops'
      | Fault => Fault
      | OutOfFuel => OutOfFuel
      end
  end.

(** The contract of the header comments, on the 64-bit address space: the
    alignment is a power of two, and the buffer followed by a size header,
    the padding and the block is representable, so that no pointer or size
    computed by [arena_alloc] wraps. *)
Definition request_fits (a : Arena) (size align : Z) : Prop :=
  (exists k, 0 <= k < 64 /\ align = 2 ^ k) /\ 0 <= size /\
  data a + capacity a + sizeof_usize + align + size <= 2 ^ 64.

(** "The pointer given to realloc must be a pointer returned by arena_alloc
    or arena_realloc ...  block may be null": the block is null or a valid
    block of the arena. *)
Definition op_in_contract (a : Arena) (op : Arena_Op) : Prop :=
  match op with
  | Op_alloc size align => request_fits a size align
  | Op_realloc block size align =>
      (block = NULL \/ valid_block a block) /\ request_fits a size align
  | Op_reset => True
  end.

(** Every request of the run is within the contract for the arena it is
    made on. *)
Fixpoint run_in_contract (a : Arena) (ops : list Arena_Op) : Prop :=
  match ops with
  | [] => True
  | op :: ops' =>
      op_in_contract a op /\
      match arena_step a op with
      | Ok a' => run_in_contract a' ops'
      | _ => True
      end
  end.

(** The test arena after its first allocation, [a] of 400 bytes at 4128:
    the cursor is at 416 and [a] is the block at the tail. *)
Definition test_arena_a : Arena := snd (arena_alloc test_arena 400 16).

End Arenas.

(** ** core/string.h, core/string.cpp: byte strings *)

Module Strings.
Import Machine.

(** A [Slice<u8>] is modelled by the bytes it views: [count] is the length
    of the list and [data[i]] its [i]-th element; [advance(&s, 1)] drops
    the first byte. *)

Definition u8 (x : Z) : Z := x mod 2 ^ 8.
Definition u32 (x : Z) : Z := x mod 2 ^ 32.

(** *** Character classes *)

Definition is_space (ch : Z) : bool :=
  (ch =? 32) || (ch =? 9) || (ch =? 11) || (ch =? 10) || (ch =? 13) || (ch =? 12).

Definition is_upper (ch : Z) : bool := (65 <=? ch) && (ch <=? 90).

Definition is_lower (ch : Z) : bool := (97 <=? ch) && (ch <=? 122).

Definition is_alpha (ch : Z) : bool :=
  ((65 <=? ch) && (ch <=? 90)) || ((97 <=? ch) && (ch <=? 122)).

Definition is_digit (ch : Z) : bool := (48 <=? ch) && (ch <=? 57).

Definition to_lower (ch : Z) : Z :=
  if (65 <=? ch) && (ch <=? 90) then u8 (ch + 32) else ch.

Definition to_upper (ch : Z) : Z :=
  if (97 <=? ch) && (ch <=? 122) then u8 (ch - 32) else ch.

(** *** UTF-8 *)

Definition utf8_first_byte_lengths : list Z :=
  [1; 1; 1; 1; 1; 1; 1; 1; 1; 1; 1; 1; 1; 1; 1; 1;
   0; 0; 0; 0; 0; 0; 0; 0; 2; 2; 2; 2; 3; 3; 4; 0].

(** [string_encode_rune]: the number of bytes written and the bytes of the
    string afterwards. *)
Definition string_encode_rune (str : list Z) (rune : Z) : Z * list Z :=
  let count := Z.of_nat (length str) in
  if (rune <? 0x80) && (0 <? count) then
    (1, <[0%nat := u8 rune]> str)
  else if (rune <? 0x800) && (1 <? count) then
    (2, <[1%nat := u8 (Z.lor 0x80 (Z.land rune 0x3F))]>
          (<[0%nat := u8 (Z.lor 0xC0 (Z.shiftr rune 6))]> str))
  else if (rune <? 0x10000) && (2 <? count) then
    if (0xD800 <=? rune) && (rune <=? 0xDFFF) then (0, str)
    else
      (3, <[2%nat := u8 (Z.lor 0x80 (Z.land rune 0x3F))]>
            (<[1%nat := u8 (Z.lor 0x80 (Z.land (Z.shiftr rune 6) 0x3F))]>
               (<[0%nat := u8 (Z.lor 0xE0 (Z.shiftr rune 12))]> str)))
  else if (rune <? 0x110000) && (3 <? count) then
    (4, <[3%nat := u8 (Z.lor 0x80 (Z.land rune 0x3F))]>
          (<[2%nat := u8 (Z.lor 0x80 (Z.land (Z.shiftr rune 6) 0x3F))]>
             (<[1%nat := u8 (Z.lor 0x80 (Z.land (Z.shiftr rune 12) 0x3F))]>
                (<[0%nat := u8 (Z.lor 0xF0 (Z.shiftr rune 18))]> str))))
  else (0, str).

(** Reading [str.data[i]]; outside the string it is a [Fault]. *)
Definition byte_at (str : list Z) (i : nat) : Result Z :=
  match str !! i with
  | Some b => Ok b
  | None => Fault
  end.

(** The value part of the macro [utf8_decode_cont]; [None] stands for
    [goto err]. *)
Definition utf8_decode_cont (val cont : Z) : option Z :=
  if negb (Z.land cont 0xC0 =? 0x80) then None
  else Some (Z.lor (u32 (Z.shiftl val 6)) (Z.land cont 0x3F)).

(** [utf8_decode_cont(value, str.data[i])] followed by the rest [k] of the
    case; [err] is the result at the label of that name. *)
Definition decode_cont_at (str : list Z) (i : nat) (value : Z)
    (k : Z -> Result (Z * Z)) : Result (Z * Z) :=
  match byte_at str i with
  | Ok cont =>
      match utf8_decode_cont value cont with
      | None => Ok (0xFFFD, 1)
      | Some value' => k value'
      end
  | Fault => Fault
  | OutOfFuel => OutOfFuel
  end.

(** [string_decode_rune]: the rune stored through the pointer and the
    length returned. *)
Definition string_decode_rune (str : list Z) : Result (Z * Z) :=
  let err := Ok (0xFFFD, 1) in
  match str with
  | [] => Ok (0xFFFD, 0)
  | b0 :: _ =>
      match utf8_first_byte_lengths !! Z.to_nat (Z.shiftr b0 3) with
      | None => Fault
      | Some len =>
          if len =? 1 then Ok (b0, 1)
          else if Z.of_nat (length str) <? len then err
          else if len =? 2 then
            decode_cont_at str 1 (Z.land b0 0x1F) (fun value =>
            if value <? 0x80 then err else Ok (value, 2))
          else if len =? 3 then
            decode_cont_at str 1 (Z.land b0 0x0F) (fun value =>
            decode_cont_at str 2 value (fun value =>
            if value <? 0x800 then err
            else if (0xD800 <=? value) && (value <=? 0xDFFF) then err
            else Ok (value, 3)))
          else if len =? 4 then
            decode_cont_at str 1 (Z.land b0 0x07) (fun value =>
            decode_cont_at str 2 value (fun value =>
            decode_cont_at str 3 value (fun value =>
            if value <? 0x10000 then err
            else if value >? 0x10FFFF then err
            else Ok (value, 4))))
          else err
      end
  end.

(** The same function by cases on the bytes, in arithmetic: the closed
    form the facts about [string_decode_rune] are read from. *)
Definition is_cont (b : Z) : bool := (128 <=? b) && (b <? 192).

Definition lead_length (b0 : Z) : Z :=
  if b0 <? 128 then 1
  else if b0 <? 192 then 0
  else if b0 <? 224 then 2
  else if b0 <? 240 then 3
  else if b0 <? 248 then 4
  else 0.

Definition decode_cases (str : list Z) : Z * Z :=
  let err := (0xFFFD, 1) in
  match str with
  | [] => (0xFFFD, 0)
  | b0 :: rest =>
      if b0 <? 128 then (b0, 1)
      else if b0 <? 192 then err
      else if b0 <? 224 then
        match rest with
        | b1 :: _ =>
            if is_cont b1 then
              let v := (b0 - 192) * 64 + (b1 - 128) in
              if v <? 0x80 then err else (v, 2)
            else err
        | _ => err
        end
      else if b0 <? 240 then
        match rest with
        | b1 :: b2 :: _ =>
            if is_cont b1 && is_cont b2 then
              let v := ((b0 - 224) * 64 + (b1 - 128)) * 64 + (b2 - 128) in
              if v <? 0x800 then err
              else if (0xD800 <=? v) && (v <=? 0xDFFF) then err
              else (v, 3)
            else err
        | _ => err
        end
      else if b0 <? 248 then
        match rest with
        | b1 :: b2 :: b3 :: _ =>
            if is_cont b1 && is_cont b2 && is_cont b3 then
              let v := (((b0 - 240) * 64 + (b1 - 128)) * 64 + (b2 - 128)) * 64 + (b3 - 128) in
              if v <? 0x10000 then err
              else if v >? 0x10FFFF then err
              else (v, 4)
            else err
        | _ => err
        end
      else err
  end.

(** The number of bytes of the UTF-8 encoding of a rune; 0 for a surrogate
    half and for a value above [0x10FFFF]. *)
Definition rune_length (rune : Z) : Z :=
  if rune <? 0x80 then 1
  else if rune <? 0x800 then 2
  else if rune <? 0x10000 then
    if (0xD800 <=? rune) && (rune <=? 0xDFFF) then 0 else 3
  else if rune <? 0x110000 then 4
  else 0.

(** The bytes of that encoding. *)
Definition rune_bytes (rune : Z) : list Z :=
  if rune <? 0x80 then [rune]
  else if rune <? 0x800 then [192 + rune / 64; 128 + rune mod 64]
  else if rune <? 0x10000 then
    [224 + rune / 4096; 128 + (rune / 64) mod 64; 128 + rune mod 64]
  else
    [240 + rune / 262144; 128 + (rune / 4096) mod 64; 128 + (rune / 64) mod 64;
     128 + rune mod 64].

(** A byte, and a Unicode scalar value. *)
Definition is_byte (b : Z) : Prop := 0 <= b < 256.

Definition is_scalar (rune : Z) : Prop :=
  0 <= rune < 0x110000 /\ ~ (0xD800 <= rune <= 0xDFFF).

(** *** Trimming and tokens *)

(** The loop [while (str.count > 0 && is_space(str.data[0])) advance(&str, 1)],
    which opens the tokenizers, the trimming functions and the parsers. *)
Fixpoint skip_spaces (str : list Z) : list Z :=
  match str with
  | [] => []
  | c :: rest => if is_space c then skip_spaces rest else str
  end.

(** A string of whitespace only. *)
Definition all_spaces (l : list Z) : Prop := Forall (fun c => is_space c = true) l.

(** The loop [while (count > 0 && is_space(data[count - 1])) --count]: the
    count it ends with. *)
Fixpoint trailing_count (count : nat) (data : list Z) : nat :=
  match count with
  | O => O
  | S count' =>
      match data !! count' with
      | Some c => if is_space c then trailing_count count' data else count
      | None => count
      end
  end.

Definition string_ltrim (str : list Z) : list Z := skip_spaces str.

Definition string_rtrim (str : list Z) : list Z :=
  take (trailing_count (length str) str) str.

Definition string_trim (str : list Z) : list Z :=
  let str := skip_spaces str in
  take (trailing_count (length str) str) str.

(** The loop of the two [string_next_token]: [result] grows by one byte per
    round, until the string ends or a byte on which [stop] holds has been
    consumed.  The token and what is left of the string. *)
Fixpoint token_loop (stop : Z -> bool) (str result : list Z) : list Z * list Z :=
  match str with
  | [] => (result, [])
  | c :: rest =>
      if stop c then (result, rest)
      else token_loop stop rest (result ++ [c])
  end.

(** [string_next_token(str, ch)]. *)
Definition string_next_token (str : list Z) (ch : Z) : list Z * list Z :=
  token_loop (fun c => c =? ch) (skip_spaces str) [].

(** [string_next_token(str)]. *)
Definition string_next_token_space (str : list Z) : list Z * list Z :=
  token_loop is_space (skip_spaces str) [].

(** [string_next_line]. *)
Fixpoint line_loop (str result : list Z) : list Z * list Z :=
  match str with
  | [] => (result, [])
  | c :: rest =>
      if c =? 13 then
        match rest with
        | c1 :: rest1 => if c1 =? 10 then (result, rest1) else (result, rest)
        | [] => (result, rest)
        end
      else if c =? 10 then (result, rest)
      else line_loop rest (result ++ [c])
  end.

Definition string_next_line (str : list Z) : list Z * list Z := line_loop str [].

(** Neither a carriage return nor a line feed. *)
Definition no_line_end (c : Z) : Prop := c <> 13 /\ c <> 10.

(** [string_equal_ignore_case]: the loop over [i], both strings of the
    same length. *)
Fixpoint equal_ignore_case_loop (a b : list Z) : bool :=
  match a, b with
  | ca :: a', cb :: b' =>
      if negb (to_lower ca =? to_lower cb) then false
      else equal_ignore_case_loop a' b'
  | _, _ => true
  end.

Definition string_equal_ignore_case (a b : list Z) : bool :=
  if negb (Z.of_nat (length a) =? Z.of_nat (length b)) then false
  else equal_ignore_case_loop a b.

(** *** Integers *)

(** The value of a digit character, as the parsing loops compute it in a
    [u8]; [None] when the character is neither a digit nor a letter. *)
Definition digit_of (c : Z) : option Z :=
  if is_digit c then Some (u8 (c - 48))
  else if is_alpha c then Some (u8 (c - (if is_upper c then 65 - 10 else 97 - 10)))
  else None.

(** The digit loop of [string_parse_unsigned]; [None] stands for
    [goto err]. *)
Fixpoint parse_loop (str : list Z) (base ovfmin ovfmax acc : Z) : option Z :=
  match str with
  | [] => Some acc
  | ch :: rest =>
      match digit_of ch with
      | None => None
      | Some c =>
          if c >=? base then None
          else if (acc >? ovfmax) || ((acc =? ovfmax) && (acc >? ovfmin)) then None
          else parse_loop rest base ovfmin ovfmax (wrap (wrap (acc * base) + c))
      end
  end.

(** The choice of the base from a leading [0] or [0x]: the base and the
    string after the prefix.  [str] is not empty. *)
Definition parse_prefix (str : list Z) (base : Z) : Z * list Z :=
  match str with
  | c0 :: rest0 =>
      if c0 =? 48 then
        if ((base =? 0) || (base =? 16)) && (1 <? Z.of_nat (length str))
           && (match rest0 with
               | c1 :: _ => (c1 =? 120) || (c1 =? 88)
               | [] => false
               end)
        then (16, drop 2 str)
        else if (base =? 0) || (base =? 8) then (8, drop 1 str)
        else (base, str)
      else (base, str)
  | [] => (base, str)
  end.

(** [if (base == 0) base = 10]. *)
Definition effective_base (base : Z) : Z := if base =? 0 then 10 else base.

(** [string_parse_unsigned]: the value returned and [*result]. *)
Definition string_parse_unsigned (str : list Z) (int_max base : Z) : bool * Z :=
  match skip_spaces str with
  | [] => (false, 0)
  | c0 :: rest0 =>
      let '(base, str) := parse_prefix (c0 :: rest0) base in
      let base := effective_base base in
      let ovfmin := int_max mod base in
      let ovfmax := int_max / base in
      match parse_loop str base ovfmin ovfmax 0 with
      | Some acc => (true, acc)
      | None => (false, 0)
      end
  end.

(** The characters [body] are the digits [ds] of the base. *)
Definition digits_of (base : Z) (body ds : list Z) : Prop :=
  Forall2 (fun c d => digit_of c = Some d /\ d < base) body ds.

(** A character that is not a digit of the base. *)
Definition not_a_digit (base : Z) (c : Z) : Prop :=
  forall d, digit_of c = Some d -> base <= d.

(** The value of a string of digits in a base, most significant first. *)
Definition digits_value (base : Z) (ds : list Z) : Z :=
  fold_left (fun acc d => acc * base + d) ds 0.

End Strings.

(** * Facts *)

(** ** Machine words *)

Module MachineFacts.
Import Machine.

Lemma wrap_range x : 0 <= wrap x < 2 ^ 64.
Proof. unfold wrap. apply Z.mod_pos_bound. lia. Qed.

Lemma wrap_small x : 0 <= x < 2 ^ 64 -> wrap x = x.
Proof. intros H. unfold wrap. apply Z.mod_small. exact H. Qed.

Lemma wrap_idem x : wrap (wrap x) = wrap x.
Proof. apply wrap_small, wrap_range. Qed.

Lemma byte_of_range v k : 0 <= byte_of v k < 256.
Proof.
  unfold byte_of. change 255 with (Z.ones 8).
  rewrite Z.land_ones by lia. apply Z.mod_pos_bound. lia.
Qed.

Lemma le_bytes_recompose v :
  0 <= v < 2 ^ 64 ->
  byte_of v 0 + 256 * (byte_of v 1 + 256 * (byte_of v 2 + 256 * (byte_of v 3
    + 256 * (byte_of v 4 + 256 * (byte_of v 5 + 256 * (byte_of v 6
    + 256 * (byte_of v 7 + 256 * 0))))))) = v.
Proof.
  intros H. unfold byte_of. change 255 with (Z.ones 8).
  rewrite !Z.land_ones by lia. rewrite !Z.shiftr_div_pow2 by lia.
  simpl Z.mul. Z.div_mod_to_equations. lia.
Qed.

Lemma byte_of_wrap v k : 0 <= k < 8 -> byte_of (wrap v) k = byte_of v k.
Proof.
  intros Hk. unfold byte_of, wrap. change 255 with (Z.ones 8).
  rewrite !Z.land_ones by lia. rewrite !Z.shiftr_div_pow2 by lia.
  assert (Hk' : k = 0 \/ k = 1 \/ k = 2 \/ k = 3 \/ k = 4 \/ k = 5 \/ k = 6 \/ k = 7) by lia.
  destruct Hk' as [-> | [-> | [-> | [-> | [-> | [-> | [-> | ->]]]]]]];
    simpl Z.mul; Z.div_mod_to_equations; lia.
Qed.

Lemma store_usize_at m p v k :
  0 <= k < 8 -> store_usize m p v (p + k) = byte_of v k.
Proof.
  intros Hk. unfold store_usize, sizeof_usize.
  replace (p + k - p) with k by lia.
  destruct (p <=? p + k) eqn:E1; destruct (p + k <? p + 8) eqn:E2; simpl; try reflexivity; lia.
Qed.

Lemma store_usize_other m p v q :
  ~ (p <= q < p + 8) -> store_usize m p v q = m q.
Proof.
  intros Hq. unfold store_usize, sizeof_usize.
  destruct (p <=? q) eqn:E1; destruct (q <? p + 8) eqn:E2; simpl; try reflexivity; lia.
Qed.

(** Reading back a stored header gives the stored word. *)
Lemma load_store_usize m p v : load_usize (store_usize m p v) p = wrap v.
Proof.
  unfold load_usize. cbn [fold_right].
  rewrite !store_usize_at by lia.
  rewrite !(Z.mod_small (byte_of _ _) 256) by apply byte_of_range.
  rewrite <- !(byte_of_wrap v) by lia.
  apply le_bytes_recompose, wrap_range.
Qed.

Lemma load_usize_ext m1 m2 p :
  (forall k, 0 <= k < 8 -> m1 (p + k) = m2 (p + k)) -> load_usize m1 p = load_usize m2 p.
Proof.
  intros H. unfold load_usize. cbn [fold_right].
  rewrite !H by lia. reflexivity.
Qed.

Lemma load_usize_range m p : 0 <= load_usize m p < 2 ^ 64.
Proof.
  unfold load_usize. cbn [fold_right].
  pose proof (Z.mod_pos_bound (m (p + 0)) 256).
  pose proof (Z.mod_pos_bound (m (p + 1)) 256).
  pose proof (Z.mod_pos_bound (m (p + 2)) 256).
  pose proof (Z.mod_pos_bound (m (p + 3)) 256).
  pose proof (Z.mod_pos_bound (m (p + 4)) 256).
  pose proof (Z.mod_pos_bound (m (p + 5)) 256).
  pose proof (Z.mod_pos_bound (m (p + 6)) 256).
  pose proof (Z.mod_pos_bound (m (p + 7)) 256).
  lia.
Qed.

Lemma memcpy_dst m dst src n k :
  0 <= k < n -> memcpy m dst src n (dst + k) = m (src + k).
Proof.
  intros Hk. unfold memcpy.
  replace (dst + k - dst) with k by lia.
  destruct (dst <=? dst + k) eqn:E1; destruct (dst + k <? dst + n) eqn:E2; simpl; try reflexivity; lia.
Qed.


Lemma land_bounds a b : 0 <= a -> 0 <= b -> 0 <= Z.land a b <= b.
Proof.
  intros Ha Hb. split; [apply Z.land_nonneg; auto |].
  rewrite <- (Z2N.id a Ha), <- (Z2N.id b Hb) at 1.
  rewrite <- N2Z.inj_land.
  rewrite <- (Z2N.id b Hb) at 2.
  apply N2Z.inj_le, N.land_le_r.
Qed.

End MachineFacts.

(** ** Arenas and scoped allocators *)

Module MemoryFacts.
Import Machine MachineFacts Memory.

Lemma land_pow2_mod x k : 0 <= k -> Z.land x (2 ^ k - 1) = x mod 2 ^ k.
Proof. intros. replace (2 ^ k - 1) with (Z.ones k) by (rewrite Z.ones_equiv; lia). apply Z.land_ones; lia. Qed.

Lemma alignptr_pow2 p k :
  0 <= k < 64 -> 0 <= p -> p + 2 ^ k <= 2 ^ 64 ->
  alignptr p (2 ^ k) = p + (- p) mod 2 ^ k.
Proof.
  intros Hk Hp Hb. unfold alignptr.
  assert (H2k : 0 < 2 ^ k) by (apply Z.pow_pos_nonneg; lia).
  assert (H2k' : 2 ^ k < 2 ^ 64) by (apply Z.pow_lt_mono_r; lia).
  rewrite (wrap_small (2 ^ k - 1)) by lia.
  rewrite land_pow2_mod by lia.
  unfold wrap at 2.
  replace (2 ^ 64) with (2 ^ k * 2 ^ (64 - k)) at 1 by (rewrite <- Z.pow_add_r by lia; f_equal; lia).
  rewrite Z.rem_mul_r by (try lia; apply Z.pow_pos_nonneg; lia).
  rewrite Z.mul_comm, Z.mod_add by lia. rewrite Z.mod_mod by lia.
  apply wrap_small.
  pose proof (Z.mod_pos_bound (- p) (2 ^ k) H2k). lia.
Qed.



(** [arena_alloc] on any arena and any request, all quantities being
    the [usize] values the code computes: with [ptr] the aligned pointer
    after the 8-byte header and [new_size] the cursor plus header, padding
    and size, the call returns null and the arena itself when [new_size]
    exceeds the capacity; otherwise it returns [ptr], the 8 bytes before
    [ptr] hold [size], [allocated] is [new_size], and capacity, buffer
    address and every other byte are as before.  When the alignment is a
    power of two and the addresses involved are representable, [ptr] is
    aligned, the padding is less than [align], and, the sum not exceeding
    64 bits, [new_size] is exactly [allocated + 8 + padding + size]. *)
Theorem arena_alloc_spec (arena : Arena) (size align : Z) :
  let block := wrap (data arena + allocated arena) in
  let ptr := alignptr (wrap (block + sizeof_usize)) align in
  let header := wrap (ptr - sizeof_usize) in
  let new_size := wrap (allocated arena + wrap (ptr - block) + size) in
  (capacity arena < new_size -> arena_alloc arena size align = (NULL, arena)) /\
  (new_size <= capacity arena ->
     exists arena',
       arena_alloc arena size align = (ptr, arena') /\
       load_usize (bytes arena') header = wrap size /\
       allocated arena' = new_size /\
       capacity arena' = capacity arena /\
       data arena' = data arena /\
       (forall q, ~ (header <= q < header + 8) -> bytes arena' q = bytes arena q)) /\
  (forall k, align = 2 ^ k -> 0 <= k < 64 -> pointer_fits arena align ->
     let padding := (- (data arena + allocated arena + 8)) mod align in
     0 <= padding < align /\
     ptr = data arena + allocated arena + 8 + padding /\
     ptr mod align = 0 /\
     header = ptr - 8 /\
     (0 <= size -> allocated arena + 8 + padding + size < 2 ^ 64 ->
      new_size = allocated arena + 8 + padding + size)).
Proof.
  intros block ptr header new_size. split; [| split].
  - intros Hlt. unfold arena_alloc. fold block. fold ptr. fold new_size.
    destruct (new_size <=? capacity arena) eqn:E; [lia | reflexivity].
  - intros Hle. unfold arena_alloc. fold block. fold ptr. fold new_size. fold header.
    destruct (new_size <=? capacity arena) eqn:E; [| lia].
    eexists. split; [reflexivity |]. cbn [bytes allocated capacity data].
    repeat split.
    + apply load_store_usize.
    + intros q Hq. apply store_usize_other. exact Hq.
  - intros k -> Hk (Ha & Hd & Hfit). unfold sizeof_usize in Hfit. intros padding.
    assert (H2k : 0 < 2 ^ k) by (apply Z.pow_pos_nonneg; lia).
    assert (Hpad : 0 <= padding < 2 ^ k) by (apply Z.mod_pos_bound; lia).
    assert (Hblock : block = data arena + allocated arena)
      by (apply wrap_small; lia).
    assert (Hptr : ptr = data arena + allocated arena + 8 + padding).
    { unfold ptr. rewrite Hblock. unfold sizeof_usize.
      rewrite (wrap_small (data arena + allocated arena + 8)) by lia.
      rewrite alignptr_pow2 by lia. reflexivity. }
    split; [exact Hpad |]. split; [exact Hptr |]. split; [| split].
    + rewrite Hptr. unfold padding.
      rewrite Z.add_mod_idemp_r by lia.
      replace (data arena + allocated arena + 8 + - (data arena + allocated arena + 8)) with 0 by lia.
      apply Z.mod_0_l. lia.
    + unfold header, sizeof_usize. apply wrap_small. lia.
    + intros Hs Hno. unfold new_size. rewrite Hptr, Hblock.
      replace (data arena + allocated arena + 8 + padding - (data arena + allocated arena))
        with (8 + padding) by lia.
      rewrite (wrap_small (8 + padding)) by lia.
      rewrite wrap_small by lia. lia.
Qed.


Lemma alignptr_bounds p align :
  0 < align -> 0 <= p -> p + align <= 2 ^ 64 ->
  p <= alignptr p align < p + align.
Proof.
  intros Hal Hp Hfit. unfold alignptr.
  rewrite (wrap_small (align - 1)) by lia.
  pose proof (land_bounds (wrap (- p)) (align - 1) (proj1 (wrap_range _)) ltac:(lia)) as Hl.
  rewrite wrap_small by lia. lia.
Qed.

(** [arena_realloc] on a non-null block aligned to [align], in the
    [usize] arithmetic of the code.  At the tail (block plus stored size
    is the cursor): when the adjusted cursor, as the code computes it,
    fits the capacity the input pointer is returned, the header holds the
    new size, the cursor is the adjusted one and nothing else changes;
    when it does not fit, null is returned and the arena is unchanged.
    Not at the tail, for a valid block: the call returns null and leaves
    the arena unchanged, or returns a pointer different from the input
    whose first [min(old size, new size)] bytes are those of the old
    block. *)
Theorem arena_realloc_spec (arena : Arena) (block size align : Z) :
  block <> NULL -> 0 < align -> block mod align = 0 ->
  let block_size := load_usize (bytes arena) (wrap (block - sizeof_usize)) in
  let new_size := wrap (allocated arena + (size - block_size)) in
  (wrap (block + block_size) = wrap (data arena + allocated arena) ->
     (new_size <= capacity arena ->
        exists arena',
          arena_realloc arena block size align = Ok (block, arena') /\
          load_usize (bytes arena') (wrap (block - sizeof_usize)) = wrap size /\
          allocated arena' = new_size /\
          capacity arena' = capacity arena /\
          data arena' = data arena /\
          (forall q, ~ (wrap (block - sizeof_usize) <= q < wrap (block - sizeof_usize) + 8) ->
                     bytes arena' q = bytes arena q)) /\
     (capacity arena < new_size ->
        arena_realloc arena block size align = Ok (NULL, arena)) /\
     (0 <= allocated arena + (size - block_size) < 2 ^ 64 ->
        new_size = allocated arena + (size - block_size))) /\
  (wrap (block + block_size) <> wrap (data arena + allocated arena) ->
     valid_block arena block ->
     data arena + allocated arena + sizeof_usize + align <= 2 ^ 64 ->
     exists p arena',
       arena_realloc arena block size align = Ok (p, arena') /\
       ((p = NULL /\ arena' = arena) \/
        (p <> NULL /\ p <> block /\
         forall k, 0 <= k < M_MIN block_size size ->
                   bytes arena' (p + k) = bytes arena (block + k)))).
Proof.
  intros Hnn Hal Hmod block_size new_size.
  assert (Hguard : (align =? 0) || negb (block mod align =? 0) = false).
  { rewrite Hmod. simpl. replace (align =? 0) with false by lia. reflexivity. }
  assert (Hnull : (block =? NULL) = false) by (apply Z.eqb_neq; exact Hnn).
  split.
  - intros Htail. split; [| split].
    + intros Hle. unfold arena_realloc. rewrite Hnull, Hguard.
      fold block_size. fold new_size.
      rewrite Htail, Z.eqb_refl.
      destruct (new_size <=? capacity arena) eqn:E; [| lia].
      eexists. split; [reflexivity |]. cbn [bytes allocated capacity data].
      repeat split.
      * apply load_store_usize.
      * intros q Hq. apply store_usize_other. exact Hq.
    + intros Hlt. unfold arena_realloc. rewrite Hnull, Hguard.
      fold block_size. fold new_size.
      rewrite Htail, Z.eqb_refl.
      destruct (new_size <=? capacity arena) eqn:E; [lia | reflexivity].
    + intros Hr. apply wrap_small. exact Hr.
  - intros Hnt (Hd & Ha & Hlo & Hhi) Hfit.
    unfold sizeof_usize in *.
    pose proof (load_usize_range (bytes arena) (block - 8)) as Hbs.
    assert (Hhdr : wrap (block - 8) = block - 8) by (apply wrap_small; lia).
    assert (Hbs_eq : block_size = load_usize (bytes arena) (block - 8)).
    { unfold block_size, sizeof_usize. rewrite Hhdr. reflexivity. }
    rewrite <- Hbs_eq in Hhi, Hbs.
    rewrite (wrap_small (block + block_size)) in Hnt by lia.
    rewrite (wrap_small (data arena + allocated arena)) in Hnt by lia.
    unfold arena_realloc. rewrite Hnull, Hguard.
    unfold sizeof_usize. rewrite Hhdr, <- Hbs_eq.
    rewrite (wrap_small (block + block_size)) by lia.
    rewrite (wrap_small (data arena + allocated arena)) by lia.
    destruct (block + block_size =? data arena + allocated arena) eqn:E; [lia |].
    unfold arena_alloc, sizeof_usize.
    rewrite (wrap_small (data arena + allocated arena)) by lia.
    rewrite (wrap_small (data arena + allocated arena + 8)) by lia.
    pose proof (alignptr_bounds (data arena + allocated arena + 8) align Hal ltac:(lia) ltac:(lia)) as Hp.
    set (ptr := alignptr (data arena + allocated arena + 8) align) in *.
    destruct (_ <=? capacity arena).
    + assert (Hpn : (ptr =? NULL) = false) by (apply Z.eqb_neq; unfold NULL; lia).
      rewrite Hpn. eexists _, _. split; [reflexivity |].
      right. split; [unfold NULL; lia |]. split; [lia |].
      intros k Hk. cbn [bytes].
      assert (Hmin : M_MIN block_size size <= block_size)
        by (unfold M_MIN; destruct (block_size <? size) eqn:Em; lia).
      rewrite memcpy_dst by exact Hk.
      apply store_usize_other. rewrite (wrap_small (ptr - 8)) by lia. lia.
    + rewrite Z.eqb_refl. eexists _, _. split; [reflexivity |]. left. auto.
Qed.

Lemma arena_alloc_frame (a : Arena) (size align : Z) :
  capacity (snd (arena_alloc a size align)) = capacity a /\
  data (snd (arena_alloc a size align)) = data a.
Proof.
  unfold arena_alloc.
  destruct (_ <=? capacity a); cbn [snd capacity data]; auto.
Qed.

Lemma arena_realloc_frame (a : Arena) (block size align : Z) (p : Z) (a' : Arena) :
  arena_realloc a block size align = Ok (p, a') ->
  capacity a' = capacity a /\ data a' = data a.
Proof.
  unfold arena_realloc.
  pose proof (arena_alloc_frame a size align) as Hf.
  destruct (block =? NULL).
  - intros [= E]. rewrite E in Hf. exact Hf.
  - destruct ((align =? 0) || negb (block mod align =? 0)); [discriminate |].
    destruct (_ =? wrap (data a + allocated a)).
    + destruct (_ <=? capacity a); intros [= <- <-]; auto.
    + destruct (arena_alloc a size align) as [nb a1]. cbn [snd] in Hf.
      destruct (nb =? NULL); intros [= <- <-]; auto.
Qed.

(** Serving a request keeps the arena of the allocator in the store, with
    its capacity and buffer address, and touches no other arena. *)
Lemma serve_frame (la : Linear_Allocator) (r : Request) (s s' : Store) (a : Arena) :
  s !! arena la = Some a ->
  serve la r s = Ok s' ->
  (exists a', s' !! arena la = Some a' /\ capacity a' = capacity a /\ data a' = data a) /\
  (forall r', r' <> arena la -> s' !! r' = s !! r').
Proof.
  intros Ha. destruct r as [size align | block size align | block]; cbn [serve].
  - unfold linear_alloc. rewrite Ha.
    pose proof (arena_alloc_frame a size align) as Hf.
    destruct (arena_alloc a size align) as [p a1]. cbn [snd] in Hf.
    intros [= <-]. split.
    + exists a1. rewrite lookup_insert_eq. auto.
    + intros r' Hr'. apply lookup_insert_ne. congruence.
  - unfold linear_realloc. rewrite Ha.
    destruct (arena_realloc a block size align) as [[p a1] | |] eqn:E; try discriminate.
    apply arena_realloc_frame in E.
    intros [= <-]. split.
    + exists a1. rewrite lookup_insert_eq. auto.
    + intros r' Hr'. apply lookup_insert_ne. congruence.
  - unfold linear_free. intros [= <-]. split; [exists a; auto | auto].
Qed.

Lemma serve_all_frame (la : Linear_Allocator) (rs : list Request) :
  forall (s s' : Store) (a : Arena),
  s !! arena la = Some a ->
  serve_all la rs s = Ok s' ->
  (exists a', s' !! arena la = Some a' /\ capacity a' = capacity a /\ data a' = data a) /\
  (forall r', r' <> arena la -> s' !! r' = s !! r').
Proof.
  induction rs as [| r rs IH]; intros s s' a Ha; cbn [serve_all].
  - intros [= <-]. split; [exists a; auto | auto].
  - destruct (serve la r s) as [s1 | |] eqn:E; try discriminate.
    destruct (serve_frame la r s s1 a Ha E) as [(a1 & Ha1 & Hc1 & Hd1) Ho1].
    intros Hrest.
    destruct (IH s1 s' a1 Ha1 Hrest) as [(a2 & Ha2 & Hc2 & Hd2) Ho2].
    split.
    + exists a2. repeat split; congruence.
    + intros r' Hr'. rewrite Ho2 by exact Hr'. apply Ho1. exact Hr'.
Qed.

(** C9.  For every store, every arena [r] in it and every sequence of
    requests served through the scoped allocator made for [r],
    [deinit] of that allocator succeeds and leaves [r] with [allocated]
    equal to the mark captured at creation, that is the value [allocated]
    had then, and with the capacity, the buffer address and the bytes it
    had just before [deinit]; the capacity is also the one the arena began
    with, and no other arena of the store is changed. *)
Theorem linear_deinit_restores_mark
    (s s1 : Store) (r : Z) (la : Linear_Allocator) (rs : list Request) :
  make_linear_allocator r s = Ok la ->
  serve_all la rs s = Ok s1 ->
  exists (a0 a1 : Arena) (s2 : Store),
    s !! r = Some a0 /\
    allocated_mark la = allocated a0 /\
    s1 !! r = Some a1 /\
    deinit la s1 = Ok s2 /\
    s2 !! r = Some (mkArena (capacity a1) (allocated a0) (data a1) (bytes a1)) /\
    capacity a1 = capacity a0 /\
    data a1 = data a0 /\
    (forall r', r' <> r -> s2 !! r' = s1 !! r').
Proof.
  unfold make_linear_allocator.
  destruct (s !! r) as [a0 |] eqn:Hr; [| discriminate].
  intros [= <-] Hrun.
  destruct (serve_all_frame (mkLinear_Allocator r (allocated a0)) rs s s1 a0 Hr Hrun)
    as [(a1 & Ha1 & Hc1 & Hd1) _].
  cbn [arena] in Ha1.
  exists a0, a1. unfold deinit. cbn [arena allocated_mark]. rewrite Ha1.
  eexists. repeat split; try reflexivity; try assumption.
  - apply lookup_insert_eq.
  - intros r' Hr'. apply lookup_insert_ne. congruence.
Qed.

Lemma arena_alloc_spec_witness :
  exists arena',
    arena_alloc test_arena 400 16 = (4128, arena') /\
    load_usize (bytes arena') 4120 = 400 /\
    allocated arena' = 416 /\
    4128 mod 16 = 0.
Proof.
  destruct (arena_alloc_spec test_arena 400 16) as (_ & Hok & Hexact).
  destruct Hok as (arena' & Hcall & Hhdr & Halloc & _); [vm_compute; discriminate |].
  destruct (Hexact 4 eq_refl ltac:(lia)) as (_ & _ & Hal & _).
  { unfold pointer_fits, test_arena, sizeof_usize. cbn [allocated data]. lia. }
  exists arena'. split; [exact Hcall |]. split; [exact Hhdr |].
  split; [exact Halloc | exact Hal].
Defined.

Lemma arena_realloc_spec_witness :
  (exists arena',
     arena_realloc test_arena_abcd 4576 12 16 = Ok (4576, arena') /\
     allocated arena' = 476) /\
  (exists p arena',
     arena_realloc test_arena_abcd 4560 4 16 = Ok (p, arena') /\
     ((p = NULL /\ arena' = test_arena_abcd) \/
      (p <> NULL /\ p <> 4560 /\
       forall k, 0 <= k < 4 -> bytes arena' (p + k) = bytes test_arena_abcd (4560 + k)))).
Proof.
  split.
  - destruct (arena_realloc_spec test_arena_abcd 4576 12 16) as [Htail _];
      [unfold NULL; lia | lia | reflexivity |].
    destruct Htail as (Hfit & _ & _); [reflexivity |].
    destruct Hfit as (arena' & Hcall & _ & Halloc & _); [vm_compute; discriminate |].
    exists arena'. split; [exact Hcall | exact Halloc].
  - destruct (arena_realloc_spec test_arena_abcd 4560 4 16) as [_ Hmid];
      [unfold NULL; lia | lia | reflexivity |].
    destruct Hmid as (p & arena' & Hcall & Hres).
    + vm_compute. discriminate.
    + unfold valid_block. vm_compute. repeat split; discriminate.
    + vm_compute. discriminate.
    + exists p, arena'. split; [exact Hcall | exact Hres].
Defined.

Lemma linear_deinit_restores_mark_witness :
  exists (s1 s2 : Store) (a2 : Arena),
    serve_all test_scope [Req_alloc 4 16; Req_alloc 4 16] test_store = Ok s1 /\
    deinit test_scope s1 = Ok s2 /\
    s2 !! 4096 = Some a2 /\
    allocated a2 = 0 /\ capacity a2 = 512.
Proof.
  destruct (serve_all test_scope [Req_alloc 4 16; Req_alloc 4 16] test_store)
    as [s1 | |] eqn:Hrun.
  2,3: (exfalso; revert Hrun; cbn [serve_all serve]; unfold linear_alloc, test_store, test_scope; cbn [arena];
        rewrite lookup_singleton_eq; destruct (arena_alloc test_arena 4 16); rewrite lookup_insert_eq; destruct (arena_alloc _ 4 16); discriminate).
  destruct (linear_deinit_restores_mark test_store s1 4096 test_scope
              [Req_alloc 4 16; Req_alloc 4 16] eq_refl Hrun)
    as (a0 & a1 & s2 & Ha0 & _ & _ & Hde & Hs2 & Hcap & _).
  exists s1, s2, (mkArena (capacity a1) (allocated a0) (data a1) (bytes a1)).
  assert (Ea0 : a0 = test_arena).
  { unfold test_store in Ha0. rewrite lookup_singleton_eq in Ha0. congruence. }
  split; [reflexivity |]. split; [exact Hde |]. split; [exact Hs2 |].
  cbn [allocated capacity]. rewrite Hcap, Ea0. split; reflexivity.
Defined.

(** The byte counts of the arena test: 416, 436, 456 and 468 bytes after
    the four allocations, 476 and 472 after growing and shrinking the last
    block in place, 484 after moving the third to a new block. *)
Example arena_test_scenario :
  arena_test_trace =
    [(4128, 416); (4544, 436); (4560, 456); (4576, 468);
     (4576, 476); (4576, 472); (4592, 484)].
Proof. vm_compute. reflexivity. Qed.

(** The scoped-allocator test: 20 and 36 bytes allocated, and 20 again
    once the inner scope is ended. *)
Example linear_test_scenario :
  linear_test_trace = [Some 20; Some 36; Some 20].
Proof. vm_compute. reflexivity. Qed.

(** *** Alignment and powers of two *)

(** [alignptr] rounds a pointer up to the next multiple of a power-of-two
    alignment: the result is aligned, no smaller than the pointer, the
    least such address, and the pointer itself when that is aligned. *)
Theorem alignptr_least_multiple (p k : Z) :
  0 <= k < 64 -> 0 <= p -> p + 2 ^ k <= 2 ^ 64 ->
  alignptr p (2 ^ k) mod 2 ^ k = 0 /\
  p <= alignptr p (2 ^ k) < p + 2 ^ k /\
  (forall q, p <= q -> q mod 2 ^ k = 0 -> alignptr p (2 ^ k) <= q) /\
  (p mod 2 ^ k = 0 -> alignptr p (2 ^ k) = p).
Proof.
  intros Hk Hp Hfit. rewrite alignptr_pow2 by assumption.
  assert (H2k : 0 < 2 ^ k) by (apply Z.pow_pos_nonneg; lia).
  pose proof (Z.mod_pos_bound (- p) (2 ^ k) H2k) as Hm.
  assert (Hal : (p + (- p) mod 2 ^ k) mod 2 ^ k = 0).
  { rewrite Z.add_mod_idemp_r by lia. replace (p + - p) with 0 by lia.
    apply Z.mod_0_l. lia. }
  split; [exact Hal |]. split; [lia |]. split.
  - intros q Hq Hqm.
    apply Z.mod_divide in Hal; [| lia]. apply Z.mod_divide in Hqm; [| lia].
    destruct Hal as [x Hx]. destruct Hqm as [y Hy].
    assert (x <= y); [| nia].
    assert (x - 1 < y); [| lia]. apply (Z.mul_lt_mono_pos_r (2 ^ k)); [lia |]. nia.
  - intros Hpm.
    assert (Hz : (- p) mod 2 ^ k = 0).
    { apply Z.mod_divide; [lia |]. apply Z.divide_opp_r.
      apply Z.mod_divide; [lia | exact Hpm]. }
    lia.
Qed.

(** [nextpow2] of a number between 1 and [2^63] is the least power of two
    that is no smaller: a power of two itself is returned unchanged. *)
Theorem nextpow2_least (n : Z) :
  1 <= n <= 2 ^ 63 ->
  exists k, 0 <= k <= 63 /\ nextpow2 n = 2 ^ k /\ n <= 2 ^ k /\
            (0 < k -> 2 ^ (k - 1) < n).
Proof.
  intros Hn. unfold nextpow2.
  destruct (n =? 1) eqn:E1.
  { apply Z.eqb_eq in E1. subst n. exists 0. cbn. lia. }
  apply Z.eqb_neq in E1.
  rewrite (wrap_small (n - 1)) by lia.
  pose proof (Z.log2_spec (n - 1) ltac:(lia)) as [Hlo Hhi].
  pose proof (Z.log2_nonneg (n - 1)) as Hnn.
  assert (Hl : Z.log2 (n - 1) < 63).
  { apply Z.log2_lt_pow2; lia. }
  exists (Z.log2 (n - 1) + 1).
  rewrite Z.shiftl_mul_pow2 by lia. rewrite Z.mul_1_l.
  replace (Z.succ (Z.log2 (n - 1))) with (Z.log2 (n - 1) + 1) in Hhi by lia.
  assert (Hp : 2 ^ (Z.log2 (n - 1) + 1) <= 2 ^ 63) by (apply Z.pow_le_mono_r; lia).
  rewrite wrap_small by lia.
  split; [lia |]. split; [reflexivity |]. split; [lia |].
  intros _. replace (Z.log2 (n - 1) + 1 - 1) with (Z.log2 (n - 1)) by lia. lia.
Qed.

(** *** Blocks of an arena *)

(** [arena_alloc] when no address or size computation wraps. *)
Lemma arena_alloc_exact (a : Arena) (size align k : Z) :
  align = 2 ^ k -> 0 <= k < 64 -> pointer_fits a align ->
  0 <= size -> allocated a + sizeof_usize + align + size <= 2 ^ 64 ->
  let padding := (- (data a + allocated a + 8)) mod align in
  let p := data a + allocated a + 8 + padding in
  0 <= padding < align /\ p mod align = 0 /\
  arena_alloc a size align =
    if allocated a + 8 + padding + size <=? capacity a
    then (p, mkArena (capacity a) (allocated a + 8 + padding + size) (data a)
                     (store_usize (bytes a) (p - 8) size))
    else (NULL, a).
Proof.
  intros -> Hk (Ha & Hd & Hfit) Hs Hno padding p. unfold sizeof_usize in *.
  assert (H2k : 0 < 2 ^ k) by (apply Z.pow_pos_nonneg; lia).
  assert (Hpad : 0 <= padding < 2 ^ k) by (apply Z.mod_pos_bound; lia).
  split; [exact Hpad |]. split.
  { unfold p, padding. rewrite Z.add_mod_idemp_r by lia.
    replace (data a + allocated a + 8 + - (data a + allocated a + 8)) with 0 by lia.
    apply Z.mod_0_l. lia. }
  unfold arena_alloc, sizeof_usize.
  rewrite (wrap_small (data a + allocated a)) by lia.
  rewrite (wrap_small (data a + allocated a + 8)) by lia.
  rewrite alignptr_pow2 by lia. fold padding. fold p.
  replace (p - (data a + allocated a)) with (8 + padding) by (unfold p; lia).
  rewrite (wrap_small (8 + padding)) by lia.
  rewrite (wrap_small (p - 8)) by (unfold p; lia).
  rewrite (wrap_small (allocated a + (8 + padding) + size)) by lia.
  replace (allocated a + (8 + padding) + size) with (allocated a + 8 + padding + size) by lia.
  reflexivity.
Qed.

(** A new block never touches an earlier one.  When [arena_alloc] returns
    a block (alignment a power of two, nothing wrapping), every block
    handed out before and still below the cursor stays valid, with its
    size header and all its bytes as they were, and ends before the header
    of the new block; the new block is valid, with [size] in its header. *)
Theorem arena_alloc_keeps_blocks (a a' : Arena) (size align k p block : Z) :
  align = 2 ^ k -> 0 <= k < 64 -> pointer_fits a align ->
  0 <= size -> allocated a + sizeof_usize + align + size <= 2 ^ 64 ->
  arena_alloc a size align = (p, a') -> p <> NULL ->
  valid_block a block ->
  valid_block a' block /\
  load_usize (bytes a') (block - sizeof_usize) = load_usize (bytes a) (block - sizeof_usize) /\
  (forall q, block <= q < block + load_usize (bytes a) (block - sizeof_usize) ->
             bytes a' q = bytes a q) /\
  block + load_usize (bytes a) (block - sizeof_usize) <= p - sizeof_usize /\
  valid_block a' p /\
  load_usize (bytes a') (p - sizeof_usize) = size.
Proof.
  intros Hal Hk Hfit Hs Hno Hcall Hp (Hd & Ha & Hlo & Hhi).
  destruct (arena_alloc_exact a size align k Hal Hk Hfit Hs Hno) as (Hpad & _ & Hex).
  cbv zeta in Hex, Hpad. rewrite Hcall in Hex. unfold sizeof_usize in *.
  set (padding := (- (data a + allocated a + 8)) mod align) in *.
  destruct (allocated a + 8 + padding + size <=? capacity a) eqn:E;
    [| injection Hex as -> _; congruence].
  injection Hex as -> ->. cbn [bytes allocated data capacity].
  pose proof (load_usize_range (bytes a) (block - 8)) as Hbs.
  assert (Hframe : forall q, q < data a + allocated a ->
            store_usize (bytes a) (data a + allocated a + 8 + padding - 8) size q = bytes a q).
  { intros q Hq. apply store_usize_other. lia. }
  assert (Hhdr : load_usize (store_usize (bytes a) (data a + allocated a + 8 + padding - 8) size)
                            (block - 8) = load_usize (bytes a) (block - 8)).
  { apply load_usize_ext. intros j Hj. apply Hframe. lia. }
  split; [| split; [| split; [| split; [| split]]]].
  - unfold valid_block, sizeof_usize. cbn [bytes allocated data]. rewrite Hhdr. lia.
  - exact Hhdr.
  - intros q Hq. apply Hframe. lia.
  - lia.
  - unfold valid_block, sizeof_usize. cbn [bytes allocated data].
    rewrite load_store_usize. rewrite wrap_small by lia. lia.
  - rewrite load_store_usize. apply wrap_small. lia.
Qed.

Lemma arena_alloc_cursor (a : Arena) (size align : Z) :
  0 <= allocated a <= capacity a ->
  0 <= allocated (snd (arena_alloc a size align)) <= capacity (snd (arena_alloc a size align)) /\
  capacity (snd (arena_alloc a size align)) = capacity a /\
  data (snd (arena_alloc a size align)) = data a.
Proof.
  intros Hc. unfold arena_alloc.
  destruct (_ <=? capacity a) eqn:E; cbn [snd allocated capacity data]; [| auto].
  apply Z.leb_le in E. split; [| auto]. split; [apply wrap_range | exact E].
Qed.

Lemma arena_step_cursor (a a' : Arena) (op : Arenas.Arena_Op) :
  0 <= allocated a <= capacity a ->
  Arenas.arena_step a op = Ok a' ->
  0 <= allocated a' <= capacity a' /\ capacity a' = capacity a /\ data a' = data a.
Proof.
  intros Hc. pose proof (fun size align => arena_alloc_cursor a size align Hc) as Halloc.
  destruct op as [size align | block size align |]; cbn [Arenas.arena_step].
  - intros [= <-]. apply Halloc.
  - unfold arena_realloc. specialize (Halloc size align).
    destruct (block =? NULL).
    { destruct (arena_alloc a size align) as [p1 a1]. intros [= <-]. exact Halloc. }
    destruct ((align =? 0) || negb (block mod align =? 0)); [discriminate |].
    destruct (_ =? wrap (data a + allocated a)).
    + destruct (_ <=? capacity a) eqn:E; intros [= <-]; cbn [allocated capacity data].
      * apply Z.leb_le in E. split; [| auto]. split; [apply wrap_range | exact E].
      * auto.
    + destruct (arena_alloc a size align) as [p1 a1]. cbn [snd] in Halloc.
      destruct (p1 =? NULL); intros [= <-]; cbn [allocated capacity data]; exact Halloc.
  - intros [= <-]. cbn [arena_reset allocated capacity data]. split; [lia | auto].
Qed.

Lemma arena_run_cursor (ops : list Arenas.Arena_Op) :
  forall a a' : Arena,
  0 <= allocated a <= capacity a ->
  Arenas.arena_run a ops = Ok a' ->
  0 <= allocated a' <= capacity a' /\ capacity a' = capacity a /\ data a' = data a.
Proof.
  induction ops as [| op ops IH]; intros a a' Hc; cbn [Arenas.arena_run].
  - intros [= <-]. auto.
  - destruct (Arenas.arena_step a op) as [a1 | |] eqn:E; try discriminate.
    destruct (arena_step_cursor a a1 op Hc E) as (Hc1 & Hcap & Hdat).
    intros Hrun. destruct (IH a1 a' Hc1 Hrun) as (Hc' & Hcap' & Hdat').
    split; [exact Hc' |]. split; congruence.
Qed.

(** [arena_alloc] on a request within the contract: null and the arena
    as it was, or a block inside the buffer with its header written just
    before it. *)
Lemma arena_alloc_contract (a a' : Arena) (size align p : Z) :
  0 <= data a -> 0 <= allocated a <= capacity a ->
  Arenas.request_fits a size align ->
  arena_alloc a size align = (p, a') ->
  (p = NULL /\ a' = a) \/
  (data a + allocated a + sizeof_usize <= p /\ p mod align = 0 /\
   p + size <= data a + capacity a /\
   a' = mkArena (capacity a) (p - data a + size) (data a)
                (store_usize (bytes a) (p - sizeof_usize) size)).
Proof.
  intros Hd Hc ((k & Hk & Hal) & Hs & Hfit) Hcall. unfold sizeof_usize in *.
  assert (H2k : 0 < 2 ^ k) by (apply Z.pow_pos_nonneg; lia).
  assert (Hpf : pointer_fits a align) by (unfold pointer_fits, sizeof_usize; lia).
  destruct (arena_alloc_exact a size align k Hal Hk Hpf Hs
              ltac:(unfold sizeof_usize; lia)) as (Hpad & Hmod & Hex).
  cbv zeta in Hex, Hpad, Hmod. rewrite Hcall in Hex.
  set (padding := (- (data a + allocated a + 8)) mod align) in *.
  destruct (allocated a + 8 + padding + size <=? capacity a) eqn:El.
  - apply Z.leb_le in El. injection Hex as -> ->. right.
    split; [lia |]. split; [exact Hmod |]. split; [lia |].
    f_equal. lia.
  - injection Hex as -> ->. left. auto.
Qed.



(** Every block lies inside the buffer.  For an arena made over a buffer
    of [size0] bytes that ends inside the address space, after any run of
    requests within the contract, a block returned by [arena_alloc] for a
    request within the contract (a power-of-two alignment, a size that
    fits the address space after the buffer) is aligned, begins after the
    [Arena] header and the size header, and ends at or before the end of
    the buffer. *)
Theorem arena_block_inside_buffer
    (size0 buffer : Z) (m : memory) (ops : list Arenas.Arena_Op) (a0 a a' : Arena)
    (size align p : Z) :
  make_arena_buffer size0 buffer m = Some a0 ->
  0 < buffer -> buffer + size0 < 2 ^ 64 ->
  Arenas.run_in_contract a0 ops ->
  Arenas.arena_run a0 ops = Ok a ->
  Arenas.request_fits a size align ->
  arena_alloc a size align = (p, a') -> p <> NULL ->
  buffer + sizeof_Arena + sizeof_usize <= p /\ p mod align = 0 /\
  p + size <= buffer + size0.
Proof.
  intros Hmake Hbuf Hend Hin Hrun Hfit Hcall Hp.
  unfold make_arena_buffer in Hmake.
  destruct ((buffer =? NULL) || (size0 <? sizeof_Arena)) eqn:E; [discriminate |].
  injection Hmake as <-.
  apply orb_false_iff in E. destruct E as [_ E]. apply Z.ltb_ge in E.
  unfold sizeof_Arena, sizeof_usize in *.
  rewrite (wrap_small (size0 - 16)) in Hrun by lia.
  rewrite (wrap_small (buffer + 16)) in Hrun by lia.
  destruct (arena_run_cursor ops (mkArena (size0 - 16) 0 (buffer + 16) m) a
              ltac:(cbn [allocated capacity]; lia) Hrun)
    as (Hc & Hcap & Hdat).
  cbn [capacity data] in Hcap, Hdat.
  destruct (arena_alloc_contract a a' size align p ltac:(lia) Hc Hfit Hcall)
    as [[-> _] | (Hlo & Hmod & Hhi & _)]; [contradiction |].
  unfold sizeof_usize in *. split; [lia |]. split; [exact Hmod | lia].
Qed.

(** C7, failing input.  [arena_alloc] of [2^64 - 8] bytes at alignment 3
    on the test arena after its first allocation: capacity 512, cursor
    416, the aligned pointer 4536 with no padding.  Header, padding and
    size come to [416 + 8 + 0 + (2^64 - 8)], above the capacity, but the
    sum wraps to 416 in [usize] and passes the test
    [new_size <= capacity]: the call returns 4536 and not null, writes
    [2^64 - 8] over the header bytes before it, and leaves the cursor at
    416, so that the next allocation returns the same address. *)
Theorem arena_alloc_size_wraps :
  capacity Arenas.test_arena_a = 512 /\
  allocated Arenas.test_arena_a = 416 /\
  alignptr (data Arenas.test_arena_a + allocated Arenas.test_arena_a + sizeof_usize) 3
    = data Arenas.test_arena_a + allocated Arenas.test_arena_a + sizeof_usize + 0 /\
  capacity Arenas.test_arena_a
    < allocated Arenas.test_arena_a + sizeof_usize + 0 + (2 ^ 64 - 8) /\
  fst (arena_alloc Arenas.test_arena_a (2 ^ 64 - 8) 3) = 4536 /\
  fst (arena_alloc Arenas.test_arena_a (2 ^ 64 - 8) 3) <> NULL /\
  allocated (snd (arena_alloc Arenas.test_arena_a (2 ^ 64 - 8) 3)) = 416 /\
  load_usize (bytes Arenas.test_arena_a) 4528 = 2 ^ 64 - 1 /\
  load_usize (bytes (snd (arena_alloc Arenas.test_arena_a (2 ^ 64 - 8) 3))) 4528
    = 2 ^ 64 - 8 /\
  fst (arena_alloc (snd (arena_alloc Arenas.test_arena_a (2 ^ 64 - 8) 3)) 4 1) = 4536.
Proof.
  split; [vm_compute; reflexivity |]. split; [vm_compute; reflexivity |].
  split; [vm_compute; reflexivity |]. split; [vm_compute; reflexivity |].
  split; [vm_compute; reflexivity |]. split; [vm_compute; discriminate |].
  split; [vm_compute; reflexivity |]. split; [vm_compute; reflexivity |].
  split; vm_compute; reflexivity.
Qed.

(** C8, failing input.  [arena_realloc] of the block 4128 to [2^64 - 1]
    bytes, on the test arena after its first allocation: the block is
    valid, holds 400 bytes and is at the tail (cursor 416, capacity 512).
    The adjusted cursor [416 + (2^64 - 1 - 400)] is [2^64 + 15], above the
    capacity, but wraps to 15 in [usize] and passes the test
    [new_size <= capacity]: the call returns the block and not null, sets
    the cursor to 15, below the block, and writes [2^64 - 1] into its
    header. *)
Theorem arena_realloc_size_wraps :
  valid_block Arenas.test_arena_a 4128 /\
  load_usize (bytes Arenas.test_arena_a) (4128 - sizeof_usize) = 400 /\
  4128 + 400 = data Arenas.test_arena_a + allocated Arenas.test_arena_a /\
  capacity Arenas.test_arena_a < allocated Arenas.test_arena_a + (2 ^ 64 - 1 - 400) /\
  exists a',
    arena_realloc Arenas.test_arena_a 4128 (2 ^ 64 - 1) 16 = Ok (4128, a') /\
    allocated a' = 15 /\ capacity a' = 512 /\
    load_usize (bytes a') (4128 - sizeof_usize) = 2 ^ 64 - 1.
Proof.
  split; [unfold valid_block; vm_compute; repeat split; discriminate |].
  split; [vm_compute; reflexivity |]. split; [vm_compute; reflexivity |].
  split; [vm_compute; reflexivity |].
  assert (Hok : match arena_realloc Arenas.test_arena_a 4128 (2 ^ 64 - 1) 16 with
                | Ok (p, a') =>
                    (p =? 4128) && (allocated a' =? 15) && (capacity a' =? 512)
                    && (load_usize (bytes a') (4128 - sizeof_usize) =? 2 ^ 64 - 1)
                | _ => false
                end = true) by (vm_compute; reflexivity).
  destruct (arena_realloc Arenas.test_arena_a 4128 (2 ^ 64 - 1) 16) as [[p a'] | |];
    try discriminate Hok.
  repeat (apply andb_prop in Hok; destruct Hok as [Hok ?]).
  apply Z.eqb_eq in Hok. subst p.
  exists a'. split; [reflexivity |]. repeat split; apply Z.eqb_eq; assumption.
Qed.

Lemma wrap_add_l (x y : Z) : wrap (wrap x + y) = wrap (x + y).
Proof. unfold wrap. apply Z.add_mod_idemp_l. lia. Qed.

Lemma wrap_add_r (x y : Z) : wrap (x + wrap y) = wrap (x + y).
Proof. unfold wrap. apply Z.add_mod_idemp_r. lia. Qed.

(** Resizing the last block in place and back.  After [arena_realloc] has
    resized the block at the tail of the arena, the block is still at the
    tail, and a second [arena_realloc] back to the old size returns the
    same pointer and restores the cursor and the size header, every byte
    outside the header being as it was before the first call. *)
Theorem arena_realloc_tail_round_trip (a a1 : Arena) (block s1 align : Z) :
  block <> NULL -> 0 < align -> block mod align = 0 ->
  0 <= s1 < 2 ^ 64 -> 0 <= allocated a <= capacity a -> capacity a < 2 ^ 64 ->
  wrap (block + load_usize (bytes a) (wrap (block - sizeof_usize)))
    = wrap (data a + allocated a) ->
  arena_realloc a block s1 align = Ok (block, a1) ->
  wrap (block + s1) = wrap (data a1 + allocated a1) /\
  load_usize (bytes a1) (wrap (block - sizeof_usize)) = s1 /\
  exists a2,
    arena_realloc a1 block (load_usize (bytes a) (wrap (block - sizeof_usize))) align
      = Ok (block, a2) /\
    allocated a2 = allocated a /\ capacity a2 = capacity a /\ data a2 = data a /\
    load_usize (bytes a2) (wrap (block - sizeof_usize))
      = load_usize (bytes a) (wrap (block - sizeof_usize)) /\
    (forall q, ~ (wrap (block - sizeof_usize) <= q < wrap (block - sizeof_usize) + 8) ->
               bytes a2 q = bytes a q).
Proof.
  intros Hnn Hal Hmod Hs1 Hc Hcap Htail Hcall.
  set (hdr := wrap (block - sizeof_usize)) in *.
  set (s0 := load_usize (bytes a) hdr) in *.
  assert (Hs0 : 0 <= s0 < 2 ^ 64) by apply load_usize_range.
  assert (Hguard : (align =? 0) || negb (block mod align =? 0) = false).
  { rewrite Hmod. simpl. replace (align =? 0) with false by lia. reflexivity. }
  assert (Hnull : (block =? NULL) = false) by (apply Z.eqb_neq; exact Hnn).
  unfold arena_realloc in Hcall. rewrite Hnull, Hguard in Hcall.
  fold hdr in Hcall. fold s0 in Hcall. rewrite Htail, Z.eqb_refl in Hcall.
  destruct (wrap (allocated a + (s1 - s0)) <=? capacity a) eqn:E;
    [| injection Hcall as Hb _; congruence].
  injection Hcall as <-. cbn [bytes allocated capacity data].
  assert (Htail1 : wrap (block + s1) = wrap (data a + wrap (allocated a + (s1 - s0)))).
  { rewrite wrap_add_r.
    replace (data a + (allocated a + (s1 - s0))) with (data a + allocated a + (s1 - s0)) by lia.
    rewrite <- (wrap_add_l (data a + allocated a) (s1 - s0)), <- Htail, wrap_add_l.
    f_equal. lia. }
  assert (Hload1 : load_usize (store_usize (bytes a) hdr s1) hdr = s1)
    by (rewrite load_store_usize; apply wrap_small; exact Hs1).
  split; [exact Htail1 |]. split; [exact Hload1 |].
  unfold arena_realloc. rewrite Hnull, Hguard. cbn [bytes allocated capacity data].
  fold hdr. rewrite Hload1, Htail1, Z.eqb_refl.
  assert (Hback : wrap (wrap (allocated a + (s1 - s0)) + (s0 - s1)) = allocated a).
  { rewrite wrap_add_l. replace (allocated a + (s1 - s0) + (s0 - s1)) with (allocated a) by lia.
    apply wrap_small. lia. }
  rewrite Hback.
  replace (allocated a <=? capacity a) with true by (symmetry; apply Z.leb_le; lia).
  eexists. split; [reflexivity |]. cbn [bytes allocated capacity data].
  split; [reflexivity |]. split; [reflexivity |]. split; [reflexivity |]. split.
  - rewrite load_store_usize. apply wrap_small. exact Hs0.
  - intros q Hq. rewrite store_usize_other by exact Hq. apply store_usize_other. exact Hq.
Qed.

Lemma alignptr_least_multiple_witness :
  alignptr 0x7ffff2 (2 ^ 4) = 0x800000 /\
  alignptr 0x7ffff2 (2 ^ 4) mod 2 ^ 4 = 0 /\
  0x7ffff2 <= alignptr 0x7ffff2 (2 ^ 4) < 0x7ffff2 + 2 ^ 4.
Proof.
  destruct (alignptr_least_multiple 0x7ffff2 4 ltac:(lia) ltac:(lia) ltac:(lia))
    as (Hal & Hb & _).
  split; [reflexivity |]. split; [exact Hal | exact Hb].
Defined.

Lemma nextpow2_least_witness :
  nextpow2 2000 = 2048 /\
  exists k, 0 <= k <= 63 /\ nextpow2 2000 = 2 ^ k /\ 2000 <= 2 ^ k /\
            (0 < k -> 2 ^ (k - 1) < 2000).
Proof.
  split; [reflexivity |]. apply (nextpow2_least 2000). lia.
Defined.

Lemma arena_alloc_keeps_blocks_witness :
  exists a',
    arena_alloc (snd (arena_alloc test_arena 400 16)) 4 16 = (4544, a') /\
    valid_block a' 4128 /\
    load_usize (bytes a') (4128 - sizeof_usize) = 400 /\
    4128 + 400 <= 4544 - sizeof_usize /\
    valid_block a' 4544.
Proof.
  destruct (arena_alloc (snd (arena_alloc test_arena 400 16)) 4 16) as [p a'] eqn:Hcall.
  assert (Hp : fst (arena_alloc (snd (arena_alloc test_arena 400 16)) 4 16) = 4544)
    by (vm_compute; reflexivity).
  rewrite Hcall in Hp. cbn [fst] in Hp. subst p.
  assert (Hsize : load_usize (bytes (snd (arena_alloc test_arena 400 16))) (4128 - sizeof_usize)
                  = 400) by (vm_compute; reflexivity).
  exists a'. split; [reflexivity |].
  destruct (arena_alloc_keeps_blocks (snd (arena_alloc test_arena 400 16)) a' 4 16 4 4544 4128)
    as (Hv & Hh & _ & Hd & Hvp & _).
  - reflexivity.
  - lia.
  - unfold pointer_fits. vm_compute. repeat split; discriminate.
  - lia.
  - vm_compute. discriminate.
  - exact Hcall.
  - unfold NULL. lia.
  - unfold valid_block. vm_compute. repeat split; discriminate.
  - split; [exact Hv |]. split; [rewrite Hh; exact Hsize |].
    split; [| exact Hvp]. rewrite <- Hsize at 1. exact Hd.
Defined.

Lemma test_arena_a_fields :
  data Arenas.test_arena_a = 4112 /\ capacity Arenas.test_arena_a = 512 /\
  allocated Arenas.test_arena_a = 416 /\
  load_usize (bytes Arenas.test_arena_a) (4128 - sizeof_usize) = 400.
Proof. repeat split; vm_compute; reflexivity. Qed.

Lemma test_arena_request_fits (a : Arena) (size align k : Z) :
  data a = 4112 -> capacity a = 512 -> 0 <= k < 8 -> align = 2 ^ k -> 0 <= size <= 4096 ->
  Arenas.request_fits a size align.
Proof.
  intros Hd Hc Hk -> Hs. unfold Arenas.request_fits, sizeof_usize. rewrite Hd, Hc.
  split; [exists k; split; [lia | reflexivity] |]. split; [lia |].
  assert (2 ^ k <= 2 ^ 8) by (apply Z.pow_le_mono_r; lia).
  change (2 ^ 8) with 256 in *. change (2 ^ 64) with 18446744073709551616. lia.
Qed.

Lemma test_run_in_contract :
  Arenas.run_in_contract test_arena
    [Arenas.Op_alloc 400 16; Arenas.Op_realloc 4128 8 16; Arenas.Op_reset;
     Arenas.Op_alloc 7 1].
Proof.
  destruct test_arena_a_fields as (Hd & Hc & Ha & Hh).
  cbn [Arenas.run_in_contract Arenas.arena_step Arenas.op_in_contract].
  fold Arenas.test_arena_a.
  split; [apply (test_arena_request_fits _ _ _ 4); try reflexivity; lia |].
  split.
  { split; [| apply (test_arena_request_fits _ _ _ 4); try assumption; try reflexivity; lia].
    right. unfold valid_block. rewrite Hd, Ha, Hh. unfold sizeof_usize. lia. }
  destruct (arena_realloc Arenas.test_arena_a 4128 8 16) as [[p a2] | |] eqn:Hre;
    [| exact I | exact I].
  split; [exact I |].
  assert (Hfields : capacity a2 = 512 /\ data a2 = 4112).
  { assert (Hok : match arena_realloc Arenas.test_arena_a 4128 8 16 with
                  | Ok (_, a') => (capacity a' =? 512) && (data a' =? 4112)
                  | _ => false
                  end = true) by (vm_compute; reflexivity).
    rewrite Hre in Hok. apply andb_prop in Hok. destruct Hok as [H1 H2].
    split; apply Z.eqb_eq; assumption. }
  destruct Hfields as [Hc2 Hd2].
  split; [| exact I].
  apply (test_arena_request_fits _ _ _ 0); cbn [arena_reset data capacity];
    try assumption; try reflexivity; lia.
Qed.


Lemma arena_block_inside_buffer_witness :
  exists a a',
    make_arena_buffer 528 4096 (fun _ => 255) = Some test_arena /\
    Arenas.arena_run test_arena
      [Arenas.Op_alloc 400 16; Arenas.Op_realloc 4128 8 16; Arenas.Op_reset;
       Arenas.Op_alloc 7 1] = Ok a /\
    arena_alloc a 4 16 = (4144, a') /\
    4096 + sizeof_Arena + sizeof_usize <= 4144 /\ 4144 mod 16 = 0 /\ 4144 + 4 <= 4096 + 528.
Proof.
  assert (Hok : match Arenas.arena_run test_arena
                  [Arenas.Op_alloc 400 16; Arenas.Op_realloc 4128 8 16; Arenas.Op_reset;
                   Arenas.Op_alloc 7 1]
                with
                | Ok a => (data a =? 4112) && (capacity a =? 512)
                          && (fst (arena_alloc a 4 16) =? 4144)
                | _ => false
                end = true) by (vm_compute; reflexivity).
  destruct (Arenas.arena_run test_arena
              [Arenas.Op_alloc 400 16; Arenas.Op_realloc 4128 8 16; Arenas.Op_reset;
               Arenas.Op_alloc 7 1])
    as [a | |] eqn:Hrun; [| discriminate Hok | discriminate Hok].
  apply andb_prop in Hok. destruct Hok as [Hok Hp].
  apply andb_prop in Hok. destruct Hok as [Hd Hc].
  apply Z.eqb_eq in Hd, Hc, Hp.
  destruct (arena_alloc a 4 16) as [p a'] eqn:Hcall. cbn [fst] in Hp. subst p.
  exists a, a'. split; [reflexivity |]. split; [reflexivity |]. split; [exact Hcall |].
  assert (Hbuf : 0 < 4096) by lia.
  assert (Hend : 4096 + 528 < 2 ^ 64) by reflexivity.
  assert (Hfit : Arenas.request_fits a 4 16)
    by (apply (test_arena_request_fits _ _ _ 4); try assumption; try reflexivity; lia).
  assert (Hnn : 4144 <> NULL) by discriminate.
  exact (arena_block_inside_buffer 528 4096 (fun _ => 255) _ test_arena a a' 4 16 4144
           eq_refl Hbuf Hend test_run_in_contract Hrun Hfit Hcall Hnn).
Defined.

Lemma arena_realloc_tail_round_trip_witness :
  exists a1 a2,
    arena_realloc test_arena_abcd 4576 12 16 = Ok (4576, a1) /\
    allocated a1 = 476 /\
    arena_realloc a1 4576 4 16 = Ok (4576, a2) /\
    allocated a2 = 468.
Proof.
  assert (Hres : match arena_realloc test_arena_abcd 4576 12 16 with
                 | Ok (p, a1) => (p =? 4576) && (allocated a1 =? 476)
                 | _ => false
                 end = true) by (vm_compute; reflexivity).
  assert (Hsize : load_usize (bytes test_arena_abcd) (wrap (4576 - sizeof_usize)) = 4)
    by (vm_compute; reflexivity).
  assert (Hcur : allocated test_arena_abcd = 468) by (vm_compute; reflexivity).
  destruct (arena_realloc test_arena_abcd 4576 12 16) as [[p a1] | |] eqn:Hcall;
    [| discriminate Hres | discriminate Hres].
  apply andb_true_iff in Hres. destruct Hres as [Hp Ha1].
  apply Z.eqb_eq in Hp. apply Z.eqb_eq in Ha1. subst p.
  destruct (arena_realloc_tail_round_trip test_arena_abcd a1 4576 12 16)
    as (_ & _ & a2 & Hback & Halloc & _).
  - unfold NULL. lia.
  - lia.
  - reflexivity.
  - lia.
  - vm_compute. split; discriminate.
  - reflexivity.
  - vm_compute. reflexivity.
  - exact Hcall.
  - exists a1, a2. split; [reflexivity |]. split; [exact Ha1 |].
    rewrite Hsize in Hback. split; [exact Hback |]. rewrite Halloc. exact Hcur.
Defined.

End MemoryFacts.

(** ** The hash table *)

Module TableFacts.
Import Machine MachineFacts Table.

(** *** The probe sequence *)

Lemma subtract_loop_mod (n : nat) :
  forall i capacity,
    0 < capacity -> 0 <= i -> i / capacity <= Z.of_nat n ->
    subtract_loop n i capacity = i mod capacity.
Proof.
  induction n as [| n IH]; intros i capacity Hc Hi Hq; cbn [subtract_loop].
  - assert (i / capacity = 0) by (pose proof (Z.div_pos i capacity Hi Hc); lia).
    symmetry. apply Z.mod_small. apply Z.div_small_iff in H; lia.
  - destruct (i >=? capacity) eqn:E.
    + assert (Hge : capacity <= i) by lia.
      rewrite IH; try lia.
      * replace i with (i - capacity + 1 * capacity) at 2 by lia.
        rewrite Z.mod_add by lia. reflexivity.
      * replace i with (i - capacity + 1 * capacity) in Hq by lia.
        rewrite Z.div_add in Hq by lia. lia.
    + symmetry. apply Z.mod_small. lia.
Qed.

Lemma reduce_index_mod i capacity :
  0 < capacity -> 0 <= i -> reduce_index i capacity = i mod capacity.
Proof.
  intros Hc Hi. unfold reduce_index. apply subtract_loop_mod; try assumption.
  rewrite Z2Nat.id; [lia | apply Z.div_pos; lia].
Qed.

Lemma probe_next_range capacity i probe :
  0 < capacity ->
  0 <= fst (probe_next capacity (i, probe)) < capacity.
Proof.
  intros Hc. cbn [probe_next fst].
  rewrite reduce_index_mod by (try exact Hc; apply wrap_range).
  apply Z.mod_pos_bound. exact Hc.
Qed.

(** Triangular numbers. *)


Lemma triangular_double n : 2 * triangular n = n * (n + 1).
Proof.
  unfold triangular.
  assert (H : (n * (n + 1)) mod 2 = 0).
  { rewrite Z.mul_mod by lia.
    rewrite (Z.add_mod n 1) by lia.
    pose proof (Z.mod_pos_bound n 2 ltac:(lia)) as Hb.
    assert (Hc : n mod 2 = 0 \/ n mod 2 = 1) by lia.
    destruct Hc as [-> | ->]; reflexivity. }
  pose proof (Z.div_mod (n * (n + 1)) 2 ltac:(lia)). lia.
Qed.

Lemma triangular_succ n : triangular (n + 1) = triangular n + (n + 1).
Proof.
  pose proof (triangular_double n). pose proof (triangular_double (n + 1)). nia.
Qed.

Lemma triangular_nonneg n : 0 <= n -> 0 <= triangular n.
Proof. intros H. pose proof (triangular_double n). nia. Qed.

(** An odd factor can be dropped from a multiple of a power of two. *)
Lemma pow2_divide_odd_mul (n : Z) :
  0 <= n -> forall d s, Z.odd d = true -> (2 ^ n | d * s) -> (2 ^ n | s).
Proof.
  intros Hn. pattern n. apply natlike_ind; [| | exact Hn]; clear n Hn.
  - intros d s _ _. exists s. lia.
  - intros n Hn IH d s Hd [q Hq].
    rewrite Z.pow_succ_r in * by exact Hn.
    assert (Hs : Z.even s = true).
    { destruct (Z.even s) eqn:Es; [reflexivity |].
      assert (Ho : Z.odd (d * s) = true).
      { rewrite Z.odd_mul, Hd. rewrite <- Z.negb_even, Es. reflexivity. }
      rewrite Hq in Ho. rewrite Z.odd_mul in Ho.
      replace (Z.odd (2 * 2 ^ n)) with false in Ho
        by (symmetry; rewrite Z.odd_mul; reflexivity).
      rewrite andb_false_r in Ho. discriminate. }
    apply Z.even_spec in Hs. destruct Hs as [s' ->].
    destruct (IH d s' Hd) as [r Hr].
    + exists q. nia.
    + exists r. nia.
Qed.

Lemma triangular_lt_distinct (k i j : Z) :
  0 <= k -> 0 <= i -> i < j -> j < 2 ^ k ->
  triangular i mod 2 ^ k <> triangular j mod 2 ^ k.
Proof.
  intros Hk Hi Hij Hj Heq.
  assert (H2k : 0 < 2 ^ k) by (apply Z.pow_pos_nonneg; lia).
  assert (Hd : (2 ^ k | triangular j - triangular i)).
  { apply Z.mod_divide; [lia |].
    rewrite Zminus_mod, Heq, Z.sub_diag. reflexivity. }
  assert (Hd2 : (2 ^ (k + 1) | (j - i) * (i + j + 1))).
  { destruct Hd as [q Hq]. exists q.
    rewrite Z.pow_add_r by lia.
    pose proof (triangular_double i). pose proof (triangular_double j). nia. }
  destruct (Z.odd (j - i)) eqn:Eo.
  - apply pow2_divide_odd_mul in Hd2; [| lia | exact Eo].
    apply Z.divide_pos_le in Hd2; [| lia].
    rewrite Z.pow_add_r in Hd2 by lia. lia.
  - assert (Eo' : Z.odd (i + j + 1) = true).
    { replace (i + j + 1) with ((j - i) + (2 * i + 1)) by lia.
      rewrite Z.odd_add, Eo.
      replace (2 * i + 1) with (1 + 2 * i) by lia.
      rewrite Z.odd_add_mul_2. reflexivity. }
    rewrite Z.mul_comm in Hd2.
    apply pow2_divide_odd_mul in Hd2; [| lia | exact Eo'].
    apply Z.divide_pos_le in Hd2; [| lia].
    rewrite Z.pow_add_r in Hd2 by lia. lia.
Qed.

(** The map from probe number to slot is injective on one round. *)
Lemma probe_slot_injective (k start i j : Z) :
  0 <= k -> 0 <= i < 2 ^ k -> 0 <= j < 2 ^ k ->
  (start + triangular i) mod 2 ^ k = (start + triangular j) mod 2 ^ k ->
  i = j.
Proof.
  intros Hk Hi Hj Heq.
  assert (H2k : 0 < 2 ^ k) by (apply Z.pow_pos_nonneg; lia).
  assert (Ht : triangular i mod 2 ^ k = triangular j mod 2 ^ k).
  { replace (triangular i) with ((start + triangular i) - start) by lia.
    replace (triangular j) with ((start + triangular j) - start) by lia.
    rewrite (Zminus_mod (start + triangular i)), (Zminus_mod (start + triangular j)).
    rewrite Heq. reflexivity. }
  destruct (Z.lt_trichotomy i j) as [Hlt | [He | Hgt]]; [| exact He |].
  - exfalso. exact (triangular_lt_distinct k i j Hk ltac:(lia) Hlt ltac:(lia) Ht).
  - exfalso. exact (triangular_lt_distinct k j i Hk ltac:(lia) Hgt ltac:(lia) (eq_sym Ht)).
Qed.

(** Closed form of the incremental probe: after [m] advances from
    [(start, 1)] the loop is at slot [(start + triangular m) mod capacity]
    with offset [m + 1]. *)
Lemma probe_indices_closed (k start : Z) (n : nat) :
  0 <= k <= 63 -> 0 <= start ->
  forall m : nat,
    Z.of_nat m + Z.of_nat n <= 2 ^ k ->
    probe_indices (2 ^ k) n ((start + triangular (Z.of_nat m)) mod 2 ^ k, Z.of_nat m + 1)
    = map (fun j => (start + triangular (Z.of_nat j)) mod 2 ^ k) (seq m n).
Proof.
  intros Hk Hs.
  assert (H2k : 0 < 2 ^ k) by (apply Z.pow_pos_nonneg; lia).
  assert (H63 : 2 ^ k <= 2 ^ 63) by (apply Z.pow_le_mono_r; lia).
  induction n as [| n IH]; intros m Hm; [reflexivity |].
  cbn [probe_indices seq map fst]. f_equal.
  replace (probe_next (2 ^ k) ((start + triangular (Z.of_nat m)) mod 2 ^ k, Z.of_nat m + 1))
    with ((start + triangular (Z.of_nat (S m))) mod 2 ^ k, Z.of_nat (S m) + 1).
  { apply IH. lia. }
  cbn [probe_next].
  pose proof (Z.mod_pos_bound (start + triangular (Z.of_nat m)) (2 ^ k) H2k) as Hb.
  rewrite (wrap_small (_ mod 2 ^ k + (Z.of_nat m + 1))) by lia.
  rewrite (wrap_small (Z.of_nat m + 1 + 1)) by lia.
  rewrite reduce_index_mod by lia.
  rewrite Z.add_mod_idemp_l by lia.
  replace (Z.of_nat (S m)) with (Z.of_nat m + 1) by lia.
  rewrite triangular_succ.
  f_equal. f_equal. lia.
Qed.

(** The probe of a power-of-two table: closed form and coverage. *)
Lemma probe_indices_permutation (k start : Z) :
  0 <= k <= 63 -> 0 <= start < 2 ^ k ->
  let capacity := 2 ^ k in
  let probed := probe_indices capacity (Z.to_nat capacity) (start, 1) in
  probed = map (fun j => (start + triangular (Z.of_nat j)) mod capacity)
               (seq 0 (Z.to_nat capacity)) /\
  NoDup probed /\
  Permutation probed (seqZ 0 capacity).
Proof.
  intros Hk Hs capacity probed.
  assert (H2k : 0 < capacity) by (apply Z.pow_pos_nonneg; lia).
  assert (Hclosed : probed =
            map (fun j => (start + triangular (Z.of_nat j)) mod capacity)
                (seq 0 (Z.to_nat capacity))).
  { unfold probed, capacity.
    rewrite <- (probe_indices_closed k start (Z.to_nat (2 ^ k)) Hk ltac:(lia) 0%nat)
      by (fold capacity; lia).
    change (Z.of_nat 0) with 0. unfold triangular at 1. cbn [Z.mul Z.div].
    rewrite Z.add_0_r. rewrite Z.mod_small by lia. reflexivity. }
  assert (Hnodup : NoDup probed).
  { rewrite Hclosed. apply NoDup_fmap_2_strong; [| apply NoDup_seq].
    intros i j Hi Hj Heq.
    apply elem_of_seq in Hi. apply elem_of_seq in Hj.
    apply Nat2Z.inj.
    apply (probe_slot_injective k start); try assumption; fold capacity; lia. }
  split; [exact Hclosed |]. split; [exact Hnodup |].
  apply NoDup_Permutation_bis.
  - apply NoDup_ListNoDup. exact Hnodup.
  - rewrite Hclosed, length_map, length_seq, length_seqZ. lia.
  - intros x Hx. rewrite Hclosed in Hx.
    apply in_map_iff in Hx. destruct Hx as (j & <- & _).
    apply list_elem_of_In, elem_of_seqZ.
    pose proof (Z.mod_pos_bound (start + triangular (Z.of_nat j)) capacity H2k). lia.
Qed.


Lemma probe_indices_lookup_prefix (capacity : Z) (m : nat) :
  forall (n : nat) (st : Z * Z),
    (n < m)%nat ->
    probe_indices capacity m st !! n = probe_indices capacity (S n) st !! n.
Proof.
  induction m as [| m IH]; intros n st Hn; [lia |].
  destruct n as [| n]; [reflexivity |].
  cbn [probe_indices]. rewrite !lookup_cons. cbn.
  apply IH. lia.
Qed.

(** Every slot of a power-of-two table is among the first [capacity]
    probes from any start. *)
Lemma probe_reaches_slot (k start j : Z) :
  0 <= k <= 63 -> 0 <= start < 2 ^ k -> 0 <= j < 2 ^ k ->
  exists n : nat, probe_indices (2 ^ k) (S n) (start, 1) !! n = Some j.
Proof.
  intros Hk Hs Hj.
  destruct (probe_indices_permutation k start Hk Hs) as (_ & _ & Hperm).
  assert (Hin : j ∈ probe_indices (2 ^ k) (Z.to_nat (2 ^ k)) (start, 1)).
  { rewrite Hperm. apply elem_of_seqZ. lia. }
  apply list_elem_of_lookup in Hin. destruct Hin as [n Hn].
  exists n. rewrite <- (probe_indices_lookup_prefix (2 ^ k) (Z.to_nat (2 ^ k))); [exact Hn |].
  apply lookup_lt_Some in Hn.
  assert (Hlen : forall m st, length (probe_indices (2 ^ k) m st) = m).
  { clear. induction m as [| m IH]; intros st; cbn [probe_indices length]; [reflexivity |].
    rewrite IH. reflexivity. }
  rewrite Hlen in Hn. exact Hn.
Qed.

(** *** Signatures *)

Lemma create_signature_range (hash : Z) :
  0 <= hash < 2 ^ 64 ->
  2 ^ 63 <= table_create_signature hash < 2 ^ 63 + 2 ^ 62.
Proof.
  intros Hh. unfold table_create_signature.
  assert (Hs : 0 <= Z.shiftr hash 2 < 2 ^ 62).
  { rewrite Z.shiftr_div_pow2 by lia. change (2 ^ 2) with 4.
    Z.div_mod_to_equations. lia. }
  assert (Hland : Z.land (Z.shiftr hash 2) 9223372036854775808 = 0).
  { change 9223372036854775808 with (2 ^ 63).
    apply Z.bits_inj'. intros n Hn. rewrite Z.land_spec, Z.bits_0.
    destruct (Z.eq_dec n 63) as [-> | Hne].
    - rewrite (Z.bits_above_log2 (Z.shiftr hash 2) 63); [reflexivity | lia |].
      destruct (Z.eq_dec (Z.shiftr hash 2) 0) as [-> | Hnz]; [cbn; lia |].
      apply Z.log2_lt_pow2; lia.
    - rewrite Z.pow2_bits_false by lia. apply andb_false_r. }
  pose proof (Z.add_lor_land (Z.shiftr hash 2) 9223372036854775808) as Hadd.
  rewrite Hland in Hadd. lia.
Qed.

Lemma create_signature_not_sentinel (hash : Z) :
  0 <= hash < 2 ^ 64 ->
  table_create_signature hash <> EMPTY /\ table_create_signature hash <> TOMBSTONE.
Proof.
  intros Hh. pose proof (create_signature_range hash Hh).
  unfold EMPTY, TOMBSTONE. lia.
Qed.

Section TableFacts.
Context {K V : Type} {repr_K : Repr K} {repr_V : Repr V} {layout : Entry_Layout K V}.
Variable key_eqb : K -> K -> bool.
Variable allocator_alloc : World -> Z -> Z -> Z -> Z.
Variable DEFAULT_ALLOCATOR : Z.

(** C10.  On the table [make_table] returns (no entries, capacity and count
    zero), whatever the hash function, allocator, key and fuel:
    [table_find] returns null and [table_remove] returns false with the
    table as it was.  Neither faults, so the null entry array is not
    read, and neither takes or returns a world, so no allocator is
    called. *)
Theorem fresh_table_find_remove
    (hash_func : K -> Z) (allocator : Z) (fuel : nat) (key0 : K) :
  let table : Table K V := make_table hash_func allocator in
  count table = 0 /\ capacity table = 0 /\ entries table = NULL /\
  table_find key_eqb fuel table key0 = Ok None /\
  table_remove key_eqb fuel table key0 = Ok (false, table).
Proof. repeat split. Qed.

(** *** The slot search on a table without an empty slot *)

Lemma find_entry_loop_saturated (table : Table K V) (key0 : K) (sign0 : Z) :
  0 < capacity table ->
  length (slots table) = Z.to_nat (capacity table) ->
  (forall j e, slots table !! j = Some e -> sign e <> EMPTY) ->
  (forall j e, slots table !! j = Some e ->
               (sign e =? sign0) && key_eqb key0 (key e) = false) ->
  forall fuel i probe first_removed_slot,
    0 <= i < capacity table ->
    find_entry_loop key_eqb fuel table key0 sign0 i probe first_removed_slot = OutOfFuel.
Proof.
  intros Hcap Hlen Hfull Habsent.
  induction fuel as [| fuel IH]; intros i probe fr Hi; [reflexivity |].
  cbn [find_entry_loop].
  destruct (slots table !! Z.to_nat i) as [e |] eqn:He.
  - pose proof (Hfull _ _ He) as Hne. pose proof (Habsent _ _ He) as Hnm.
    unfold EMPTY in Hne.
    destruct (sign e =? 0) eqn:E0; [lia |].
    rewrite Hnm.
    destruct (capacity table =? 0) eqn:Ec; [reflexivity |].
    pose proof (probe_next_range (capacity table) i probe Hcap) as Hr.
    destruct (probe_next (capacity table) (i, probe)) as [i' probe'].
    cbn [fst] in Hr. apply IH. exact Hr.
  - apply lookup_ge_None in He. lia.
Qed.

(** On a table whose slots are all live or tombstones, with [count]
    different from [capacity] (at least one tombstone) and no live entry
    holding the key, [table_find_entry] has not returned after any number
    of loop rounds: it neither returns null nor any slot. *)
Lemma find_entry_no_empty_slot (table : Table K V) (key0 : K) :
  0 < capacity table < 2 ^ 64 ->
  length (slots table) = Z.to_nat (capacity table) ->
  entries table <> NULL ->
  count table <> capacity table ->
  (forall j e, slots table !! j = Some e -> sign e <> EMPTY) ->
  (forall j e, slots table !! j = Some e ->
               table_is_sentinel_entry e = false -> key_eqb key0 (key e) = false) ->
  forall fuel, table_find_entry key_eqb fuel table key0 = OutOfFuel.
Proof.
  intros Hcap Hlen Hnn Hcount Hfull Habsent fuel.
  unfold table_find_entry, table_find_entry_sign.
  destruct (capacity table =? count table) eqn:E1; [lia |].
  destruct (entries table =? NULL) eqn:E2; [lia |].
  pose proof (create_signature_not_sentinel (wrap (hash_func table key0)) (wrap_range _))
    as [Hs0 Hs1].
  apply find_entry_loop_saturated; try assumption; try lia.
  - intros j e He.
    destruct (sign e =? table_create_signature (wrap (hash_func table key0))) eqn:Es;
      [| reflexivity].
    cbn [andb]. apply (Habsent j e He).
    unfold table_is_sentinel_entry.
    apply Z.eqb_eq in Es. rewrite Es.
    unfold EMPTY in Hs0.
    destruct (_ =? 0) eqn:Ea; [lia |]. destruct (_ =? TOMBSTONE) eqn:Eb; [lia | reflexivity].
  - pose proof (land_bounds
                  (Z.land (table_create_signature (wrap (hash_func table key0)))
                          0x3FFFFFFFFFFFFFFF)
                  (wrap (capacity table - 1))) as Hb.
    rewrite (wrap_small (capacity table - 1)) in * by lia.
    assert (0 <= Z.land (table_create_signature (wrap (hash_func table key0)))
                        0x3FFFFFFFFFFFFFFF) by (apply Z.land_nonneg; right; lia).
    lia.
Qed.

(** *** Growth and the load invariant *)

Lemma expand_step_fields (fuel : nat) (ptr : Table_Entry K V) (copy copy' : Table K V) :
  expand_step key_eqb fuel ptr copy = Ok copy' ->
  count copy' = count copy /\ capacity copy' = capacity copy /\
  entries copy' = entries copy /\ allocator copy' = allocator copy /\
  length (slots copy') = length (slots copy).
Proof.
  unfold expand_step.
  destruct (negb (table_is_sentinel_entry ptr)); [| intros [= <-]; auto].
  destruct (table_find_entry_sign key_eqb fuel copy (key ptr) (sign ptr))
    as [[i |] | |]; try discriminate.
  destruct (slots copy !! Z.to_nat i); [| discriminate].
  intros [= <-]. cbn. rewrite length_insert. auto.
Qed.

Lemma expand_loop_fields (fuel : nat) (old : list (Table_Entry K V)) (n : nat) :
  forall (i : nat) (copy copy' : Table K V),
    expand_loop key_eqb fuel old i n copy = Ok copy' ->
    count copy' = count copy /\ capacity copy' = capacity copy /\
    entries copy' = entries copy /\ allocator copy' = allocator copy /\
    length (slots copy') = length (slots copy).
Proof.
  induction n as [| n IH]; intros i copy copy'; cbn [expand_loop].
  - intros [= <-]. auto.
  - destruct (old !! i) as [ptr |]; [| discriminate].
    destruct (expand_step key_eqb fuel ptr copy) as [copy1 | |] eqn:E; try discriminate.
    intros Hrest. apply expand_step_fields in E. apply IH in Hrest.
    destruct E as (? & ? & ? & ? & ?). destruct Hrest as (? & ? & ? & ? & ?).
    repeat split; congruence.
Qed.

Lemma table_expand_fields (fuel : nat) (table table' : Table K V) (capacity0 : Z)
    (w w' : World) :
  table_expand key_eqb allocator_alloc fuel table capacity0 w = Ok (table', w') ->
  count table' = count table /\
  capacity table' = Memory.nextpow2 capacity0 /\
  allocator table' = allocator table /\
  entries table' <> NULL /\
  length (slots table') = Z.to_nat (capacity table') /\
  capacity0 <> 0.
Proof.
  unfold table_expand.
  destruct (capacity0 =? 0) eqn:E0; [discriminate |].
  destruct (capacity0 <? capacity table); [discriminate |].
  unfold mem_alloc.
  destruct (_ =? NULL) eqn:Ep; [discriminate |].
  destruct (2 ^ 64 <=? _); [discriminate |].
  destruct (expand_loop _ _ _ _ _ _) as [copy' | |] eqn:E; try discriminate.
  intros [= <- <-]. apply expand_loop_fields in E. cbn in E.
  destruct E as (? & ? & ? & ? & Hl).
  rewrite length_replicate in Hl.
  repeat split; try congruence; lia.
Qed.

Lemma nextpow2_pow2 (j : Z) : 1 <= j <= 63 -> Memory.nextpow2 (2 ^ j) = 2 ^ j.
Proof.
  intros Hj. unfold Memory.nextpow2.
  assert (H2j : 2 <= 2 ^ j).
  { change 2 with (2 ^ 1) at 1. apply Z.pow_le_mono_r; lia. }
  assert (Hjb : 2 ^ j < 2 ^ 64) by (apply Z.pow_lt_mono_r; lia).
  destruct (2 ^ j =? 1) eqn:E; [lia |].
  rewrite (wrap_small (2 ^ j - 1)) by lia.
  replace (2 ^ j - 1) with (Z.pred (2 ^ j)) by lia.
  rewrite Z.log2_pred_pow2 by lia.
  rewrite Z.shiftl_1_l. replace (Z.pred j + 1) with j by lia.
  apply wrap_small. lia.
Qed.

(** The growth test compares wrapped products; whenever it lets the
    insertion proceed, the exact inequality holds as well. *)
Lemma load_check_exact (k c : Z) :
  3 <= k <= 63 -> 0 <= c -> c * 100 < 2 ^ k * 70 ->
  wrap ((c + 1) * 100) < wrap (2 ^ k * 70) ->
  (c + 1) * 100 < 2 ^ k * 70.
Proof.
  intros Hk Hc Hinv Hchk.
  assert (Hcases : k <= 57 \/ k = 58 \/ k = 59 \/ k = 60 \/ k = 61 \/ k = 62 \/ k = 63) by lia.
  destruct Hcases as [Hs | Hcases].
  - assert (H57 : 2 ^ k <= 2 ^ 57) by (apply Z.pow_le_mono_r; lia).
    assert (H0 : 0 < 2 ^ k) by (apply Z.pow_pos_nonneg; lia).
    rewrite !wrap_small in Hchk by lia. exact Hchk.
  - unfold wrap in Hchk.
    destruct Hcases as [-> | [-> | [-> | [-> | [-> | ->]]]]];
      cbn [Z.pow Z.pow_pos Pos.iter Z.mul Pos.mul] in *; Z.div_mod_to_equations; lia.
Qed.

Lemma pow2_ge_8 (k : Z) : 3 <= k -> 8 <= 2 ^ k.
Proof. intros Hk. change 8 with (2 ^ 3). apply Z.pow_le_mono_r; lia. Qed.

Lemma grow_check_ready (fuel : nat) (table table1 : Table K V) (w w1 : World) :
  load_invariant table ->
  table_grow_check key_eqb allocator_alloc fuel table w = Ok (table1, w1) ->
  insert_ready table1.
Proof.
  intros [Hc Hinv]. unfold table_grow_check, LOAD_FACTOR, MIN_CAPACITY in *.
  destruct (wrap ((count table + 1) * 100) >=? wrap (capacity table * 70)) eqn:Echk.
  - destruct (capacity table >=? 8) eqn:Emin.
    + intros Hexp. apply table_expand_fields in Hexp.
      destruct Hexp as (Hcount & Hcap & _ & _ & _ & Hnz).
      destruct Hinv as [[Hz _] | (k & Hk & Hpow & Hload)]; [lia |].
      rewrite Hpow in Hcap, Hnz.
      rewrite Z.shiftl_mul_pow2 in Hcap, Hnz by lia.
      replace (2 ^ k * 2 ^ 1) with (2 ^ (k + 1)) in Hcap, Hnz
        by (rewrite Z.pow_add_r by lia; reflexivity).
      destruct (Z.eq_dec k 63) as [-> | Hk63].
      { exfalso. apply Hnz. reflexivity. }
      assert (Hlt : 2 ^ (k + 1) < 2 ^ 64) by (apply Z.pow_lt_mono_r; lia).
      assert (Hpos : 0 < 2 ^ (k + 1)) by (apply Z.pow_pos_nonneg; lia).
      rewrite (wrap_small (2 ^ (k + 1))) in Hcap by lia.
      rewrite nextpow2_pow2 in Hcap by lia.
      split; [lia |]. exists (k + 1). split; [lia |]. split; [exact Hcap |].
      rewrite Hcap, Hcount. rewrite Z.pow_add_r by lia.
      unfold LOAD_FACTOR. change (2 ^ 1) with 2.
      pose proof (pow2_ge_8 k ltac:(lia)). lia.
    + intros Hexp. apply table_expand_fields in Hexp.
      destruct Hexp as (Hcount & Hcap & _).
      destruct Hinv as [[Hz Hcz] | (k & Hk & Hpow & Hload)].
      * change 8 with (2 ^ 3) in Hcap. rewrite nextpow2_pow2 in Hcap by lia.
        split; [lia |]. exists 3. split; [lia |]. split; [exact Hcap |].
        rewrite Hcap, Hcount, Hcz. reflexivity.
      * pose proof (pow2_ge_8 k ltac:(lia)). lia.
  - intros [= <- <-].
    destruct Hinv as [[Hz Hcz] | (k & Hk & Hpow & Hload)].
    + rewrite Hz, Hcz in Echk. vm_compute in Echk. discriminate.
    + split; [exact Hc |]. exists k. split; [exact Hk |]. split; [exact Hpow |].
      rewrite Hpow in *. apply load_check_exact; try assumption. lia.
Qed.

Lemma claim_entry_invariant (fuel : nat) (table table2 : Table K V) (key0 : K) (i : Z) :
  insert_ready table ->
  table_claim_entry key_eqb fuel table key0 = Ok (i, table2) ->
  load_invariant table2 /\ capacity table2 = capacity table.
Proof.
  intros [Hc (k & Hk & Hpow & Hload)]. unfold table_claim_entry, LOAD_FACTOR in *.
  assert (H63 : 2 ^ k <= 2 ^ 63) by (apply Z.pow_le_mono_r; lia).
  destruct (table_find_entry_sign _ _ _ _ _) as [[j |] | |]; try discriminate.
  destruct (slots table !! Z.to_nat j) as [entry |]; [| discriminate].
  destruct (table_is_sentinel_entry entry); intros [= <- <-].
  - unfold load_invariant, LOAD_FACTOR. cbn [count capacity]. rewrite wrap_small by lia.
    split; [| reflexivity]. split; [lia |]. right. exists k. auto.
  - unfold load_invariant, LOAD_FACTOR.
    split; [| reflexivity]. split; [lia |]. right. exists k.
    repeat split; try assumption; lia.
Qed.

Lemma apply_op_invariant (fuel : nat) (op : Op) (table table' : Table K V) (w w' : World) :
  load_invariant table ->
  apply_op key_eqb allocator_alloc fuel op (table, w) = Ok (table', w') ->
  load_invariant table'.
Proof.
  intros Hinv. destruct op as [key0 value0 | key0 |]; cbn [apply_op].
  - unfold table_update, table_create_entry.
    destruct (table_grow_check _ _ _ _ _) as [[table1 w1] | |] eqn:Eg; try discriminate.
    apply (grow_check_ready _ _ _ _ _ Hinv) in Eg.
    destruct (table_claim_entry _ _ _ _) as [[i table2] | |] eqn:Ec; try discriminate.
    apply (claim_entry_invariant _ _ _ _ _ Eg) in Ec. destruct Ec as [Hinv2 _].
    destruct (slots table2 !! Z.to_nat i); [| discriminate].
    intros [= <- <-]. exact Hinv2.
  - unfold table_remove.
    destruct (count table >? 0) eqn:Ecount.
    + destruct (table_find_entry _ _ _ _) as [p | |]; try discriminate.
      destruct p as [i |]; destruct (entry_at table _) as [entry | |]; try discriminate.
      destruct (negb (table_is_sentinel_entry entry)); intros [= <- <-]; [| exact Hinv].
      destruct Hinv as [Hc [[Hz Hcz] | (k & Hk & Hpow & Hload)]]; [lia |].
      assert (H63 : 2 ^ k <= 2 ^ 63) by (apply Z.pow_le_mono_r; lia).
      unfold load_invariant, LOAD_FACTOR in *.
      cbn [count capacity]. rewrite wrap_small by lia.
      split; [lia |]. right. exists k. repeat split; try assumption; lia.
    + intros [= <- <-]. exact Hinv.
  - unfold table_clear.
    destruct ((entries table =? NULL) && negb (capacity table =? 0)); [discriminate |].
    intros [= <- <-]. destruct Hinv as [Hc [[Hz Hcz] | (k & Hk & Hpow & Hload)]].
    + split; [cbn; lia |]. left. auto.
    + unfold load_invariant, LOAD_FACTOR in *. cbn [count capacity].
      split; [lia |]. right. exists k.
      pose proof (pow2_ge_8 k ltac:(lia)). repeat split; try assumption; lia.
Qed.

(** Where the growth check returns, the count is kept and the capacity is
    either kept or becomes [max(2 * capacity, 8)]; it is the latter whenever
    the load test holds in exact arithmetic. *)
Lemma grow_check_capacity (fuel : nat) (table table1 : Table K V) (w w1 : World) :
  load_invariant table ->
  table_grow_check key_eqb allocator_alloc fuel table w = Ok (table1, w1) ->
  count table1 = count table /\
  (capacity table1 = capacity table \/
   capacity table1 = Z.max (2 * capacity table) 8) /\
  (capacity table * 70 <= (count table + 1) * 100 ->
   capacity table1 = Z.max (2 * capacity table) 8).
Proof.
  intros [Hc Hinv]. unfold table_grow_check, LOAD_FACTOR, MIN_CAPACITY in *.
  destruct (wrap ((count table + 1) * 100) >=? wrap (capacity table * 70)) eqn:Echk.
  - assert (Hgoal : forall c, capacity table1 = c -> count table1 = count table ->
              c = Z.max (2 * capacity table) 8 ->
              count table1 = count table /\
              (capacity table1 = capacity table \/
               capacity table1 = Z.max (2 * capacity table) 8) /\
              (capacity table * 70 <= (count table + 1) * 100 ->
               capacity table1 = Z.max (2 * capacity table) 8)).
    { intros c Hc1 Hc2 Hc3. split; [exact Hc2 |]. split; [right; congruence |].
      intros _. congruence. }
    destruct (capacity table >=? 8) eqn:Emin.
    + intros Hexp. apply table_expand_fields in Hexp.
      destruct Hexp as (Hcount & Hcap & _ & _ & _ & Hnz).
      destruct Hinv as [[Hz _] | (k & Hk & Hpow & Hload)]; [lia |].
      rewrite Hpow in Hcap, Hnz.
      rewrite Z.shiftl_mul_pow2 in Hcap, Hnz by lia.
      replace (2 ^ k * 2 ^ 1) with (2 ^ (k + 1)) in Hcap, Hnz
        by (rewrite Z.pow_add_r by lia; reflexivity).
      destruct (Z.eq_dec k 63) as [-> | Hk63].
      { exfalso. apply Hnz. reflexivity. }
      assert (Hlt : 2 ^ (k + 1) < 2 ^ 64) by (apply Z.pow_lt_mono_r; lia).
      assert (Hpos : 0 < 2 ^ (k + 1)) by (apply Z.pow_pos_nonneg; lia).
      rewrite (wrap_small (2 ^ (k + 1))) in Hcap by lia.
      rewrite nextpow2_pow2 in Hcap by lia.
      apply (Hgoal _ Hcap Hcount).
      rewrite Hpow, Z.pow_add_r by lia. change (2 ^ 1) with 2.
      pose proof (pow2_ge_8 k ltac:(lia)). lia.
    + intros Hexp. apply table_expand_fields in Hexp.
      destruct Hexp as (Hcount & Hcap & _).
      destruct Hinv as [[Hz Hcz] | (k & Hk & Hpow & Hload)].
      * change 8 with (2 ^ 3) in Hcap. rewrite nextpow2_pow2 in Hcap by lia.
        apply (Hgoal _ Hcap Hcount). rewrite Hz. reflexivity.
      * pose proof (pow2_ge_8 k ltac:(lia)). lia.
  - intros [= <- <-]. split; [reflexivity |]. split; [left; reflexivity |].
    intros Hexact. exfalso.
    destruct Hinv as [[Hz Hcz] | (k & Hk & Hpow & Hload)].
    + rewrite Hz, Hcz in Echk. vm_compute in Echk. discriminate.
    + rewrite Hpow in *.
      pose proof (load_check_exact k (count table) Hk Hc Hload ltac:(lia)). lia.
Qed.

Lemma reachable_invariant (table : Table K V) :
  reachable key_eqb allocator_alloc table -> load_invariant table.
Proof.
  induction 1 as [hash_func allocator | fuel op table table' w w' _ IH Hop].
  - split; [cbn; lia |]. left. auto.
  - exact (apply_op_invariant fuel op table table' w w' IH Hop).
Qed.

(** C4.  Every table reached from [make_table] by [table_update],
    [table_remove] and [table_clear] has [count < capacity] when its
    capacity is not zero.  Whenever the growth check of
    [table_create_entry] returns on such a table, it has kept the count,
    it has kept the capacity or made it [max(2 * capacity, 8)] (the latter
    whenever [(count + 1) * 100 >= capacity * 70]), and the table it hands
    to the slot search has a nonzero capacity with
    [(count + 1) * 100 < capacity * 70], in exact arithmetic. *)
Theorem reachable_load_factor (table : Table K V) :
  reachable key_eqb allocator_alloc table ->
  (0 < capacity table -> count table < capacity table) /\
  (forall (fuel : nat) (w w1 : World) (table1 : Table K V),
     table_grow_check key_eqb allocator_alloc fuel table w = Ok (table1, w1) ->
     count table1 = count table /\
     (capacity table1 = capacity table \/
      capacity table1 = Z.max (2 * capacity table) 8) /\
     (capacity table * 70 <= (count table + 1) * 100 ->
      capacity table1 = Z.max (2 * capacity table) 8) /\
     0 < capacity table1 /\
     (count table1 + 1) * 100 < capacity table1 * 70).
Proof.
  intros Hreach. pose proof (reachable_invariant table Hreach) as Hinv.
  split.
  - intros Hpos. destruct Hinv as [Hc [[Hz _] | (k & Hk & Hpow & Hload)]]; [lia |].
    unfold LOAD_FACTOR in Hload. lia.
  - intros fuel w w1 table1 Hg.
    destruct (grow_check_capacity fuel table table1 w w1 Hinv Hg) as (Hcount & Hcap & Hgrow).
    destruct (grow_check_ready fuel table table1 w w1 Hinv Hg) as [Hc (k & Hk & Hpow & Hload)].
    unfold LOAD_FACTOR in Hload.
    split; [exact Hcount |]. split; [exact Hcap |]. split; [exact Hgrow |].
    split; [| exact Hload].
    rewrite Hpow. apply Z.pow_pos_nonneg; lia.
Qed.

(** When every slot is counted live the search returns null at once. *)
Lemma find_entry_full_returns_null (table : Table K V) (key0 : K) (fuel : nat) :
  count table = capacity table ->
  table_find_entry key_eqb fuel table key0 = Ok None.
Proof.
  intros Hfull. unfold table_find_entry, table_find_entry_sign.
  rewrite Hfull, Z.eqb_refl. reflexivity.
Qed.

(** [deinit] names the default allocator, whatever the table holds. *)
Lemma deinit_event (table : Table K V) (w : World) :
  deinit DEFAULT_ALLOCATOR table w = w ++ [Ev_free DEFAULT_ALLOCATOR (entries table)].
Proof. reflexivity. Qed.

(** [table_expand] takes the new array from, and returns the old one to,
    the allocator of the table. *)
Lemma table_expand_events (fuel : nat) (table table' : Table K V) (capacity0 : Z)
    (w w' : World) :
  table_expand key_eqb allocator_alloc fuel table capacity0 w = Ok (table', w') ->
  w' = w ++ [Ev_alloc (allocator table)
                      (wrap (Memory.nextpow2 capacity0 * sizeof_Table_Entry))
                      alignof_Table_Entry (entries table')]
         ++ [Ev_free (allocator table) (entries table)].
Proof.
  unfold table_expand.
  destruct (capacity0 =? 0); [discriminate |].
  destruct (capacity0 <? capacity table); [discriminate |].
  unfold mem_alloc, mem_free.
  destruct (_ =? NULL); [discriminate |].
  destruct (2 ^ 64 <=? _); [discriminate |].
  destruct (expand_loop _ _ _ _ _ _) as [copy' | |] eqn:E; try discriminate.
  intros [= <- <-]. apply expand_loop_fields in E. cbn in E.
  destruct E as (_ & _ & -> & _). rewrite <- app_assoc. reflexivity.
Qed.

(** The loop of [table_find_entry] walks the slots listed by
    [probe_indices]: as long as the probed slots hold live entries other
    than the one looked for, [n] rounds take it to the state of the probe
    after [n] advances. *)
Lemma find_entry_loop_visits_probe_indices (table : Table K V) (key0 : K) (sign0 : Z)
    (n : nat) :
  capacity table <> 0 ->
  forall (fuel : nat) (i probe : Z) (first_removed_slot : option Z),
    Forall (fun j => exists e,
                slots table !! Z.to_nat j = Some e /\
                table_is_sentinel_entry e = false /\
                (sign e =? sign0) && key_eqb key0 (key e) = false)
           (probe_indices (capacity table) n (i, probe)) ->
    find_entry_loop key_eqb (n + fuel) table key0 sign0 i probe first_removed_slot
    = find_entry_loop key_eqb fuel table key0 sign0
        (fst (probe_state (capacity table) n (i, probe)))
        (snd (probe_state (capacity table) n (i, probe)))
        first_removed_slot.
Proof.
  intros Hcap. induction n as [| n IH]; intros fuel i probe fr Hall; [reflexivity |].
  cbn [probe_indices fst] in Hall. apply Forall_cons in Hall.
  destruct Hall as [(e & He & Hlive & Hnm) Hrest].
  cbn [Nat.add find_entry_loop probe_state].
  rewrite He. unfold table_is_sentinel_entry in Hlive.
  apply orb_false_elim in Hlive. destruct Hlive as [E0 E1].
  rewrite E0, Hnm, E1.
  destruct (capacity table =? 0) eqn:Ec; [lia |].
  destruct (probe_next (capacity table) (i, probe)) as [i' probe'] eqn:Enext.
  destruct fr as [r |]; apply IH; exact Hrest.
Qed.

End TableFacts.

(** *** Functional correctness of the slot search *)

Section TableCorrectness.
Context {K V : Type} {repr_K : Repr K} {repr_V : Repr V} {layout : Entry_Layout K V}.
Variable key_eqb : K -> K -> bool.
Variable allocator_alloc : World -> Z -> Z -> Z -> Z.
Hypothesis key_eqb_eq : forall a b : K, key_eqb a b = true <-> a = b.

Lemma key_eqb_refl (a : K) : key_eqb a a = true.
Proof. apply key_eqb_eq. reflexivity. Qed.

Lemma key_eqb_neq (a b : K) : a <> b -> key_eqb a b = false.
Proof.
  intros Hne. destruct (key_eqb a b) eqn:E; [| reflexivity].
  apply key_eqb_eq in E. contradiction.
Qed.

Lemma sentinel_cases (e : Table_Entry K V) :
  table_is_sentinel_entry e = true <-> sign e = EMPTY \/ sign e = TOMBSTONE.
Proof.
  unfold table_is_sentinel_entry, EMPTY. rewrite orb_true_iff, !Z.eqb_eq. reflexivity.
Qed.

Lemma live_cases (e : Table_Entry K V) :
  table_is_sentinel_entry e = false <-> sign e <> EMPTY /\ sign e <> TOMBSTONE.
Proof.
  unfold table_is_sentinel_entry, EMPTY. rewrite orb_false_iff, !Z.eqb_neq. reflexivity.
Qed.

(** One round of the loop. *)
Lemma find_entry_loop_round (fuel : nat) (table : Table K V) (key0 : K) (sign0 : Z)
    (i probe : Z) (fr : option Z) :
  find_entry_loop key_eqb (S fuel) table key0 sign0 i probe fr =
  match slots table !! Z.to_nat i with
  | None => Fault
  | Some e =>
      if sign e =? 0 then Ok (Some (default i fr))
      else if matches key_eqb key0 sign0 e then Ok (Some i)
      else if capacity table =? 0 then OutOfFuel
      else
        find_entry_loop key_eqb fuel table key0 sign0
          (fst (probe_next (capacity table) (i, probe)))
          (snd (probe_next (capacity table) (i, probe)))
          (match fr with
           | None => if sign e =? TOMBSTONE then Some i else None
           | Some r => Some r
           end)
  end.
Proof.
  cbn [find_entry_loop]. destruct (slots table !! Z.to_nat i) as [e |]; [| reflexivity].
  destruct (sign e =? 0); [destruct fr; reflexivity |].
  unfold matches. destruct ((sign e =? sign0) && key_eqb key0 (key e)); [reflexivity |].
  destruct (capacity table =? 0); [reflexivity |].
  destruct (probe_next (capacity table) (i, probe)). reflexivity.
Qed.

Lemma first_removed_ok_next (table : Table K V) (i : Z) (e : Table_Entry K V)
    (fr : option Z) :
  0 <= i -> slots table !! Z.to_nat i = Some e ->
  first_removed_ok table fr ->
  first_removed_ok table
    (match fr with
     | None => if sign e =? TOMBSTONE then Some i else None
     | Some r => Some r
     end).
Proof.
  intros Hi He Hfr. destruct fr as [r |]; [exact Hfr |].
  destruct (sign e =? TOMBSTONE) eqn:Et; [| exact Hfr].
  intros r [= <-]. split; [exact Hi |]. exists e. split; [exact He | lia].
Qed.

(** The search returns a slot: the matching entry, or a sentinel. *)
Lemma find_entry_loop_result (table : Table K V) (key0 : K) (sign0 : Z) (fuel : nat) :
  forall (i probe : Z) (fr : option Z) (r : option Z),
    0 < capacity table -> 0 <= i -> first_removed_ok table fr ->
    find_entry_loop key_eqb fuel table key0 sign0 i probe fr = Ok r ->
    exists s e,
      r = Some s /\ 0 <= s /\ slots table !! Z.to_nat s = Some e /\
      (matches key_eqb key0 sign0 e = true \/ table_is_sentinel_entry e = true).
Proof.
  induction fuel as [| fuel IH]; intros i probe fr r Hcap Hi Hfr; [discriminate |].
  rewrite find_entry_loop_round.
  destruct (slots table !! Z.to_nat i) as [e |] eqn:He; [| discriminate].
  destruct (sign e =? 0) eqn:E0.
  - intros [= <-]. destruct fr as [r0 |]; simpl.
    + destruct (Hfr r0 eq_refl) as (Hr0 & e0 & He0 & Hs0).
      exists r0, e0. repeat split; try assumption. right. apply sentinel_cases. auto.
    + exists i, e. repeat split; try assumption. right. apply sentinel_cases.
      left. unfold EMPTY. lia.
  - destruct (matches key_eqb key0 sign0 e) eqn:Em.
    + intros [= <-]. exists i, e. auto.
    + destruct (capacity table =? 0) eqn:Ec; [discriminate |].
      apply IH; try assumption.
      * apply probe_next_range. exact Hcap.
      * apply first_removed_ok_next; assumption.
Qed.

Lemma find_entry_loop_succ (table : Table K V) (key0 : K) (sign0 : Z) (fuel : nat) :
  forall (i probe : Z) (fr : option Z) (r : option Z),
    find_entry_loop key_eqb fuel table key0 sign0 i probe fr = Ok r ->
    find_entry_loop key_eqb (S fuel) table key0 sign0 i probe fr = Ok r.
Proof.
  induction fuel as [| fuel IH]; intros i probe fr r; [discriminate |].
  rewrite (find_entry_loop_round (S fuel)), (find_entry_loop_round fuel).
  destruct (slots table !! Z.to_nat i) as [e |]; [| discriminate].
  destruct (sign e =? 0); [auto |].
  destruct (matches key_eqb key0 sign0 e); [auto |].
  destruct (capacity table =? 0); [discriminate |].
  apply IH.
Qed.

Lemma find_entry_loop_mono (table : Table K V) (key0 : K) (sign0 : Z)
    (fuel fuel' : nat) (i probe : Z) (fr : option Z) (r : option Z) :
  (fuel <= fuel')%nat ->
  find_entry_loop key_eqb fuel table key0 sign0 i probe fr = Ok r ->
  find_entry_loop key_eqb fuel' table key0 sign0 i probe fr = Ok r.
Proof.
  induction 1 as [| fuel' _ IH]; [auto |].
  intros H. apply find_entry_loop_succ. auto.
Qed.

(** The result does not depend on the fuel that sufficed. *)
Lemma find_entry_loop_det (table : Table K V) (key0 : K) (sign0 : Z)
    (fuel1 fuel2 : nat) (i probe : Z) (fr : option Z) (r1 r2 : option Z) :
  find_entry_loop key_eqb fuel1 table key0 sign0 i probe fr = Ok r1 ->
  find_entry_loop key_eqb fuel2 table key0 sign0 i probe fr = Ok r2 ->
  r1 = r2.
Proof.
  intros H1 H2.
  apply (find_entry_loop_mono _ _ _ _ (max fuel1 fuel2)) in H1; [| lia].
  apply (find_entry_loop_mono _ _ _ _ (max fuel1 fuel2)) in H2; [| lia].
  congruence.
Qed.

(** Once a tombstone is remembered, the search returns it or a match. *)
Lemma find_entry_loop_removed (table : Table K V) (key0 : K) (sign0 : Z) (fuel : nat) :
  forall (i probe r s : Z),
    find_entry_loop key_eqb fuel table key0 sign0 i probe (Some r) = Ok (Some s) ->
    s = r \/
    exists e, slots table !! Z.to_nat s = Some e /\ matches key_eqb key0 sign0 e = true.
Proof.
  induction fuel as [| fuel IH]; intros i probe r s; [discriminate |].
  rewrite find_entry_loop_round.
  destruct (slots table !! Z.to_nat i) as [e |] eqn:He; [| discriminate].
  destruct (sign e =? 0).
  - intros [= <-]. left. reflexivity.
  - destruct (matches key_eqb key0 sign0 e) eqn:Em.
    + intros [= <-]. right. exists e. auto.
    + destruct (capacity table =? 0); [discriminate |]. apply IH.
Qed.

(** A search that ended at a live entry ends at the same entry in any table
    that agrees with this one on which slots are empty and which entries
    match, whatever tombstone was remembered. *)
Lemma find_entry_loop_sim (table table' : Table K V) (key0 : K) (sign0 : Z) (fuel : nat) :
  capacity table' = capacity table ->
  0 < capacity table ->
  (forall i e, slots table !! i = Some e -> sign e <> 0 ->
     exists e', slots table' !! i = Some e' /\ sign e' <> 0 /\
                matches key_eqb key0 sign0 e' = matches key_eqb key0 sign0 e) ->
  forall (i probe : Z) (fr fr' : option Z) (j : Z) (ej : Table_Entry K V),
    0 <= i -> first_removed_ok table fr ->
    find_entry_loop key_eqb fuel table key0 sign0 i probe fr = Ok (Some j) ->
    slots table !! Z.to_nat j = Some ej -> table_is_sentinel_entry ej = false ->
    find_entry_loop key_eqb fuel table' key0 sign0 i probe fr' = Ok (Some j).
Proof.
  intros Hc Hcap Hagree.
  induction fuel as [| fuel IH]; intros i probe fr fr' j ej Hi Hfr; [discriminate |].
  rewrite !find_entry_loop_round.
  destruct (slots table !! Z.to_nat i) as [e |] eqn:He; [| discriminate].
  destruct (sign e =? 0) eqn:E0.
  - intros [= <-] Hej Hlive. exfalso.
    apply live_cases in Hlive. destruct Hlive as [Hl0 Hl1].
    destruct fr as [r |]; simpl in Hej.
    + destruct (Hfr r eq_refl) as (_ & er & Her & Hsr). congruence.
    + unfold EMPTY in Hl0. assert (e = ej) by congruence. subst. lia.
  - destruct (Hagree _ _ He ltac:(lia)) as (e' & He' & Hs' & Hm').
    rewrite He'. replace (sign e' =? 0) with false by lia.
    rewrite Hm', Hc.
    destruct (matches key_eqb key0 sign0 e) eqn:Em; [auto |].
    destruct (capacity table =? 0) eqn:Ec; [discriminate |].
    intros Hrun Hej Hlive.
    refine (IH _ _ _ _ j ej _ _ Hrun Hej Hlive).
    + apply probe_next_range. exact Hcap.
    + apply first_removed_ok_next; assumption.
Qed.

(** A search that ended at a sentinel slot finds the key there once the
    slot holds it. *)
Lemma find_entry_loop_filled (table table' : Table K V) (key0 : K) (sign0 : Z)
    (s : Z) (e_old e_new : Table_Entry K V) (fuel : nat) :
  capacity table' = capacity table ->
  0 < capacity table ->
  0 <= s ->
  slots table !! Z.to_nat s = Some e_old ->
  table_is_sentinel_entry e_old = true ->
  slots table' = <[Z.to_nat s := e_new]> (slots table) ->
  sign0 <> 0 -> sign0 <> TOMBSTONE ->
  sign e_new = sign0 -> key_eqb key0 (key e_new) = true ->
  forall (i probe : Z) (fr' : option Z),
    0 <= i ->
    find_entry_loop key_eqb fuel table key0 sign0 i probe None = Ok (Some s) ->
    find_entry_loop key_eqb fuel table' key0 sign0 i probe fr' = Ok (Some s).
Proof.
  intros Hc Hcap Hs Hold Hsent Hslots Hs0 Hs1 Hsign Hkey.
  assert (Hmnew : matches key_eqb key0 sign0 e_new = true).
  { unfold matches. rewrite Hsign, Z.eqb_refl, Hkey. reflexivity. }
  assert (Hmold : matches key_eqb key0 sign0 e_old = false).
  { unfold matches. apply sentinel_cases in Hsent. unfold EMPTY in Hsent.
    replace (sign e_old =? sign0) with false by lia. reflexivity. }
  induction fuel as [| fuel IH]; intros i probe fr' Hi; [discriminate |].
  rewrite !find_entry_loop_round.
  destruct (Z.eq_dec i s) as [-> | Hne].
  - rewrite Hold, Hslots.
    rewrite list_lookup_insert_eq by (apply lookup_lt_Some in Hold; exact Hold).
    rewrite Hsign. replace (sign0 =? 0) with false by lia. rewrite Hmnew.
    intros _. reflexivity.
  - rewrite Hslots, list_lookup_insert_ne by lia.
    destruct (slots table !! Z.to_nat i) as [e |] eqn:He; [| discriminate].
    destruct (sign e =? 0) eqn:E0; [intros [= ?]; lia |].
    destruct (matches key_eqb key0 sign0 e) eqn:Em; [intros [= ?]; lia |].
    rewrite Hc. destruct (capacity table =? 0) eqn:Ec; [discriminate |].
    destruct (sign e =? TOMBSTONE) eqn:Et.
    + intros Hrun. exfalso.
      apply find_entry_loop_removed in Hrun.
      destruct Hrun as [-> | (e2 & He2 & Hm2)]; [lia |]. congruence.
    + intros Hrun. apply IH; [| exact Hrun].
      apply probe_next_range. exact Hcap.
Qed.

(** *** The client's view *)

Lemma key_eqb_sym (a b : K) : key_eqb a b = key_eqb b a.
Proof.
  destruct (key_eqb a b) eqn:E1; destruct (key_eqb b a) eqn:E2; try reflexivity.
  - apply key_eqb_eq in E1. subst. rewrite key_eqb_refl in E2. discriminate.
  - apply key_eqb_eq in E2. subst. rewrite key_eqb_refl in E1. discriminate.
Qed.

Lemma spec_find_remove (k k' : K) (m : list (K * V)) :
  spec_find key_eqb k' (spec_remove key_eqb k m)
  = if key_eqb k' k then None else spec_find key_eqb k' m.
Proof.
  unfold spec_find, spec_remove.
  induction m as [| [k0 v0] m IH]; cbn [List.filter List.find fst].
  - destruct (key_eqb k' k); reflexivity.
  - destruct (key_eqb k k0) eqn:E0; cbn [negb].
    + apply key_eqb_eq in E0. subst k0.
      destruct (key_eqb k' k) eqn:E1; [exact IH |].
      rewrite IH. reflexivity.
    + cbn [List.find fst]. destruct (key_eqb k' k0) eqn:E1.
      * apply key_eqb_eq in E1. subst k0.
        rewrite key_eqb_sym, E0. reflexivity.
      * exact IH.
Qed.

Lemma spec_find_update (k k' : K) (v : V) (m : list (K * V)) :
  spec_find key_eqb k' (spec_update key_eqb k v m)
  = if key_eqb k' k then Some v else spec_find key_eqb k' m.
Proof.
  unfold spec_update. unfold spec_find at 1. cbn [List.find fst].
  destruct (key_eqb k' k) eqn:E; [reflexivity |].
  pose proof (spec_find_remove k k' m) as H. rewrite E in H. exact H.
Qed.

Lemma spec_find_in (k : K) (v : V) (m : list (K * V)) :
  spec_find key_eqb k m = Some v -> In (k, v) m.
Proof.
  unfold spec_find. induction m as [| [k0 v0] m IH]; cbn [List.find fst]; [discriminate |].
  destruct (key_eqb k k0) eqn:E.
  - apply key_eqb_eq in E. subst. intros [= <-]. left. reflexivity.
  - intros H. right. auto.
Qed.

Lemma spec_find_none (k : K) (m : list (K * V)) :
  spec_find key_eqb k m = None -> forall v, ~ In (k, v) m.
Proof.
  unfold spec_find. induction m as [| [k0 v0] m IH]; cbn [List.find fst]; [auto |].
  destruct (key_eqb k k0) eqn:E; [discriminate |].
  intros H v [[= -> ->] | Hin].
  - rewrite key_eqb_refl in E. discriminate.
  - exact (IH H v Hin).
Qed.

Lemma spec_remove_absent (k : K) (m : list (K * V)) :
  spec_find key_eqb k m = None -> spec_remove key_eqb k m = m.
Proof.
  unfold spec_find, spec_remove.
  induction m as [| [k0 v0] m IH]; cbn [List.filter List.find fst]; [reflexivity |].
  destruct (key_eqb k k0); [discriminate |]. cbn [negb]. intros H. f_equal. auto.
Qed.

Lemma spec_remove_in (k k0 : K) (v0 : V) (m : list (K * V)) :
  In (k0, v0) (spec_remove key_eqb k m) -> In (k0, v0) m /\ k0 <> k.
Proof.
  unfold spec_remove. rewrite filter_In. cbn [fst]. intros [Hin Hne]. split; [exact Hin |].
  intros ->. rewrite key_eqb_refl in Hne. discriminate.
Qed.

Lemma spec_remove_nodup (k : K) (m : list (K * V)) :
  NoDup (map fst m) -> NoDup (map fst (spec_remove key_eqb k m)).
Proof.
  induction m as [| [k0 v0] m IH]; cbn [map fst]; [auto |].
  intros Hnd. apply NoDup_cons in Hnd. destruct Hnd as [Hnotin Hnd].
  unfold spec_remove. cbn [List.filter fst].
  destruct (negb (key_eqb k k0)); [| exact (IH Hnd)].
  cbn [map fst]. apply NoDup_cons. split; [| exact (IH Hnd)].
  intros Hin. apply Hnotin.
  apply list_elem_of_In in Hin. apply in_map_iff in Hin.
  destruct Hin as ([k1 v1] & Hk1 & Hin). cbn [fst] in Hk1. subst k1.
  apply spec_remove_in in Hin. destruct Hin as [Hin _].
  apply list_elem_of_In. apply in_map_iff. exists (k0, v1). auto.
Qed.

Lemma spec_update_nodup (k : K) (v : V) (m : list (K * V)) :
  NoDup (map fst m) -> NoDup (map fst (spec_update key_eqb k v m)).
Proof.
  intros Hnd. unfold spec_update. cbn [map fst]. apply NoDup_cons. split.
  - intros Hin. apply list_elem_of_In in Hin. apply in_map_iff in Hin.
    destruct Hin as ([k1 v1] & Hk1 & Hin). cbn [fst] in Hk1. subst k1.
    apply spec_remove_in in Hin. destruct Hin as [_ Hne]. contradiction.
  - apply spec_remove_nodup. exact Hnd.
Qed.

Lemma spec_remove_present (k : K) (v : V) (m : list (K * V)) :
  NoDup (map fst m) -> spec_find key_eqb k m = Some v ->
  S (length (spec_remove key_eqb k m)) = length m.
Proof.
  unfold spec_find. induction m as [| [k0 v0] m IH]; cbn [List.find fst map]; [discriminate |].
  intros Hnd. apply NoDup_cons in Hnd. destruct Hnd as [Hnotin Hnd].
  unfold spec_remove. cbn [List.filter fst].
  destruct (key_eqb k k0) eqn:E; cbn [negb].
  - intros _. apply key_eqb_eq in E. subst k0.
    fold (spec_remove key_eqb k m). rewrite spec_remove_absent; [reflexivity |].
    destruct (spec_find key_eqb k m) as [v1 |] eqn:Ef; [| reflexivity].
    exfalso. apply Hnotin. apply spec_find_in in Ef.
    apply list_elem_of_In. apply in_map_iff. exists (k, v1). auto.
  - intros Hf. cbn [length]. f_equal. apply IH; assumption.
Qed.

(** *** Changing one slot *)

Lemma home_slot_nonneg (table : Table K V) (sign0 : Z) : 0 <= home_slot table sign0.
Proof. unfold home_slot. apply Z.land_nonneg. right. apply wrap_range. Qed.

Lemma live_signature_live (table : Table K V) (k : K) (v : V) :
  table_is_sentinel_entry (mkEntry k v (live_signature table k)) = false.
Proof.
  apply live_cases. cbn [sign]. unfold live_signature.
  apply create_signature_not_sentinel, wrap_range.
Qed.

(** The search for a live entry is not disturbed by a change of the table
    that keeps empty slots empty, occupied slots occupied, and does not
    touch what matches the entry. *)
Lemma findable_transfer (table table' : Table K V) (j : nat) (e : Table_Entry K V) :
  capacity table' = capacity table ->
  0 < capacity table ->
  (forall i ei, slots table !! i = Some ei -> sign ei <> 0 ->
     exists ei', slots table' !! i = Some ei' /\ sign ei' <> 0 /\
                 matches key_eqb (key e) (sign e) ei' = matches key_eqb (key e) (sign e) ei) ->
  slots table !! j = Some e -> table_is_sentinel_entry e = false ->
  (exists fuel,
     find_entry_loop key_eqb fuel table (key e) (sign e) (home_slot table (sign e)) 1 None
     = Ok (Some (Z.of_nat j))) ->
  exists fuel,
    find_entry_loop key_eqb fuel table' (key e) (sign e) (home_slot table' (sign e)) 1 None
    = Ok (Some (Z.of_nat j)).
Proof.
  intros Hc Hcap Hagree He Hlive [fuel Hrun]. exists fuel.
  unfold home_slot. rewrite Hc. fold (home_slot table (sign e)).
  eapply (find_entry_loop_sim table table' (key e) (sign e) fuel Hc Hcap Hagree
            _ _ None None (Z.of_nat j) e).
  - apply home_slot_nonneg.
  - intros r [=].
  - exact Hrun.
  - rewrite Nat2Z.id. exact He.
  - exact Hlive.
Qed.

(** Claiming a sentinel slot for a key that is not in the table. *)
Lemma fill_slots_invariant (table table' : Table K V) (k : K) (v : V) (s : Z)
    (e_old : Table_Entry K V) :
  slots_invariant key_eqb table ->
  capacity table' = capacity table ->
  hash_func table' = hash_func table ->
  0 <= s ->
  slots table !! Z.to_nat s = Some e_old ->
  table_is_sentinel_entry e_old = true ->
  slots table' = <[Z.to_nat s := mkEntry k v (live_signature table k)]> (slots table) ->
  (exists fuel,
     find_entry_loop key_eqb fuel table k (live_signature table k)
       (home_slot table (live_signature table k)) 1 None = Ok (Some s)) ->
  (forall j e, slots table !! j = Some e -> table_is_sentinel_entry e = false -> key e <> k) ->
  slots_invariant key_eqb table' /\
  (forall k' v', holds table' k' v' <-> (k' = k /\ v' = v) \/ holds table k' v').
Proof.
  intros [Hcap Hlen Hsign Hdist Hfind] Hc Hh Hs Hold Hsent Hslots [fuel Hrun] Habsent.
  assert (Hlt : (Z.to_nat s < length (slots table))%nat) by (apply lookup_lt_Some in Hold; exact Hold).
  assert (Hsig : forall k0, live_signature table' k0 = live_signature table k0).
  { intros k0. unfold live_signature. rewrite Hh. reflexivity. }
  pose proof (live_signature_live table k v) as Hnew_live.
  assert (Hlook : forall j e, slots table' !! j = Some e ->
            (j = Z.to_nat s /\ e = mkEntry k v (live_signature table k)) \/
            (j <> Z.to_nat s /\ slots table !! j = Some e)).
  { intros j e He. rewrite Hslots in He.
    destruct (Nat.eq_dec j (Z.to_nat s)) as [-> | Hne].
    - rewrite list_lookup_insert_eq in He by exact Hlt. left. split; congruence.
    - rewrite list_lookup_insert_ne in He by congruence. right. auto. }
  split; [constructor |].
  - rewrite Hc. exact Hcap.
  - rewrite Hslots, length_insert, Hc. exact Hlen.
  - intros j e He Hlive. rewrite Hsig.
    destruct (Hlook j e He) as [[_ ->] | [_ He']]; [reflexivity | eauto].
  - intros j1 j2 e1 e2 He1 He2 Hl1 Hl2 Hk.
    destruct (Hlook j1 e1 He1) as [[-> ->] | [Hn1 He1']];
      destruct (Hlook j2 e2 He2) as [[-> ->] | [Hn2 He2']].
    + reflexivity.
    + exfalso. exact (Habsent j2 e2 He2' Hl2 (eq_sym Hk)).
    + exfalso. exact (Habsent j1 e1 He1' Hl1 Hk).
    + eauto.
  - intros j e He Hlive.
    destruct (Hlook j e He) as [[-> ->] | [Hn He']].
    + exists fuel. cbn [key sign]. unfold home_slot. rewrite Hc.
      fold (home_slot table (live_signature table k)).
      rewrite Z2Nat.id by exact Hs.
      pose proof (create_signature_not_sentinel (wrap (hash_func table k)) (wrap_range _))
        as [Hs0 Hs1].
      exact (find_entry_loop_filled table table' k (live_signature table k) s e_old
               (mkEntry k v (live_signature table k)) fuel Hc ltac:(lia) Hs Hold Hsent
               Hslots Hs0 Hs1 eq_refl (key_eqb_refl k) _ 1 None
               (home_slot_nonneg _ _) Hrun).
    + apply (findable_transfer table table' j e Hc ltac:(lia)); try assumption; [| eauto].
      intros i ei Hei Hnz.
      destruct (Nat.eq_dec i (Z.to_nat s)) as [-> | Hne].
      * exists (mkEntry k v (live_signature table k)).
        rewrite Hslots, list_lookup_insert_eq by exact Hlt.
        split; [reflexivity |].
        apply live_cases in Hnew_live. cbn [sign] in Hnew_live. unfold EMPTY in Hnew_live.
        split; [cbn [sign]; lia |].
        assert (ei = e_old) by congruence. subst ei.
        unfold matches. cbn [sign key].
        rewrite (key_eqb_neq (key e) k) by (exact (Habsent j e He' Hlive)).
        rewrite andb_false_r.
        apply sentinel_cases in Hsent. apply live_cases in Hlive. unfold EMPTY in *.
        replace (sign e_old =? sign e) with false by lia. reflexivity.
      * exists ei. rewrite Hslots, list_lookup_insert_ne by congruence. auto.
  - intros k' v'. split.
    + intros (j & e & He & Hlive & Hk & Hv).
      destruct (Hlook j e He) as [[-> ->] | [Hn He']].
      * left. cbn in Hk, Hv. auto.
      * right. exists j, e. auto.
    + intros [[-> ->] | (j & e & He & Hlive & Hk & Hv)].
      * exists (Z.to_nat s), (mkEntry k v (live_signature table k)).
        rewrite Hslots, list_lookup_insert_eq by exact Hlt. auto.
      * exists j, e. rewrite Hslots, list_lookup_insert_ne; [auto |].
        intros <-. congruence.
Qed.

(** Turning a live slot into a tombstone. *)
Lemma remove_slots_invariant (table table' : Table K V) (j : nat) (e : Table_Entry K V) :
  slots_invariant key_eqb table ->
  capacity table' = capacity table ->
  hash_func table' = hash_func table ->
  slots table !! j = Some e ->
  table_is_sentinel_entry e = false ->
  slots table' = <[j := mkEntry (key e) (value e) TOMBSTONE]> (slots table) ->
  slots_invariant key_eqb table' /\
  (forall k' v', holds table' k' v' <-> k' <> key e /\ holds table k' v').
Proof.
  intros [Hcap Hlen Hsign Hdist Hfind] Hc Hh He Hlive Hslots.
  assert (Hlt : (j < length (slots table))%nat) by (apply lookup_lt_Some in He; exact He).
  assert (Hsig : forall k0, live_signature table' k0 = live_signature table k0).
  { intros k0. unfold live_signature. rewrite Hh. reflexivity. }
  assert (Hlook : forall i ei, slots table' !! i = Some ei ->
            table_is_sentinel_entry ei = false ->
            i <> j /\ slots table !! i = Some ei).
  { intros i ei Hei Hl. rewrite Hslots in Hei.
    destruct (Nat.eq_dec i j) as [-> | Hne].
    - rewrite list_lookup_insert_eq in Hei by exact Hlt. injection Hei as <-.
      apply live_cases in Hl. cbn [sign] in Hl. lia.
    - rewrite list_lookup_insert_ne in Hei by congruence. auto. }
  split; [constructor |].
  - rewrite Hc. exact Hcap.
  - rewrite Hslots, length_insert, Hc. exact Hlen.
  - intros i ei Hei Hl. rewrite Hsig. destruct (Hlook i ei Hei Hl) as [_ Hei']. eauto.
  - intros j1 j2 e1 e2 He1 He2 Hl1 Hl2 Hk.
    destruct (Hlook j1 e1 He1 Hl1) as [_ He1'].
    destruct (Hlook j2 e2 He2 Hl2) as [_ He2']. eauto.
  - intros i ei Hei Hl. destruct (Hlook i ei Hei Hl) as [Hne Hei'].
    apply (findable_transfer table table' i ei Hc ltac:(lia)); try assumption; [| eauto].
    intros i0 e0 He0 Hnz.
    destruct (Nat.eq_dec i0 j) as [-> | Hne0].
    + exists (mkEntry (key e) (value e) TOMBSTONE).
      rewrite Hslots, list_lookup_insert_eq by exact Hlt.
      split; [reflexivity |]. split; [cbn [sign]; unfold TOMBSTONE; lia |].
      assert (e0 = e) by congruence. subst e0.
      unfold matches. cbn [sign key].
      assert (Hkne : key ei <> key e).
      { intros Hk. apply Hne. exact (Hdist i j ei e Hei' He Hl Hlive Hk). }
      rewrite (key_eqb_neq (key ei) (key e)) by exact Hkne.
      rewrite !andb_false_r. reflexivity.
    + exists e0. rewrite Hslots, list_lookup_insert_ne by congruence. auto.
  - intros k' v'. split.
    + intros (i & ei & Hei & Hl & Hk & Hv).
      destruct (Hlook i ei Hei Hl) as [Hne Hei']. split.
      * intros Heq. apply Hne. apply (Hdist i j ei e Hei' He Hl Hlive). congruence.
      * exists i, ei. auto.
    + intros [Hne (i & ei & Hei & Hl & Hk & Hv)].
      exists i, ei. rewrite Hslots, list_lookup_insert_ne; [auto |].
      intros <-. apply Hne. congruence.
Qed.

(** Writing the value of a live slot. *)
Lemma set_value_slots_invariant (table table' : Table K V) (j : nat)
    (e : Table_Entry K V) (v : V) :
  slots_invariant key_eqb table ->
  capacity table' = capacity table ->
  hash_func table' = hash_func table ->
  slots table !! j = Some e ->
  table_is_sentinel_entry e = false ->
  slots table' = <[j := mkEntry (key e) v (sign e)]> (slots table) ->
  slots_invariant key_eqb table' /\
  (forall k' v', holds table' k' v' <->
                 (k' = key e /\ v' = v) \/ (k' <> key e /\ holds table k' v')).
Proof.
  intros [Hcap Hlen Hsign Hdist Hfind] Hc Hh He Hlive Hslots.
  assert (Hlt : (j < length (slots table))%nat) by (apply lookup_lt_Some in He; exact He).
  assert (Hsig : forall k0, live_signature table' k0 = live_signature table k0).
  { intros k0. unfold live_signature. rewrite Hh. reflexivity. }
  assert (Hnew_live : table_is_sentinel_entry (mkEntry (key e) v (sign e)) = false).
  { apply live_cases. cbn [sign]. apply live_cases. exact Hlive. }
  assert (Hlook : forall i ei, slots table' !! i = Some ei ->
            (i = j /\ ei = mkEntry (key e) v (sign e)) \/
            (i <> j /\ slots table !! i = Some ei)).
  { intros i ei Hei. rewrite Hslots in Hei.
    destruct (Nat.eq_dec i j) as [-> | Hne].
    - rewrite list_lookup_insert_eq in Hei by exact Hlt. left. split; congruence.
    - rewrite list_lookup_insert_ne in Hei by congruence. right. auto. }
  assert (Hagree : forall (key0 : K) (sign0 : Z) i ei,
            slots table !! i = Some ei -> sign ei <> 0 ->
            exists ei', slots table' !! i = Some ei' /\ sign ei' <> 0 /\
                        matches key_eqb key0 sign0 ei' = matches key_eqb key0 sign0 ei).
  { intros key0 sign0 i ei Hei Hnz.
    destruct (Nat.eq_dec i j) as [-> | Hne].
    - exists (mkEntry (key e) v (sign e)).
      rewrite Hslots, list_lookup_insert_eq by exact Hlt.
      assert (ei = e) by congruence. subst ei. auto.
    - exists ei. rewrite Hslots, list_lookup_insert_ne by congruence. auto. }
  split; [constructor |].
  - rewrite Hc. exact Hcap.
  - rewrite Hslots, length_insert, Hc. exact Hlen.
  - intros i ei Hei Hl. rewrite Hsig.
    destruct (Hlook i ei Hei) as [[-> ->] | [_ Hei']]; [| eauto].
    cbn [sign key]. eauto.
  - intros j1 j2 e1 e2 He1 He2 Hl1 Hl2 Hk.
    destruct (Hlook j1 e1 He1) as [[-> ->] | [Hn1 He1']];
      destruct (Hlook j2 e2 He2) as [[-> ->] | [Hn2 He2']].
    + reflexivity.
    + cbn [key] in Hk. exact (Hdist j j2 e e2 He He2' Hlive Hl2 Hk).
    + cbn [key] in Hk. exact (Hdist j1 j e1 e He1' He Hl1 Hlive Hk).
    + eauto.
  - intros i ei Hei Hl.
    destruct (Hlook i ei Hei) as [[-> ->] | [Hne Hei']].
    + cbn [key sign].
      exact (findable_transfer table table' j e Hc ltac:(lia)
               (Hagree (key e) (sign e)) He Hlive (Hfind j e He Hlive)).
    + exact (findable_transfer table table' i ei Hc ltac:(lia)
               (Hagree (key ei) (sign ei)) Hei' Hl (Hfind i ei Hei' Hl)).
  - intros k' v'. split.
    + intros (i & ei & Hei & Hl & Hk & Hv).
      destruct (Hlook i ei Hei) as [[-> ->] | [Hne Hei']].
      * left. cbn in Hk, Hv. auto.
      * right. split.
        -- intros Heq. apply Hne. apply (Hdist i j ei e Hei' He Hl Hlive). congruence.
        -- exists i, ei. auto.
    + intros [[-> ->] | [Hne (i & ei & Hei & Hl & Hk & Hv)]].
      * exists j, (mkEntry (key e) v (sign e)).
        rewrite Hslots, list_lookup_insert_eq by exact Hlt. auto.
      * exists i, ei. rewrite Hslots, list_lookup_insert_ne; [auto |].
        intros <-. apply Hne. congruence.
Qed.

(** *** The operations *)

Lemma find_entry_sign_result (fuel : nat) (table : Table K V) (k : K) (sign0 : Z) (p : option Z) :
  0 < capacity table ->
  table_find_entry_sign key_eqb fuel table k sign0 = Ok p ->
  p = None /\ capacity table = count table \/
  exists s e,
    p = Some s /\ 0 <= s /\ slots table !! Z.to_nat s = Some e /\
    (matches key_eqb k sign0 e = true \/ table_is_sentinel_entry e = true) /\
    find_entry_loop key_eqb fuel table k sign0 (home_slot table sign0) 1 None = Ok (Some s).
Proof.
  intros Hcap. unfold table_find_entry_sign.
  destruct (capacity table =? count table) eqn:Ec.
  - intros [= <-]. left. split; [reflexivity | lia].
  - destruct (entries table =? NULL); [discriminate |].
    fold (home_slot table sign0). intros Hrun. right.
    destruct (find_entry_loop_result table k sign0 fuel _ _ None p Hcap
                (home_slot_nonneg table sign0) ltac:(intros r [=]) Hrun)
      as (s & e & -> & Hs & He & Hkind).
    exists s, e. auto.
Qed.

(** A search for [k] that ended at a sentinel: no live entry holds [k]. *)
Lemma found_sentinel_absent (fuel : nat) (table : Table K V) (k : K) (s : Z)
    (e : Table_Entry K V) :
  slots_invariant key_eqb table ->
  find_entry_loop key_eqb fuel table k (live_signature table k)
    (home_slot table (live_signature table k)) 1 None = Ok (Some s) ->
  0 <= s ->
  slots table !! Z.to_nat s = Some e ->
  table_is_sentinel_entry e = true ->
  forall j e', slots table !! j = Some e' -> table_is_sentinel_entry e' = false ->
               key e' <> k.
Proof.
  intros Hinv Hrun Hs He Hsent j e' He' Hlive Hk.
  destruct (inv_findable _ _ Hinv j e' He' Hlive) as [fuel0 Hrun0].
  rewrite (inv_sign _ _ Hinv j e' He' Hlive), Hk in Hrun0.
  pose proof (find_entry_loop_det _ _ _ _ _ _ _ _ _ _ Hrun Hrun0) as Heq.
  injection Heq as ->. rewrite Nat2Z.id in He. congruence.
Qed.

(** An entry matching the search for [k] is live and holds [k]. *)
Lemma matches_live (table : Table K V) (k : K) (e : Table_Entry K V) :
  matches key_eqb k (live_signature table k) e = true ->
  table_is_sentinel_entry e = false /\ key e = k /\ sign e = live_signature table k.
Proof.
  unfold matches. intros H. apply andb_true_iff in H. destruct H as [Hs Hk].
  apply Z.eqb_eq in Hs. apply key_eqb_eq in Hk.
  split; [| auto].
  apply live_cases. rewrite Hs. unfold live_signature.
  apply create_signature_not_sentinel, wrap_range.
Qed.

Lemma holds_functional (table : Table K V) (k : K) (v1 v2 : V) :
  slots_invariant key_eqb table -> holds table k v1 -> holds table k v2 -> v1 = v2.
Proof.
  intros Hinv (j1 & e1 & He1 & Hl1 & Hk1 & Hv1) (j2 & e2 & He2 & Hl2 & Hk2 & Hv2).
  assert (j1 = j2) by (apply (inv_distinct _ _ Hinv j1 j2 e1 e2); congruence).
  subst. congruence.
Qed.

Lemma claim_entry_represents (fuel : nat) (table table2 : Table K V) (m : list (K * V))
    (k : K) (i : Z) :
  represents key_eqb table m ->
  insert_ready table ->
  table_claim_entry key_eqb fuel table k = Ok (i, table2) ->
  exists e,
    0 <= i /\ slots table2 !! Z.to_nat i = Some e /\
    table_is_sentinel_entry e = false /\ key e = k /\
    capacity table2 = capacity table /\ hash_func table2 = hash_func table /\
    entries table2 = entries table /\
    slots_invariant key_eqb table2 /\
    ((spec_find key_eqb k m <> None /\ count table2 = count table) \/
     (spec_find key_eqb k m = None /\ count table2 = count table + 1)) /\
    (forall k' v', k' <> k -> (holds table2 k' v' <-> holds table k' v')).
Proof.
  intros Hrep [Hc (k2 & Hk2 & Hpow & Hload)].
  assert (Hpos : 0 < capacity table) by (rewrite Hpow; apply Z.pow_pos_nonneg; lia).
  assert (H63 : 2 ^ k2 <= 2 ^ 63) by (apply Z.pow_le_mono_r; lia).
  unfold LOAD_FACTOR in Hload.
  pose proof (rep_slots _ _ _ Hrep ltac:(lia)) as Hinv.
  unfold table_claim_entry. fold (live_signature table k).
  destruct (table_find_entry_sign key_eqb fuel table k (live_signature table k))
    as [p | |] eqn:Efind; try discriminate.
  destruct (find_entry_sign_result _ _ _ _ _ Hpos Efind)
    as [[-> _] | (s & e & -> & Hs & He & Hkind & Hrun)]; [discriminate |].
  rewrite He.
  destruct (table_is_sentinel_entry e) eqn:Esent.
  - intros [= <- <-]. cbn [capacity hash_func entries count slots].
    destruct Hkind as [Hm | _].
    { apply matches_live in Hm. destruct Hm as [Hl _]. congruence. }
    pose proof (found_sentinel_absent fuel table k s e Hinv Hrun Hs He Esent) as Habsent.
    destruct (fill_slots_invariant table
                (mkTable (wrap (count table + 1)) (entries table) (capacity table)
                   (allocator table) (hash_func table)
                   (<[Z.to_nat s := mkEntry k (value e) (live_signature table k)]>
                      (slots table)))
                k (value e) s e Hinv eq_refl eq_refl Hs He Esent eq_refl
                (ex_intro _ fuel Hrun) Habsent) as [Hinv2 Hholds2].
    exists (mkEntry k (value e) (live_signature table k)).
    split; [exact Hs |]. split.
    { apply list_lookup_insert_eq. apply lookup_lt_Some in He. exact He. }
    split; [apply live_signature_live |]. split; [reflexivity |].
    split; [reflexivity |]. split; [reflexivity |]. split; [reflexivity |].
    split; [exact Hinv2 |]. split.
    + right. split; [| apply wrap_small; lia].
      destruct (spec_find key_eqb k m) as [v |] eqn:Ef; [| reflexivity].
      exfalso. apply (rep_holds _ _ _ Hrep) in Ef.
      destruct Ef as (j & e' & He' & Hl' & Hk' & _).
      exact (Habsent j e' He' Hl' Hk').
    + intros k' v' Hne. rewrite Hholds2. split; [| auto].
      intros [[-> _] | H]; [contradiction | exact H].
  - intros [= <- <-].
    destruct Hkind as [Hm | Hsent]; [| congruence].
    apply matches_live in Hm. destruct Hm as (Hl & Hk & _).
    exists e.
    split; [exact Hs |]. split; [exact He |]. split; [exact Hl |]. split; [exact Hk |].
    split; [reflexivity |]. split; [reflexivity |]. split; [reflexivity |].
    split; [exact Hinv |]. split; [| reflexivity].
    left. split; [| reflexivity].
    assert (Hh : holds table k (value e)) by (exists (Z.to_nat s), e; auto).
    apply (rep_holds _ _ _ Hrep) in Hh. congruence.
Qed.

(** One round of the loop of [table_expand] moves one more entry. *)
Lemma expand_step_copied (fuel : nat) (old copy copy' : Table K V) (i : nat)
    (ptr : Table_Entry K V) :
  (forall j e, slots old !! j = Some e -> table_is_sentinel_entry e = false ->
               sign e = live_signature old (key e)) ->
  (forall j1 j2 e1 e2,
     slots old !! j1 = Some e1 -> slots old !! j2 = Some e2 ->
     table_is_sentinel_entry e1 = false -> table_is_sentinel_entry e2 = false ->
     key e1 = key e2 -> j1 = j2) ->
  copied_upto key_eqb old copy i ->
  slots old !! i = Some ptr ->
  expand_step key_eqb fuel ptr copy = Ok copy' ->
  copied_upto key_eqb old copy' (S i).
Proof.
  intros Hsign_old Hdist_old (Hinv & Hh & Hholds) Hptr.
  unfold expand_step.
  destruct (table_is_sentinel_entry ptr) eqn:Esent; cbn [negb].
  - intros [= <-]. split; [exact Hinv |]. split; [exact Hh |].
    intros k v. rewrite Hholds. split.
    + intros (j & e & Hj & He & Hrest). exists j, e. split; [lia | auto].
    + intros (j & e & Hj & He & Hl & Hrest).
      assert (j <> i) by (intros ->; congruence).
      exists j, e. split; [lia | auto].
  - assert (Hsig : sign ptr = live_signature copy (key ptr)).
    { rewrite (Hsign_old i ptr Hptr Esent). unfold live_signature. rewrite Hh. reflexivity. }
    rewrite Hsig.
    destruct (table_find_entry_sign key_eqb fuel copy (key ptr) (live_signature copy (key ptr)))
      as [p | |] eqn:Efind; try discriminate.
    destruct (find_entry_sign_result _ _ _ _ _ (proj1 (inv_capacity _ _ Hinv)) Efind)
      as [[-> _] | (s & e & -> & Hs & He & Hkind & Hrun)]; [discriminate |].
    rewrite He. intros [= <-].
    assert (Habsent : forall j e', slots copy !! j = Some e' ->
              table_is_sentinel_entry e' = false -> key e' <> key ptr).
    { intros j e' He' Hl' Hk.
      assert (Hc : holds copy (key ptr) (value e')) by (exists j, e'; auto).
      apply Hholds in Hc. destruct Hc as (j0 & e0 & Hj0 & He0 & Hl0 & Hk0 & _).
      assert (j0 = i) by (apply (Hdist_old j0 i e0 ptr); auto). lia. }
    assert (Esent' : table_is_sentinel_entry e = true).
    { destruct Hkind as [Hm | Hsent]; [| exact Hsent].
      apply matches_live in Hm. destruct Hm as (Hl & Hk & _).
      exfalso. exact (Habsent _ e He Hl Hk). }
    destruct (fill_slots_invariant copy
                (mkTable (count copy) (entries copy) (capacity copy) (allocator copy)
                   (hash_func copy)
                   (<[Z.to_nat s := mkEntry (key ptr) (value ptr)
                                      (live_signature copy (key ptr))]> (slots copy)))
                (key ptr) (value ptr) s e Hinv eq_refl eq_refl Hs He Esent' eq_refl
                (ex_intro _ fuel Hrun) Habsent) as [Hinv2 Hholds2].
    split; [exact Hinv2 |]. split; [exact Hh |].
    intros k v. rewrite Hholds2, Hholds. split.
    + intros [[-> ->] | (j & e0 & Hj & Hrest)].
      * exists i, ptr. split; [lia | auto].
      * exists j, e0. split; [lia | auto].
    + intros (j & e0 & Hj & He0 & Hl0 & Hk0 & Hv0).
      destruct (Nat.eq_dec j i) as [-> | Hne].
      * left. assert (e0 = ptr) by congruence. subst. auto.
      * right. exists j, e0. split; [lia | auto].
Qed.

Lemma expand_loop_copied (fuel : nat) (old : Table K V) (n : nat) :
  (forall j e, slots old !! j = Some e -> table_is_sentinel_entry e = false ->
               sign e = live_signature old (key e)) ->
  (forall j1 j2 e1 e2,
     slots old !! j1 = Some e1 -> slots old !! j2 = Some e2 ->
     table_is_sentinel_entry e1 = false -> table_is_sentinel_entry e2 = false ->
     key e1 = key e2 -> j1 = j2) ->
  forall (i : nat) (copy copy' : Table K V),
    copied_upto key_eqb old copy i ->
    expand_loop key_eqb fuel (slots old) i n copy = Ok copy' ->
    copied_upto key_eqb old copy' (i + n).
Proof.
  intros Hsign_old Hdist_old.
  induction n as [| n IH]; intros i copy copy' Hcopied; cbn [expand_loop].
  - intros [= <-]. rewrite Nat.add_0_r. exact Hcopied.
  - destruct (slots old !! i) as [ptr |] eqn:Hptr; [| discriminate].
    destruct (expand_step key_eqb fuel ptr copy) as [copy1 | |] eqn:Estep; try discriminate.
    intros Hrest.
    pose proof (expand_step_copied fuel old copy copy1 i ptr Hsign_old Hdist_old
                  Hcopied Hptr Estep) as Hcopied1.
    replace (i + S n)%nat with (S i + n)%nat by lia.
    exact (IH (S i) copy1 copy' Hcopied1 Hrest).
Qed.

(** [table_expand] keeps what the table stands for. *)
Lemma table_expand_represents (fuel : nat) (table table' : Table K V) (m : list (K * V))
    (capacity0 : Z) (w w' : World) :
  represents key_eqb table m ->
  0 <= capacity table ->
  0 < Memory.nextpow2 capacity0 < 2 ^ 64 ->
  table_expand key_eqb allocator_alloc fuel table capacity0 w = Ok (table', w') ->
  represents key_eqb table' m /\ hash_func table' = hash_func table.
Proof.
  intros Hrep Hcap0 Hnew Hexp.
  pose proof (table_expand_fields key_eqb allocator_alloc _ _ _ _ _ _ Hexp)
    as (Hcount & Hcap & _ & Hent & _ & _).
  revert Hexp. unfold table_expand.
  destruct (capacity0 =? 0); [discriminate |].
  destruct (capacity0 <? capacity table); [discriminate |].
  unfold mem_alloc.
  destruct (_ =? NULL); [discriminate |].
  destruct (2 ^ 64 <=? _); [discriminate |].
  set (copy0 := mkTable (count table) _ (Memory.nextpow2 capacity0) (allocator table)
                        (hash_func table) _).
  destruct (expand_loop key_eqb fuel (slots table) 0 (Z.to_nat (capacity table)) copy0)
    as [copy' | |] eqn:Eloop; try discriminate.
  intros [= <- <-].
  assert (Hold : (forall j e, slots table !! j = Some e -> table_is_sentinel_entry e = false ->
                     sign e = live_signature table (key e)) /\
                 (forall j1 j2 e1 e2,
                     slots table !! j1 = Some e1 -> slots table !! j2 = Some e2 ->
                     table_is_sentinel_entry e1 = false ->
                     table_is_sentinel_entry e2 = false ->
                     key e1 = key e2 -> j1 = j2) /\
                 length (slots table) = Z.to_nat (capacity table)).
  { destruct (Z.eq_dec (capacity table) 0) as [Hz | Hnz].
    - rewrite (rep_null _ _ _ Hrep Hz), Hz.
      split; [| split]; [intros j e He; rewrite lookup_nil in He; discriminate
                        | intros j1 j2 e1 e2 He; rewrite lookup_nil in He; discriminate
                        | reflexivity].
    - pose proof (rep_slots _ _ _ Hrep Hnz) as Hinv.
      split; [| split];
        [exact (inv_sign _ _ Hinv) | exact (inv_distinct _ _ Hinv) | exact (inv_length _ _ Hinv)]. }
  destruct Hold as (Hsign_old & Hdist_old & Hlen_old).
  assert (Hcopied0 : copied_upto key_eqb table copy0 0).
  { assert (Hzero : forall j e, slots copy0 !! j = Some e -> table_is_sentinel_entry e = true).
    { intros j e He. unfold copy0 in He. cbn [slots] in He.
      apply lookup_replicate in He. destruct He as [-> _]. reflexivity. }
    split; [constructor |].
    - exact Hnew.
    - unfold copy0. cbn [slots capacity]. apply length_replicate.
    - intros j e He Hl. rewrite (Hzero j e He) in Hl. discriminate.
    - intros j1 j2 e1 e2 He1 _ Hl1. rewrite (Hzero j1 e1 He1) in Hl1. discriminate.
    - intros j e He Hl. rewrite (Hzero j e He) in Hl. discriminate.
    - split; [reflexivity |]. intros k v. split.
      + intros (j & e & He & Hl & _). rewrite (Hzero j e He) in Hl. discriminate.
      + intros (j & e & Hj & _). lia. }
  pose proof (expand_loop_copied fuel table _ Hsign_old Hdist_old 0%nat copy0 copy'
                Hcopied0 Eloop) as (Hinv' & Hh' & Hholds').
  split; [| exact Hh'].
  constructor.
  - exact (rep_nodup _ _ _ Hrep).
  - intros Hz. lia.
  - intros _. exact Hent.
  - intros _. exact Hinv'.
  - intros k v. rewrite <- (rep_holds _ _ _ Hrep k v). rewrite Hholds'. split.
    + intros (j & e & _ & Hrest). exists j, e. exact Hrest.
    + intros (j & e & He & Hrest). exists j, e. split; [| auto].
      apply lookup_lt_Some in He. lia.
  - rewrite Hcount. exact (rep_count _ _ _ Hrep).
Qed.

Lemma grow_check_represents (fuel : nat) (table table1 : Table K V) (m : list (K * V))
    (w w1 : World) :
  represents key_eqb table m ->
  load_invariant table ->
  table_grow_check key_eqb allocator_alloc fuel table w = Ok (table1, w1) ->
  represents key_eqb table1 m /\ hash_func table1 = hash_func table.
Proof.
  intros Hrep Hload Hgrow.
  pose proof (grow_check_ready key_eqb allocator_alloc fuel table table1 w w1 Hload Hgrow)
    as [_ (k1 & Hk1 & Hpow1 & _)].
  assert (Hcap0 : 0 <= capacity table).
  { destruct Hload as [_ [[-> _] | (k & Hk & -> & _)]]; [lia |].
    apply Z.lt_le_incl, Z.pow_pos_nonneg; lia. }
  assert (Hrange : 0 < capacity table1 < 2 ^ 64).
  { rewrite Hpow1. split; [apply Z.pow_pos_nonneg; lia | apply Z.pow_lt_mono_r; lia]. }
  revert Hgrow. unfold table_grow_check.
  destruct (_ >=? _).
  - destruct (capacity table >=? MIN_CAPACITY); intros Hexp;
      pose proof (table_expand_fields key_eqb allocator_alloc _ _ _ _ _ _ Hexp)
        as (_ & Hcap & _);
      rewrite Hcap in Hrange;
      exact (table_expand_represents fuel table table1 m _ w w1 Hrep Hcap0 Hrange Hexp).
  - intros [= <- <-]. auto.
Qed.

(** [table_update] stands for [spec_update], and returns the slot of the
    stored value. *)
Lemma table_update_represents (fuel : nat) (table table3 : Table K V) (m : list (K * V))
    (k : K) (v : V) (i : Z) (w w3 : World) :
  represents key_eqb table m ->
  load_invariant table ->
  table_update key_eqb allocator_alloc fuel table k v w = Ok (i, table3, w3) ->
  represents key_eqb table3 (spec_update key_eqb k v m) /\
  hash_func table3 = hash_func table /\
  value_at table3 (Some i) = Some v.
Proof.
  intros Hrep Hload. unfold table_update, table_create_entry.
  destruct (table_grow_check key_eqb allocator_alloc fuel table w)
    as [[table1 w1] | |] eqn:Egrow; try discriminate.
  pose proof (grow_check_ready key_eqb allocator_alloc _ _ _ _ _ Hload Egrow) as Hready.
  destruct (grow_check_represents _ _ _ _ _ _ Hrep Hload Egrow) as [Hrep1 Hh1].
  destruct (table_claim_entry key_eqb fuel table1 k) as [[i2 table2] | |] eqn:Eclaim;
    try discriminate.
  destruct (claim_entry_represents _ _ _ _ _ _ Hrep1 Hready Eclaim)
    as (e & Hi & He & Hlive & Hk & Hcap2 & Hh2 & Hent2 & Hinv2 & Hcount2 & Hholds2).
  rewrite He. intros [= <- <- <-].
  destruct Hready as [Hc1 (k1 & Hk1 & Hpow1 & _)].
  assert (Hpos1 : 0 < capacity table1) by (rewrite Hpow1; apply Z.pow_pos_nonneg; lia).
  destruct (set_value_slots_invariant table2
              (mkTable (count table2) (entries table2) (capacity table2) (allocator table2)
                 (hash_func table2)
                 (<[Z.to_nat i2 := mkEntry (key e) v (sign e)]> (slots table2)))
              (Z.to_nat i2) e v Hinv2 eq_refl eq_refl He Hlive eq_refl)
    as [Hinv3 Hholds3].
  split; [| split].
  - constructor; cbn [capacity entries count slots].
    + apply spec_update_nodup. exact (rep_nodup _ _ _ Hrep).
    + intros Hz. lia.
    + intros _. rewrite Hent2. apply (rep_entries _ _ _ Hrep1). lia.
    + intros _. exact Hinv3.
    + intros k' v'. rewrite Hholds3, Hk, spec_find_update.
      destruct (key_eqb k' k) eqn:Ek.
      * apply key_eqb_eq in Ek. subst k'. split.
        -- intros [[_ ->] | [Hne _]]; [reflexivity | contradiction].
        -- intros [= ->]. left. auto.
      * assert (Hne : k' <> k) by (intros ->; rewrite key_eqb_refl in Ek; discriminate).
        rewrite <- (rep_holds _ _ _ Hrep1 k' v'), <- (Hholds2 k' v' Hne). split.
        -- intros [[-> _] | [_ H]]; [contradiction | exact H].
        -- intros H. right. auto.
    + pose proof (rep_count _ _ _ Hrep1) as Hcount1.
      pose proof (rep_nodup _ _ _ Hrep) as Hnd.
      unfold spec_update. cbn [length].
      destruct Hcount2 as [[Hpres ->] | [Habs ->]].
      * destruct (spec_find key_eqb k m) as [v0 |] eqn:Ef; [| contradiction].
        rewrite (spec_remove_present k v0 m Hnd Ef). exact Hcount1.
      * rewrite (spec_remove_absent k m Habs). lia.
  - cbn [hash_func]. congruence.
  - cbn [value_at slots].
    rewrite list_lookup_insert_eq by (apply lookup_lt_Some in He; exact He).
    reflexivity.
Qed.

(** [table_remove] stands for [spec_remove], and tells whether the key was
    live. *)
Lemma table_remove_represents (fuel : nat) (table table2 : Table K V) (m : list (K * V))
    (k : K) (removed : bool) :
  represents key_eqb table m ->
  load_invariant table ->
  table_remove key_eqb fuel table k = Ok (removed, table2) ->
  represents key_eqb table2 (spec_remove key_eqb k m) /\
  hash_func table2 = hash_func table /\
  (removed = true <-> spec_find key_eqb k m <> None).
Proof.
  intros Hrep Hload. unfold table_remove.
  destruct (count table >? 0) eqn:Ecount.
  - destruct Hload as [Hc [[_ Hcz] | (k1 & Hk1 & Hpow1 & Hload)]]; [lia |].
    unfold LOAD_FACTOR in Hload.
    assert (Hpos : 0 < capacity table) by (rewrite Hpow1; apply Z.pow_pos_nonneg; lia).
    assert (H63 : 2 ^ k1 <= 2 ^ 63) by (apply Z.pow_le_mono_r; lia).
    pose proof (rep_slots _ _ _ Hrep ltac:(lia)) as Hinv.
    unfold table_find_entry. fold (live_signature table k).
    destruct (table_find_entry_sign key_eqb fuel table k (live_signature table k))
      as [p | |] eqn:Efind; try discriminate.
    destruct (find_entry_sign_result _ _ _ _ _ Hpos Efind)
      as [[-> _] | (s & e & -> & Hs & He & Hkind & Hrun)]; [discriminate |].
    cbn [entry_at]. rewrite He.
    destruct (table_is_sentinel_entry e) eqn:Esent; cbn [negb]; intros [= <- <-].
    + pose proof (found_sentinel_absent fuel table k s e Hinv Hrun Hs He Esent) as Habsent.
      assert (Hnone : spec_find key_eqb k m = None).
      { destruct (spec_find key_eqb k m) as [v |] eqn:Ef; [| reflexivity].
        exfalso. apply (rep_holds _ _ _ Hrep) in Ef.
        destruct Ef as (j & e' & He' & Hl' & Hk' & _).
        exact (Habsent j e' He' Hl' Hk'). }
      rewrite (spec_remove_absent k m Hnone).
      split; [exact Hrep |]. split; [reflexivity |]. rewrite Hnone.
      split; [discriminate | contradiction].
    + destruct Hkind as [Hm | Hsent]; [| congruence].
      apply matches_live in Hm. destruct Hm as (_ & Hk & _).
      destruct (remove_slots_invariant table
                  (mkTable (wrap (count table - 1)) (entries table) (capacity table)
                     (allocator table) (hash_func table)
                     (<[Z.to_nat s := mkEntry (key e) (value e) TOMBSTONE]> (slots table)))
                  (Z.to_nat s) e Hinv eq_refl eq_refl He Esent eq_refl)
        as [Hinv2 Hholds2].
      assert (Hsome : spec_find key_eqb k m = Some (value e)).
      { apply (rep_holds _ _ _ Hrep). exists (Z.to_nat s), e. auto. }
      split; [| split].
      * constructor; cbn [capacity entries count slots].
        -- apply spec_remove_nodup. exact (rep_nodup _ _ _ Hrep).
        -- intros Hz. lia.
        -- intros _. apply (rep_entries _ _ _ Hrep). lia.
        -- intros _. exact Hinv2.
        -- intros k' v'. rewrite Hholds2, Hk, spec_find_remove.
           rewrite (rep_holds _ _ _ Hrep k' v').
           destruct (key_eqb k' k) eqn:Ek.
           ++ apply key_eqb_eq in Ek. subst k'. split; [intros [H _]; contradiction | discriminate].
           ++ assert (Hne : k' <> k) by (intros ->; rewrite key_eqb_refl in Ek; discriminate).
              split; [intros [_ H]; exact H | auto].
        -- pose proof (spec_remove_present k (value e) m (rep_nodup _ _ _ Hrep) Hsome) as Hlen.
           pose proof (rep_count _ _ _ Hrep) as Hcnt.
           rewrite wrap_small by lia. lia.
      * reflexivity.
      * rewrite Hsome. split; [discriminate | reflexivity].
  - intros [= <- <-].
    assert (Hm : m = []).
    { pose proof (rep_count _ _ _ Hrep) as Hcnt. destruct Hload as [Hc _].
      destruct m; [reflexivity | cbn [length] in Hcnt; lia]. }
    subst m. split; [exact Hrep |]. split; [reflexivity |].
    split; [discriminate | intros H; exfalso; apply H; reflexivity].
Qed.

(** *** Runs of operations *)

Lemma make_table_represents (hash_func0 : K -> Z) (allocator0 : Z) :
  represents key_eqb (make_table hash_func0 allocator0 : Table K V) [].
Proof.
  constructor; cbn.
  - constructor.
  - reflexivity.
  - intros H. contradiction.
  - intros H. contradiction.
  - intros k v. split.
    + intros (j & e & He & _). destruct j; discriminate.
    + discriminate.
  - reflexivity.
Qed.

Lemma apply_op_represents (fuel : nat) (op : Op) (table table' : Table K V)
    (m : list (K * V)) (w w' : World) :
  is_clear op = false ->
  load_invariant table ->
  represents key_eqb table m ->
  apply_op key_eqb allocator_alloc fuel op (table, w) = Ok (table', w') ->
  represents key_eqb table' (spec_step key_eqb m op) /\ hash_func table' = hash_func table.
Proof.
  intros Hop Hload Hrep. destruct op as [k v | k |]; cbn [apply_op spec_step]; [| | discriminate].
  - destruct (table_update key_eqb allocator_alloc fuel table k v w)
      as [[[i table3] w3] | |] eqn:E; try discriminate.
    intros [= <- <-].
    destruct (table_update_represents _ _ _ _ _ _ _ _ _ Hrep Hload E) as (H1 & H2 & _). auto.
  - destruct (table_remove key_eqb fuel table k) as [[removed table2] | |] eqn:E;
      try discriminate.
    intros [= <- <-].
    destruct (table_remove_represents _ _ _ _ _ _ Hrep Hload E) as (H1 & H2 & _). auto.
Qed.

Lemma apply_ops_represents (fuel : nat) (ops : list Op) :
  forall (table table' : Table K V) (m : list (K * V)) (w w' : World),
    Forall (fun op => is_clear op = false) ops ->
    load_invariant table ->
    represents key_eqb table m ->
    apply_ops key_eqb allocator_alloc fuel ops (table, w) = Ok (table', w') ->
    load_invariant table' /\
    represents key_eqb table' (fold_left (spec_step key_eqb) ops m) /\
    hash_func table' = hash_func table.
Proof.
  induction ops as [| op ops IH]; intros table table' m w w' Hops Hload Hrep;
    cbn [apply_ops fold_left].
  - intros [= <- <-]. auto.
  - apply Forall_cons in Hops. destruct Hops as [Hop Hops].
    destruct (apply_op key_eqb allocator_alloc fuel op (table, w)) as [[table1 w1] | |] eqn:E;
      try discriminate.
    intros Hrest.
    pose proof (apply_op_invariant key_eqb allocator_alloc _ _ _ _ _ _ Hload E) as Hload1.
    destruct (apply_op_represents _ _ _ _ _ _ _ Hop Hload Hrep E) as [Hrep1 Hh1].
    destruct (IH _ _ _ _ _ Hops Hload1 Hrep1 Hrest) as (H1 & H2 & H3).
    split; [exact H1 |]. split; [exact H2 | congruence].
Qed.

(** What [table_find] returns on a table that represents [m]. *)
Lemma table_find_represents (fuel : nat) (table : Table K V) (m : list (K * V))
    (k : K) (p : option Z) :
  load_invariant table ->
  represents key_eqb table m ->
  table_find key_eqb fuel table k = Ok p ->
  value_at table p = spec_find key_eqb k m.
Proof.
  intros Hload Hrep. unfold table_find.
  destruct (capacity table =? 0) eqn:Ecap.
  - intros [= <-]. cbn [value_at].
    destruct (spec_find key_eqb k m) as [v |] eqn:Ef; [| reflexivity].
    apply (rep_holds _ _ _ Hrep) in Ef. destruct Ef as (j & e & He & _).
    rewrite (rep_null _ _ _ Hrep ltac:(lia)), lookup_nil in He. discriminate.
  - assert (Hpos : 0 < capacity table).
    { destruct Hload as [_ [[Hz _] | (k1 & Hk1 & -> & _)]]; [lia |].
      apply Z.pow_pos_nonneg; lia. }
    pose proof (rep_slots _ _ _ Hrep ltac:(lia)) as Hinv.
    unfold table_find_entry. fold (live_signature table k).
    destruct (table_find_entry_sign key_eqb fuel table k (live_signature table k))
      as [q | |] eqn:Efind; try discriminate.
    destruct (find_entry_sign_result _ _ _ _ _ Hpos Efind)
      as [[-> _] | (s & e & -> & Hs & He & Hkind & Hrun)]; [discriminate |].
    cbn [entry_at]. rewrite He.
    destruct (table_is_sentinel_entry e) eqn:Esent; cbn [negb]; intros [= <-].
    + cbn [value_at].
      destruct (spec_find key_eqb k m) as [v |] eqn:Ef; [| reflexivity].
      exfalso. apply (rep_holds _ _ _ Hrep) in Ef.
      destruct Ef as (j & e' & He' & Hl' & Hk' & _).
      exact (found_sentinel_absent fuel table k s e Hinv Hrun Hs He Esent j e' He' Hl' Hk').
    + cbn [value_at]. rewrite He. cbn.
      destruct Hkind as [Hm | Hsent]; [| congruence].
      apply matches_live in Hm. destruct Hm as (_ & Hk & _).
      symmetry. apply (rep_holds _ _ _ Hrep). exists (Z.to_nat s), e. auto.
Qed.

(** The search returns within [n + 1] rounds when its [n]-th probe meets
    an empty slot. *)
Lemma find_entry_loop_reaches (table : Table K V) (k : K) (sign0 : Z) :
  0 < capacity table ->
  length (slots table) = Z.to_nat (capacity table) ->
  forall (n : nat) (i probe : Z) (fr : option Z) (j : Z),
    0 <= i < capacity table ->
    probe_indices (capacity table) (S n) (i, probe) !! n = Some j ->
    (exists e, slots table !! Z.to_nat j = Some e /\ sign e = EMPTY) ->
    exists r, find_entry_loop key_eqb (S n) table k sign0 i probe fr = Ok r.
Proof.
  intros Hcap Hlen. induction n as [| n IH]; intros i probe fr j Hi Hprobe Hempty;
    rewrite find_entry_loop_round.
  - cbn in Hprobe. injection Hprobe as <-.
    destruct Hempty as (e & He & Hs). rewrite He. unfold EMPTY in Hs.
    rewrite Hs. cbn. eauto.
  - destruct (lookup_lt_is_Some_2 (slots table) (Z.to_nat i) ltac:(lia)) as [e He].
    rewrite He.
    destruct (sign e =? 0); [eauto |].
    destruct (matches key_eqb k sign0 e); [eauto |].
    destruct (capacity table =? 0) eqn:Ec; [lia |].
    pose proof (probe_next_range (capacity table) i probe Hcap) as Hr.
    change (probe_indices (capacity table) (S (S n)) (i, probe) !! S n)
      with (probe_indices (capacity table) (S n) (probe_next (capacity table) (i, probe)) !! n)
      in Hprobe.
    destruct (probe_next (capacity table) (i, probe)) as [i' probe'] eqn:Enext.
    cbn [fst snd] in *.
    exact (IH i' probe' _ j Hr Hprobe Hempty).
Qed.

(** [table_find] returns for a live key, and for any key when the table
    has an empty slot. *)
Lemma table_find_returns (table : Table K V) (m : list (K * V)) (k : K) :
  load_invariant table ->
  represents key_eqb table m ->
  spec_find key_eqb k m <> None \/
  (exists j e, slots table !! j = Some e /\ sign e = EMPTY) \/
  capacity table = 0 ->
  exists fuel p, table_find key_eqb fuel table k = Ok p.
Proof.
  intros Hload Hrep Hcase. unfold table_find.
  destruct (capacity table =? 0) eqn:Ecap; [exists 0%nat; eauto |].
  destruct Hload as [Hc [[Hz _] | (k1 & Hk1 & Hpow & Hld)]]; [lia |].
  unfold LOAD_FACTOR in Hld.
  assert (Hpos : 0 < capacity table) by (rewrite Hpow; apply Z.pow_pos_nonneg; lia).
  pose proof (rep_slots _ _ _ Hrep ltac:(lia)) as Hinv.
  pose proof (rep_entries _ _ _ Hrep ltac:(lia)) as Hent.
  assert (Hloop : exists fuel r,
            find_entry_loop key_eqb fuel table k (live_signature table k)
              (home_slot table (live_signature table k)) 1 None = Ok r).
  { destruct Hcase as [Hpresent | [(j & e & He & Hs) | Hz]]; [| | lia].
    - destruct (spec_find key_eqb k m) as [v |] eqn:Ef; [| contradiction].
      apply (rep_holds _ _ _ Hrep) in Ef. destruct Ef as (j & e & He & Hl & Hk & _).
      destruct (inv_findable _ _ Hinv j e He Hl) as [fuel Hrun].
      rewrite (inv_sign _ _ Hinv j e He Hl), Hk in Hrun. eauto.
    - assert (Hj : 0 <= Z.of_nat j < 2 ^ k1).
      { apply lookup_lt_Some in He. rewrite (inv_length _ _ Hinv) in He. lia. }
      assert (Hhome : 0 <= home_slot table (live_signature table k) < 2 ^ k1).
      { pose proof (home_slot_nonneg table (live_signature table k)).
        unfold home_slot in *.
        pose proof (land_bounds (Z.land (live_signature table k) 0x3FFFFFFFFFFFFFFF)
                      (wrap (capacity table - 1))
                      ltac:(apply Z.land_nonneg; right; lia)
                      (proj1 (wrap_range _))) as Hb.
        pose proof (inv_capacity _ _ Hinv).
        rewrite (wrap_small (capacity table - 1)) in * by lia.
        rewrite <- Hpow. lia. }
      destruct (probe_reaches_slot k1 _ (Z.of_nat j) ltac:(lia) Hhome Hj) as [n Hn].
      rewrite <- Hpow in Hn.
      destruct (find_entry_loop_reaches table k (live_signature table k) Hpos
                  (inv_length _ _ Hinv) n _ 1 None (Z.of_nat j)
                  ltac:(rewrite Hpow; exact Hhome) Hn) as [r Hr].
      { exists e. rewrite Nat2Z.id. auto. }
      eauto. }
  destruct Hloop as (fuel & r & Hrun). exists fuel.
  unfold table_find_entry, table_find_entry_sign.
  replace (capacity table =? count table) with false by lia.
  replace (entries table =? NULL) with false by lia.
  fold (live_signature table k). fold (home_slot table (live_signature table k)).
  rewrite Hrun.
  destruct (find_entry_loop_result table k _ fuel _ _ None r Hpos
              (home_slot_nonneg _ _) ltac:(intros ? [=]) Hrun)
    as (s & e & -> & Hs & He & _).
  cbn [entry_at]. rewrite He. destruct (negb (table_is_sentinel_entry e)); eauto.
Qed.

(** Functional correctness of [table_update], [table_remove] and
    [table_find], for keys whose [operator==] is equality, on every run
    that returns.  After any sequence of updates and removals from
    [make_table], [count] is the number of live keys; [table_find],
    whenever it returns, points to the value most recently stored for the
    key since it was last removed, and is null when there is none; and
    [table_find] does return for every live key, and for every key as long
    as one slot of the table is empty. *)
Theorem table_update_remove_correct
    (hash_func0 : K -> Z) (allocator0 : Z) (w0 w : World) (fuel : nat)
    (ops : list Op) (table : Table K V) :
  Forall (fun op => is_clear op = false) ops ->
  apply_ops key_eqb allocator_alloc fuel ops (make_table hash_func0 allocator0, w0)
    = Ok (table, w) ->
  count table = Z.of_nat (length (spec_run key_eqb ops)) /\
  NoDup (map fst (spec_run key_eqb ops)) /\
  (forall (fuel' : nat) (k : K) (p : option Z),
     table_find key_eqb fuel' table k = Ok p ->
     value_at table p = spec_find key_eqb k (spec_run key_eqb ops)) /\
  (forall k : K,
     spec_find key_eqb k (spec_run key_eqb ops) <> None \/
     (exists j e, slots table !! j = Some e /\ sign e = EMPTY) \/
     capacity table = 0 ->
     exists (fuel' : nat) (p : option Z), table_find key_eqb fuel' table k = Ok p).
Proof.
  intros Hops Hrun.
  assert (Hload0 : load_invariant (make_table hash_func0 allocator0 : Table K V)).
  { split; [cbn; lia |]. left. auto. }
  destruct (apply_ops_represents fuel ops _ _ [] _ _ Hops Hload0
              (make_table_represents hash_func0 allocator0) Hrun)
    as (Hload & Hrep & _).
  fold (spec_run key_eqb ops) in Hrep.
  split; [exact (rep_count _ _ _ Hrep) |].
  split; [exact (rep_nodup _ _ _ Hrep) |].
  split.
  - intros fuel' k p. exact (table_find_represents fuel' table _ k p Hload Hrep).
  - intros k. exact (table_find_returns table _ k Hload Hrep).
Qed.

(** *** Runs from [make_table]: removal, growth, [operator[]], iteration *)

Lemma run_represents (hash_func0 : K -> Z) (allocator0 : Z) (w0 w : World) (fuel : nat)
    (ops : list Op) (table : Table K V) :
  Forall (fun op => is_clear op = false) ops ->
  apply_ops key_eqb allocator_alloc fuel ops (make_table hash_func0 allocator0, w0)
    = Ok (table, w) ->
  load_invariant table /\ represents key_eqb table (spec_run key_eqb ops).
Proof.
  intros Hops Hrun.
  assert (Hload0 : load_invariant (make_table hash_func0 allocator0 : Table K V)).
  { split; [cbn; lia |]. left. auto. }
  destruct (apply_ops_represents fuel ops _ _ [] _ _ Hops Hload0
              (make_table_represents hash_func0 allocator0) Hrun)
    as (Hload & Hrep & _).
  split; assumption.
Qed.

Lemma table_find_in_range (fuel : nat) (table : Table K V) (k : K) (i : Z) :
  table_find key_eqb fuel table k = Ok (Some i) ->
  exists e, slots table !! Z.to_nat i = Some e /\ table_is_sentinel_entry e = false /\
            value_at table (Some i) = Some (value e).
Proof.
  unfold table_find. destruct (capacity table =? 0); [discriminate |].
  destruct (table_find_entry key_eqb fuel table k) as [p | |]; try discriminate.
  destruct p as [j |]; cbn [entry_at]; [| discriminate].
  destruct (slots table !! Z.to_nat j) as [e |] eqn:He; [| discriminate].
  destruct (table_is_sentinel_entry e) eqn:Es; cbn [negb]; intros [= <-].
  exists e. cbn [value_at]. rewrite He. auto.
Qed.

Lemma table_find_represents_pos (fuel : nat) (table : Table K V) (m : list (K * V))
    (k : K) (p : option Z) :
  0 <= capacity table ->
  represents key_eqb table m ->
  table_find key_eqb fuel table k = Ok p ->
  value_at table p = spec_find key_eqb k m.
Proof.
  intros Hcap Hrep. unfold table_find.
  destruct (capacity table =? 0) eqn:Ecap.
  - intros [= <-]. cbn [value_at].
    destruct (spec_find key_eqb k m) as [v |] eqn:Ef; [| reflexivity].
    apply (rep_holds _ _ _ Hrep) in Ef. destruct Ef as (j & e & He & _).
    rewrite (rep_null _ _ _ Hrep ltac:(lia)), lookup_nil in He. discriminate.
  - assert (Hpos : 0 < capacity table) by lia.
    pose proof (rep_slots _ _ _ Hrep ltac:(lia)) as Hinv.
    unfold table_find_entry. fold (live_signature table k).
    destruct (table_find_entry_sign key_eqb fuel table k (live_signature table k))
      as [q | |] eqn:Efind; try discriminate.
    destruct (find_entry_sign_result _ _ _ _ _ Hpos Efind)
      as [[-> _] | (s & e & -> & Hs & He & Hkind & Hrun)]; [discriminate |].
    cbn [entry_at]. rewrite He.
    destruct (table_is_sentinel_entry e) eqn:Esent; cbn [negb]; intros [= <-].
    + cbn [value_at].
      destruct (spec_find key_eqb k m) as [v |] eqn:Ef; [| reflexivity].
      exfalso. apply (rep_holds _ _ _ Hrep) in Ef.
      destruct Ef as (j & e' & He' & Hl' & Hk' & _).
      exact (found_sentinel_absent fuel table k s e Hinv Hrun Hs He Esent j e' He' Hl' Hk').
    + cbn [value_at]. rewrite He. cbn.
      destruct Hkind as [Hm | Hsent]; [| congruence].
      apply matches_live in Hm. destruct Hm as (_ & Hk & _).
      symmetry. apply (rep_holds _ _ _ Hrep). exists (Z.to_nat s), e. auto.
Qed.

Lemma table_remove_fields (fuel : nat) (table table2 : Table K V) (k : K) (removed : bool) :
  table_remove key_eqb fuel table k = Ok (removed, table2) ->
  capacity table2 = capacity table /\ (removed = false -> table2 = table).
Proof.
  unfold table_remove. destruct (count table >? 0); [| intros [= <- <-]; auto].
  destruct (table_find_entry key_eqb fuel table k) as [p | |]; try discriminate.
  destruct p as [i |]; cbn [entry_at].
  - destruct (slots table !! Z.to_nat i) as [e |]; [| discriminate].
    destruct (negb (table_is_sentinel_entry e)); intros [= <- <-];
      cbn [capacity]; split; auto; discriminate.
  - discriminate.
Qed.

(** [table_remove] tells whether the key was there.  On a table built from
    [make_table] by updates and removals, a call of [table_remove] that
    returns gives true exactly when the key was live; it then lowers
    [count] by one, and otherwise leaves the table as it was.  The
    capacity is never changed, and a [table_find] of the key afterwards,
    when it returns, returns null. *)
Theorem table_remove_result
    (hash_func0 : K -> Z) (allocator0 : Z) (w0 w : World) (fuel fuel' : nat)
    (ops : list Op) (table table2 : Table K V) (k : K) (removed : bool) :
  Forall (fun op => is_clear op = false) ops ->
  apply_ops key_eqb allocator_alloc fuel ops (make_table hash_func0 allocator0, w0)
    = Ok (table, w) ->
  table_remove key_eqb fuel' table k = Ok (removed, table2) ->
  (removed = true <-> spec_find key_eqb k (spec_run key_eqb ops) <> None) /\
  (removed = false -> table2 = table) /\
  count table2 = (if removed then count table - 1 else count table) /\
  capacity table2 = capacity table /\
  (forall fuel'' p, table_find key_eqb fuel'' table2 k = Ok p -> p = None).
Proof.
  intros Hops Hrun Hrem.
  destruct (run_represents _ _ _ _ _ _ _ Hops Hrun) as [Hload Hrep].
  destruct (table_remove_represents _ _ _ _ _ _ Hrep Hload Hrem) as (Hrep2 & _ & Hiff).
  destruct (table_remove_fields _ _ _ _ _ Hrem) as [Hcap Hsame].
  split; [exact Hiff |]. split; [exact Hsame |]. split; [| split; [exact Hcap |]].
  - destruct removed; [| rewrite (Hsame eq_refl); reflexivity].
    destruct (spec_find key_eqb k (spec_run key_eqb ops)) as [v |] eqn:Ef;
      [| exfalso; apply (proj1 Hiff eq_refl); reflexivity].
    pose proof (spec_remove_present k v _ (rep_nodup _ _ _ Hrep) Ef) as Hlen.
    rewrite (rep_count _ _ _ Hrep2), (rep_count _ _ _ Hrep). lia.
  - intros fuel'' p Hfind.
    assert (Hcap0 : 0 <= capacity table2).
    { rewrite Hcap. destruct Hload as [_ [[-> _] | (k1 & Hk1 & -> & _)]]; [lia |].
      apply Z.pow_nonneg. lia. }
    pose proof (table_find_represents_pos _ _ _ _ _ Hcap0 Hrep2 Hfind) as Hval.
    rewrite spec_find_remove, key_eqb_refl in Hval.
    destruct p as [i |]; [| reflexivity].
    destruct (table_find_in_range _ _ _ _ Hfind) as (e & _ & _ & Hv). congruence.
Qed.

Lemma nextpow2_range (n : Z) : 1 <= n <= 2 ^ 63 -> n <= Memory.nextpow2 n <= 2 ^ 63.
Proof.
  intros Hn. unfold Memory.nextpow2.
  destruct (n =? 1) eqn:E1; [apply Z.eqb_eq in E1; lia |].
  apply Z.eqb_neq in E1. rewrite (wrap_small (n - 1)) by lia.
  pose proof (Z.log2_spec (n - 1) ltac:(lia)) as [Hlo Hhi].
  pose proof (Z.log2_nonneg (n - 1)) as Hnn.
  assert (Hl : Z.log2 (n - 1) < 63) by (apply Z.log2_lt_pow2; lia).
  rewrite Z.shiftl_mul_pow2 by lia. rewrite Z.mul_1_l.
  replace (Z.succ (Z.log2 (n - 1))) with (Z.log2 (n - 1) + 1) in Hhi by lia.
  assert (Hp : 2 ^ (Z.log2 (n - 1) + 1) <= 2 ^ 63) by (apply Z.pow_le_mono_r; lia).
  rewrite wrap_small by lia. lia.
Qed.

Lemma claim_entry_present (fuel : nat) (table table2 : Table K V) (m : list (K * V))
    (k : K) (i : Z) :
  represents key_eqb table m ->
  insert_ready table ->
  table_claim_entry key_eqb fuel table k = Ok (i, table2) ->
  spec_find key_eqb k m <> None ->
  table2 = table.
Proof.
  intros Hrep [Hc (k2 & Hk2 & Hpow & Hload)] Hclaim Hpresent.
  assert (Hpos : 0 < capacity table) by (rewrite Hpow; apply Z.pow_pos_nonneg; lia).
  pose proof (rep_slots _ _ _ Hrep ltac:(lia)) as Hinv.
  revert Hclaim. unfold table_claim_entry. fold (live_signature table k).
  destruct (table_find_entry_sign key_eqb fuel table k (live_signature table k))
    as [p | |] eqn:Efind; try discriminate.
  destruct (find_entry_sign_result _ _ _ _ _ Hpos Efind)
    as [[-> _] | (s & e & -> & Hs & He & Hkind & Hrun)]; [discriminate |].
  rewrite He.
  destruct (table_is_sentinel_entry e) eqn:Esent; [| intros [= _ <-]; reflexivity].
  intros _. exfalso.
  pose proof (found_sentinel_absent fuel table k s e Hinv Hrun Hs He Esent) as Habsent.
  destruct (spec_find key_eqb k m) as [v |] eqn:Ef; [| contradiction].
  apply (rep_holds _ _ _ Hrep) in Ef. destruct Ef as (j & e' & He' & Hl' & Hk' & _).
  exact (Habsent j e' He' Hl' Hk').
Qed.

Lemma apply_op_capacity (fuel : nat) (op : Op) (table table' : Table K V) (w w' : World) :
  load_invariant table ->
  apply_op key_eqb allocator_alloc fuel op (table, w) = Ok (table', w') ->
  capacity table <= capacity table' /\
  (capacity table = 0 -> (exists k v, op = Op_update k v) -> capacity table' = 8).
Proof.
  intros Hload. destruct op as [k v | k |]; cbn [apply_op].
  - unfold table_update, table_create_entry.
    destruct (table_grow_check key_eqb allocator_alloc fuel table w)
      as [[table1 w1] | |] eqn:Egrow; try discriminate.
    pose proof (grow_check_ready key_eqb allocator_alloc _ _ _ _ _ Hload Egrow) as Hready.
    destruct (grow_check_capacity key_eqb allocator_alloc _ _ _ _ _ Hload Egrow)
      as (_ & Hcap1 & Hgrow).
    destruct (table_claim_entry key_eqb fuel table1 k) as [[i2 table2] | |] eqn:Eclaim;
      try discriminate.
    destruct (claim_entry_invariant key_eqb _ _ _ _ _ Hready Eclaim) as [_ Hcap2].
    destruct (slots table2 !! Z.to_nat i2); [| discriminate].
    intros [= <- <-]. cbn [capacity]. rewrite Hcap2.
    assert (Hnn : 0 <= capacity table).
    { destruct Hload as [_ [[-> _] | (k1 & Hk1 & -> & _)]]; [lia |]. apply Z.pow_nonneg. lia. }
    split; [lia |]. intros Hz _.
    destruct Hload as [Hc [[_ Hcz] | (k1 & Hk1 & Hpow & _)]].
    + rewrite Hgrow by lia. lia.
    + pose proof (pow2_ge_8 k1 ltac:(lia)). lia.
  - destruct (table_remove key_eqb fuel table k) as [[removed table2] | |] eqn:Erem;
      try discriminate.
    destruct (table_remove_fields _ _ _ _ _ Erem) as [Hcap _].
    intros [= <- <-]. split; [lia |]. intros _ (k0 & v0 & Hop). discriminate.
  - unfold table_clear.
    destruct ((entries table =? NULL) && negb (capacity table =? 0)); [discriminate |].
    intros [= <- <-]. cbn [capacity]. split; [lia |]. intros _ (k0 & v0 & Hop). discriminate.
Qed.

(** The capacity of a table.  Every table reached from [make_table] by
    [table_update], [table_remove] and [table_clear] has capacity 0, with
    nothing counted, or a power of two from 8 to [2^63]; no operation
    lowers the capacity, and the first [table_update] on a table of
    capacity 0 gives it 8 slots. *)
Theorem reachable_capacity (table : Table K V) :
  reachable key_eqb allocator_alloc table ->
  ((capacity table = 0 /\ count table = 0) \/
   exists k, 3 <= k <= 63 /\ capacity table = 2 ^ k) /\
  (forall fuel op table' w w',
     apply_op key_eqb allocator_alloc fuel op (table, w) = Ok (table', w') ->
     capacity table <= capacity table' /\
     (capacity table = 0 -> (exists k v, op = Op_update k v) -> capacity table' = 8)).
Proof.
  intros Hreach. pose proof (reachable_invariant key_eqb allocator_alloc table Hreach) as Hload.
  split.
  - destruct Hload as [_ [Hz | (k & Hk & Hpow & _)]]; [left; exact Hz | right; eauto].
  - intros fuel op table' w w' Hop. exact (apply_op_capacity fuel op table table' w w' Hload Hop).
Qed.

(** *** Iteration *)

Lemma live_pairs_cons (e : Table_Entry K V) (es : list (Table_Entry K V)) :
  Iteration.live_pairs (e :: es) =
    if table_is_sentinel_entry e then Iteration.live_pairs es
    else (key e, value e) :: Iteration.live_pairs es.
Proof.
  unfold Iteration.live_pairs. cbn [List.filter].
  destruct (table_is_sentinel_entry e); reflexivity.
Qed.

Lemma skip_sentinels_spec (table : Table K V) :
  length (slots table) = Z.to_nat (capacity table) ->
  forall (n : nat) (fuel : nat) (p : Z),
    0 <= p <= capacity table -> Z.to_nat (capacity table - p) = n -> (n < fuel)%nat ->
    exists q,
      Iteration.skip_sentinels fuel table p (capacity table) = Ok q /\
      p <= q <= capacity table /\
      Iteration.live_pairs (drop (Z.to_nat p) (slots table))
        = Iteration.live_pairs (drop (Z.to_nat q) (slots table)) /\
      (q < capacity table ->
       exists e, slots table !! Z.to_nat q = Some e /\ table_is_sentinel_entry e = false).
Proof.
  intros Hlen. induction n as [| n IH]; intros fuel p Hp Hn Hfuel;
    (destruct fuel as [| fuel]; [lia |]); cbn [Iteration.skip_sentinels].
  - replace (p =? capacity table) with true by (symmetry; apply Z.eqb_eq; lia).
    exists p. split; [reflexivity |]. split; [lia |]. split; [reflexivity | lia].
  - replace (p =? capacity table) with false by (symmetry; apply Z.eqb_neq; lia).
    replace (p <? 0) with false by (symmetry; apply Z.ltb_ge; lia).
    destruct (slots table !! Z.to_nat p) as [e |] eqn:He;
      [| apply lookup_ge_None in He; lia].
    assert (Hdrop : drop (Z.to_nat p) (slots table)
                    = e :: drop (Z.to_nat (p + 1)) (slots table)).
    { replace (Z.to_nat (p + 1)) with (S (Z.to_nat p)) by lia.
      apply drop_S. exact He. }
    destruct (table_is_sentinel_entry e) eqn:Es.
    + destruct (IH fuel (p + 1) ltac:(lia) ltac:(lia) ltac:(lia))
        as (q & Hq & Hrange & Hlive & Hat).
      exists q. split; [exact Hq |]. split; [lia |]. split; [| exact Hat].
      rewrite Hdrop, live_pairs_cons, Es. exact Hlive.
    + exists p. split; [reflexivity |]. split; [lia |]. split; [reflexivity |].
      intros _. exists e. auto.
Qed.

Lemma iterate_spec (table : Table K V) :
  length (slots table) = Z.to_nat (capacity table) ->
  forall (fuel : nat) (p : Z),
    0 <= p <= capacity table -> (Z.to_nat (capacity table - p) < fuel)%nat ->
    (p < capacity table ->
     exists e, slots table !! Z.to_nat p = Some e /\ table_is_sentinel_entry e = false) ->
    Iteration.iterate fuel table (Iteration.mkIterator p (capacity table))
                      (Iteration.mkIterator (capacity table) (capacity table))
    = Ok (Iteration.live_pairs (drop (Z.to_nat p) (slots table))).
Proof.
  intros Hlen. induction fuel as [| fuel IH]; intros p Hp Hfuel Hat; [lia |].
  cbn [Iteration.iterate]. unfold Iteration.iterator_eqb.
  cbn [Iteration.ptr Iteration.end_].
  destruct (capacity table =? p) eqn:E.
  - apply Z.eqb_eq in E. rewrite drop_ge by lia. reflexivity.
  - apply Z.eqb_neq in E.
    destruct (Hat ltac:(lia)) as (e & He & Es).
    unfold Iteration.iterator_deref, Iteration.iterator_next.
    cbn [Iteration.ptr Iteration.end_].
    replace (p <? 0) with false by (symmetry; apply Z.ltb_ge; lia).
    rewrite He.
    destruct (skip_sentinels_spec table Hlen (Z.to_nat (capacity table - (p + 1))) (S fuel)
                (p + 1) ltac:(lia) eq_refl ltac:(lia))
      as (q & Hq & Hrange & Hlive & Hatq).
    rewrite Hq.
    rewrite (IH q ltac:(lia) ltac:(lia) Hatq).
    f_equal.
    assert (Hdrop : drop (Z.to_nat p) (slots table)
                    = e :: drop (Z.to_nat (p + 1)) (slots table)).
    { replace (Z.to_nat (p + 1)) with (S (Z.to_nat p)) by lia.
      apply drop_S. exact He. }
    rewrite Hdrop, live_pairs_cons, Es, Hlive. reflexivity.
Qed.

Lemma table_items_live_pairs (table : Table K V) (fuel : nat) :
  0 <= capacity table ->
  length (slots table) = Z.to_nat (capacity table) ->
  (Z.to_nat (capacity table) < fuel)%nat ->
  Iteration.table_items fuel table = Ok (Iteration.live_pairs (slots table)).
Proof.
  intros Hcap Hlen Hfuel.
  unfold Iteration.table_items, Iteration.table_begin, Iteration.table_end.
  destruct (skip_sentinels_spec table Hlen (Z.to_nat (capacity table - 0)) fuel 0
              ltac:(lia) eq_refl ltac:(lia))
    as (q & Hq & Hrange & Hlive & Hatq).
  rewrite Hq. rewrite (iterate_spec table Hlen fuel q ltac:(lia) ltac:(lia) Hatq).
  rewrite <- Hlive. reflexivity.
Qed.

Lemma live_pairs_in (es : list (Table_Entry K V)) (k : K) (v : V) :
  In (k, v) (Iteration.live_pairs es) <->
  exists (j : nat) (e : Table_Entry K V),
    es !! j = Some e /\ table_is_sentinel_entry e = false /\ key e = k /\ value e = v.
Proof.
  unfold Iteration.live_pairs. rewrite in_map_iff. split.
  - intros (e & [= Hk Hv] & Hin). apply filter_In in Hin. destruct Hin as [Hin Hl].
    apply list_elem_of_In, list_elem_of_lookup in Hin. destruct Hin as [j Hj].
    exists j, e. apply negb_true_iff in Hl. auto.
  - intros (j & e & Hj & Hl & Hk & Hv). exists e. split; [congruence |].
    apply filter_In. split.
    + apply list_elem_of_In, list_elem_of_lookup. eauto.
    + apply negb_true_iff. exact Hl.
Qed.

Lemma live_pairs_nodup (es : list (Table_Entry K V)) :
  (forall j1 j2 e1 e2,
     es !! j1 = Some e1 -> es !! j2 = Some e2 ->
     table_is_sentinel_entry e1 = false -> table_is_sentinel_entry e2 = false ->
     key e1 = key e2 -> j1 = j2) ->
  List.NoDup (map fst (Iteration.live_pairs es)).
Proof.
  induction es as [| e es IH]; intros Hd; [constructor |].
  assert (Hd' : forall j1 j2 e1 e2,
            es !! j1 = Some e1 -> es !! j2 = Some e2 ->
            table_is_sentinel_entry e1 = false -> table_is_sentinel_entry e2 = false ->
            key e1 = key e2 -> j1 = j2).
  { intros j1 j2 e1 e2 H1 H2 L1 L2 Hk.
    assert (S j1 = S j2) by (apply (Hd (S j1) (S j2) e1 e2); assumption). lia. }
  rewrite live_pairs_cons. destruct (table_is_sentinel_entry e) eqn:Es; [exact (IH Hd') |].
  cbn [map fst]. constructor; [| exact (IH Hd')].
  intros Hin. apply in_map_iff in Hin. destruct Hin as ([k v] & Hk & Hin).
  cbn [fst] in Hk. subst k.
  apply live_pairs_in in Hin. destruct Hin as (j & e' & Hj & Hl & Hk & _).
  assert (O = S j) by (apply (Hd O (S j) e e'); auto). discriminate.
Qed.

Lemma spec_find_of_in (k : K) (v : V) (m : list (K * V)) :
  List.NoDup (map fst m) -> In (k, v) m -> spec_find key_eqb k m = Some v.
Proof.
  unfold spec_find. induction m as [| [k0 v0] m IH]; intros Hnd Hin; [inversion Hin |].
  cbn [map fst] in Hnd. apply List.NoDup_cons_iff in Hnd. destruct Hnd as [Hnotin Hnd].
  cbn [List.find fst]. destruct Hin as [[= -> ->] | Hin].
  - rewrite key_eqb_refl. reflexivity.
  - destruct (key_eqb k k0) eqn:E; [| exact (IH Hnd Hin)].
    apply key_eqb_eq in E. subst k0. exfalso. apply Hnotin.
    apply in_map_iff. exists (k, v). auto.
Qed.

Lemma nodup_pairs_of_keys (l : list (K * V)) :
  List.NoDup (map fst l) -> List.NoDup l.
Proof.
  induction l as [| [k v] l IH]; intros Hnd; [constructor |].
  cbn [map fst] in Hnd. apply List.NoDup_cons_iff in Hnd. destruct Hnd as [Hnotin Hnd].
  constructor; [| exact (IH Hnd)].
  intros Hin. apply Hnotin. apply in_map_iff. exists (k, v). auto.
Qed.

Lemma live_pairs_represents (table : Table K V) (m : list (K * V)) :
  represents key_eqb table m ->
  Permutation (Iteration.live_pairs (slots table)) m /\
  Z.of_nat (length (Iteration.live_pairs (slots table))) = count table.
Proof.
  intros Hrep.
  assert (Hperm : Permutation (Iteration.live_pairs (slots table)) m).
  { pose proof (rep_nodup _ _ _ Hrep) as Hndm. apply NoDup_ListNoDup in Hndm.
    apply Permutation.NoDup_Permutation.
    - apply nodup_pairs_of_keys.
      destruct (Z.eq_dec (capacity table) 0) as [Hz | Hnz].
      + rewrite (rep_null _ _ _ Hrep Hz). constructor.
      + apply live_pairs_nodup. exact (inv_distinct _ _ (rep_slots _ _ _ Hrep Hnz)).
    - apply nodup_pairs_of_keys. exact Hndm.
    - intros [k v]. rewrite live_pairs_in.
      change (holds table k v <-> In (k, v) m).
      rewrite (rep_holds _ _ _ Hrep). split.
      + apply spec_find_in.
      + apply spec_find_of_in. exact Hndm. }
  split; [exact Hperm |].
  rewrite (Permutation_length Hperm). symmetry. exact (rep_count _ _ _ Hrep).
Qed.

(** Iteration.  On a table built from [make_table] by updates and
    removals, the range-based [for] over the table, from [begin] by
    [operator++] to [end], returns within [capacity + 1] rounds of each of
    its loops; it visits, in slot order, every live key exactly once, with
    the value [table_find] gives for it, and nothing else: the pairs seen
    are a permutation of the live pairs, and there are [count] of them. *)
Theorem table_iteration_spec
    (hash_func0 : K -> Z) (allocator0 : Z) (w0 w : World) (fuel fuel' : nat)
    (ops : list Op) (table : Table K V) :
  Forall (fun op => is_clear op = false) ops ->
  apply_ops key_eqb allocator_alloc fuel ops (make_table hash_func0 allocator0, w0)
    = Ok (table, w) ->
  (Z.to_nat (capacity table) < fuel')%nat ->
  exists items,
    Iteration.table_items fuel' table = Ok items /\
    Permutation items (spec_run key_eqb ops) /\
    Z.of_nat (length items) = count table /\
    (forall k v, In (k, v) items <-> spec_find key_eqb k (spec_run key_eqb ops) = Some v).
Proof.
  intros Hops Hrun Hfuel.
  destruct (run_represents _ _ _ _ _ _ _ Hops Hrun) as [Hload Hrep].
  destruct (live_pairs_represents table _ Hrep) as [Hperm Hlen].
  assert (Hcap : 0 <= capacity table).
  { destruct Hload as [_ [[-> _] | (k1 & Hk1 & -> & _)]]; [lia |]. apply Z.pow_nonneg. lia. }
  assert (Hlength : length (slots table) = Z.to_nat (capacity table)).
  { destruct (Z.eq_dec (capacity table) 0) as [Hz | Hnz].
    - rewrite (rep_null _ _ _ Hrep Hz), Hz. reflexivity.
    - exact (inv_length _ _ (rep_slots _ _ _ Hrep Hnz)). }
  exists (Iteration.live_pairs (slots table)).
  split; [exact (table_items_live_pairs table fuel' Hcap Hlength Hfuel) |].
  split; [exact Hperm |]. split; [exact Hlen |].
  intros k v. rewrite live_pairs_in.
  change (holds table k v <-> spec_find key_eqb k (spec_run key_eqb ops) = Some v).
  exact (rep_holds _ _ _ Hrep k v).
Qed.

(** *** Tables without tombstones: the calls return *)

Lemma probe_reaches_slot_within (k start j : Z) :
  0 <= k <= 63 -> 0 <= start < 2 ^ k -> 0 <= j < 2 ^ k ->
  exists n : nat, (n < Z.to_nat (2 ^ k))%nat /\
                  probe_indices (2 ^ k) (S n) (start, 1) !! n = Some j.
Proof.
  intros Hk Hs Hj.
  destruct (probe_indices_permutation k start Hk Hs) as (_ & _ & Hperm).
  assert (Hin : j ∈ probe_indices (2 ^ k) (Z.to_nat (2 ^ k)) (start, 1)).
  { rewrite Hperm. apply elem_of_seqZ. lia. }
  apply list_elem_of_lookup in Hin. destruct Hin as [n Hn].
  assert (Hlen : forall m st, length (probe_indices (2 ^ k) m st) = m).
  { clear. induction m as [| m IH]; intros st; cbn [probe_indices length]; [reflexivity |].
    rewrite IH. reflexivity. }
  pose proof (lookup_lt_Some _ _ _ Hn) as Hlt. rewrite Hlen in Hlt.
  exists n. split; [exact Hlt |].
  rewrite <- (probe_indices_lookup_prefix (2 ^ k) (Z.to_nat (2 ^ k))); [exact Hn | exact Hlt].
Qed.

(** The slot search returns within [capacity] rounds when a slot is
    empty. *)
Lemma find_entry_sign_returns (table : Table K V) (k : K) (sign0 k1 : Z) (fuel : nat) :
  0 <= k1 <= 63 -> capacity table = 2 ^ k1 ->
  length (slots table) = Z.to_nat (capacity table) ->
  entries table <> NULL -> capacity table <> count table ->
  (exists j e, slots table !! j = Some e /\ sign e = EMPTY) ->
  (Z.to_nat (capacity table) <= fuel)%nat ->
  exists s e,
    table_find_entry_sign key_eqb fuel table k sign0 = Ok (Some s) /\
    0 <= s /\ slots table !! Z.to_nat s = Some e /\
    (matches key_eqb k sign0 e = true \/ table_is_sentinel_entry e = true).
Proof.
  intros Hk1 Hpow Hlen Hent Hcount (j & e & He & Hs) Hfuel.
  assert (Hpos : 0 < capacity table) by (rewrite Hpow; apply Z.pow_pos_nonneg; lia).
  assert (H64 : 2 ^ k1 < 2 ^ 64) by (apply Z.pow_lt_mono_r; lia).
  assert (Hj : 0 <= Z.of_nat j < 2 ^ k1).
  { apply lookup_lt_Some in He. rewrite Hlen in He. lia. }
  assert (Hhome : 0 <= home_slot table sign0 < 2 ^ k1).
  { pose proof (home_slot_nonneg table sign0).
    unfold home_slot in *.
    pose proof (land_bounds (Z.land sign0 0x3FFFFFFFFFFFFFFF)
                  (wrap (capacity table - 1))
                  ltac:(apply Z.land_nonneg; right; lia)
                  (proj1 (wrap_range _))) as Hb.
    rewrite (wrap_small (capacity table - 1)) in * by lia.
    rewrite <- Hpow. lia. }
  destruct (probe_reaches_slot_within k1 _ (Z.of_nat j) Hk1 Hhome Hj) as (n & Hn & Hprobe).
  rewrite <- Hpow in Hprobe, Hn.
  destruct (find_entry_loop_reaches table k sign0 Hpos Hlen n _ 1 None (Z.of_nat j)
              ltac:(rewrite Hpow; exact Hhome) Hprobe) as [r Hr].
  { exists e. rewrite Nat2Z.id. auto. }
  apply (find_entry_loop_mono table k sign0 (S n) fuel) in Hr; [| lia].
  destruct (find_entry_loop_result table k sign0 fuel _ _ None r Hpos
              (home_slot_nonneg _ _) ltac:(intros ? [=]) Hr)
    as (s & e' & -> & Hs' & He' & Hkind).
  exists s, e'. split; [| auto].
  unfold table_find_entry_sign.
  replace (capacity table =? count table) with false by (symmetry; apply Z.eqb_neq; exact Hcount).
  replace (entries table =? NULL) with false by (symmetry; apply Z.eqb_neq; exact Hent).
  exact Hr.
Qed.

Lemma empty_slot_exists (es : list (Table_Entry K V)) :
  (length (Iteration.live_pairs es) < length es)%nat ->
  Forall (fun e => sign e <> TOMBSTONE) es ->
  exists j e, es !! j = Some e /\ sign e = EMPTY.
Proof.
  induction es as [| e es IH]; intros Hlen Hnt; [cbn in Hlen; lia |].
  apply Forall_cons in Hnt. destruct Hnt as [He Hnt].
  destruct (Z.eq_dec (sign e) EMPTY) as [Hz | Hnz]; [exists O, e; auto |].
  assert (Hl : table_is_sentinel_entry e = false).
  { unfold table_is_sentinel_entry. apply orb_false_iff.
    split; apply Z.eqb_neq; [exact Hnz | exact He]. }
  rewrite live_pairs_cons, Hl in Hlen. cbn [length] in Hlen.
  destruct (IH ltac:(lia) Hnt) as (j & e' & Hj & Hs). exists (S j), e'. auto.
Qed.

Lemma live_pairs_length_le (table copy : Table K V) :
  slots_invariant key_eqb copy ->
  (forall k v, holds copy k v -> In (k, v) (Iteration.live_pairs (slots table))) ->
  (length (Iteration.live_pairs (slots copy))
   <= length (Iteration.live_pairs (slots table)))%nat.
Proof.
  intros Hinv Hincl. apply NoDup_incl_length.
  - apply nodup_pairs_of_keys. apply live_pairs_nodup. exact (inv_distinct _ _ Hinv).
  - intros [k v] Hin. apply Hincl. apply live_pairs_in in Hin. exact Hin.
Qed.

Lemma live_signature_not_tombstone (table : Table K V) (k : K) :
  live_signature table k <> TOMBSTONE.
Proof.
  unfold live_signature.
  exact (proj2 (create_signature_not_sentinel _ (wrap_range _))).
Qed.

(** One round of the re-insertion loop returns: the copy has more slots
    than the old table has live entries, so one of them is empty. *)
Lemma expand_step_returns (fuel : nat) (old copy : Table K V) (i : nat)
    (ptr : Table_Entry K V) (k1 : Z) :
  copied_upto key_eqb old copy i ->
  Forall (fun e => sign e <> TOMBSTONE) (slots copy) ->
  0 <= k1 <= 63 -> capacity copy = 2 ^ k1 -> entries copy <> NULL ->
  capacity copy <> count copy ->
  (length (Iteration.live_pairs (slots old)) < Z.to_nat (capacity copy))%nat ->
  (Z.to_nat (capacity copy) <= fuel)%nat ->
  exists copy',
    expand_step key_eqb fuel ptr copy = Ok copy' /\
    Forall (fun e => sign e <> TOMBSTONE) (slots copy').
Proof.
  intros (Hinv & Hh & Hholds) Hnt Hk1 Hpow Hent Hcount Hlive Hfuel.
  unfold expand_step.
  destruct (table_is_sentinel_entry ptr) eqn:Esent; cbn [negb]; [exists copy; auto |].
  assert (Hempty : exists j e, slots copy !! j = Some e /\ sign e = EMPTY).
  { apply empty_slot_exists; [| exact Hnt].
    rewrite (inv_length _ _ Hinv).
    eapply Nat.le_lt_trans; [| exact Hlive].
    apply (live_pairs_length_le old copy Hinv).
    intros k v Hkv. apply live_pairs_in. apply Hholds in Hkv.
    destruct Hkv as (j & e & _ & Hrest). exists j, e. exact Hrest. }
  destruct (find_entry_sign_returns copy (key ptr) (sign ptr) k1 fuel Hk1 Hpow
              (inv_length _ _ Hinv) Hent Hcount Hempty Hfuel)
    as (s & e & -> & _ & -> & _).
  eexists. split; [reflexivity |]. cbn [slots].
  apply Forall_insert; [exact Hnt |]. cbn [sign].
  unfold table_is_sentinel_entry in Esent. apply orb_false_iff in Esent.
  apply Z.eqb_neq. exact (proj2 Esent).
Qed.

Lemma expand_loop_returns (fuel : nat) (old : Table K V) (k1 : Z) (n : nat) :
  (forall j e, slots old !! j = Some e -> table_is_sentinel_entry e = false ->
               sign e = live_signature old (key e)) ->
  (forall j1 j2 e1 e2,
     slots old !! j1 = Some e1 -> slots old !! j2 = Some e2 ->
     table_is_sentinel_entry e1 = false -> table_is_sentinel_entry e2 = false ->
     key e1 = key e2 -> j1 = j2) ->
  0 <= k1 <= 63 ->
  forall (i : nat) (copy : Table K V),
    copied_upto key_eqb old copy i ->
    Forall (fun e => sign e <> TOMBSTONE) (slots copy) ->
    capacity copy = 2 ^ k1 -> entries copy <> NULL ->
    capacity copy <> count copy ->
    (length (Iteration.live_pairs (slots old)) < Z.to_nat (capacity copy))%nat ->
    (Z.to_nat (capacity copy) <= fuel)%nat ->
    (i + n <= length (slots old))%nat ->
    exists copy',
      expand_loop key_eqb fuel (slots old) i n copy = Ok copy' /\
      Forall (fun e => sign e <> TOMBSTONE) (slots copy').
Proof.
  intros Hsign_old Hdist_old Hk1.
  induction n as [| n IH]; intros i copy Hcopied Hnt Hpow Hent Hcount Hlive Hfuel Hin;
    cbn [expand_loop]; [exists copy; auto |].
  destruct (lookup_lt_is_Some_2 (slots old) i ltac:(lia)) as [ptr Hptr]. rewrite Hptr.
  destruct (expand_step_returns fuel old copy i ptr k1 Hcopied Hnt Hk1 Hpow Hent Hcount
              Hlive Hfuel) as (copy1 & Estep & Hnt1).
  rewrite Estep.
  pose proof (expand_step_copied fuel old copy copy1 i ptr Hsign_old Hdist_old
                Hcopied Hptr Estep) as Hcopied1.
  destruct (expand_step_fields key_eqb _ _ _ _ Estep) as (Hc1 & Hcap1 & Hent1 & _).
  apply (IH (S i) copy1 Hcopied1 Hnt1); rewrite ?Hcap1, ?Hent1, ?Hc1; try assumption.
  lia.
Qed.

(** [table_expand] returns when the allocator does, the new capacity is a
    power of two above the count, and no slot is a tombstone. *)
Lemma table_expand_returns (fuel : nat) (table : Table K V) (m : list (K * V))
    (j : Z) (w : World) :
  represents key_eqb table m ->
  1 <= j <= 63 ->
  0 <= capacity table <= 2 ^ j ->
  count table < 2 ^ j ->
  2 ^ j * sizeof_Table_Entry < 2 ^ 64 ->
  allocator_alloc w (allocator table) (wrap (2 ^ j * sizeof_Table_Entry))
                  alignof_Table_Entry <> NULL ->
  (Z.to_nat (2 ^ j) <= fuel)%nat ->
  exists table' w',
    table_expand key_eqb allocator_alloc fuel table (2 ^ j) w = Ok (table', w') /\
    Forall (fun e => sign e <> TOMBSTONE) (slots table').
Proof.
  intros Hrep Hj Hcap Hcount Hsize Halloc Hfuel.
  assert (Hpos : 0 < 2 ^ j) by (apply Z.pow_pos_nonneg; lia).
  assert (H64 : 2 ^ j < 2 ^ 64) by (apply Z.pow_lt_mono_r; lia).
  unfold table_expand.
  replace (2 ^ j =? 0) with false by (symmetry; apply Z.eqb_neq; lia).
  replace (2 ^ j <? capacity table) with false by (symmetry; apply Z.ltb_ge; lia).
  rewrite (nextpow2_pow2 j Hj). unfold mem_alloc.
  replace (_ =? NULL) with false by (symmetry; apply Z.eqb_neq; exact Halloc).
  replace (2 ^ 64 <=? _) with false by (symmetry; apply Z.leb_gt; exact Hsize).
  set (copy0 := mkTable (count table) _ (2 ^ j) (allocator table) (hash_func table) _).
  assert (Hold : (forall j e, slots table !! j = Some e -> table_is_sentinel_entry e = false ->
                     sign e = live_signature table (key e)) /\
                 (forall j1 j2 e1 e2,
                     slots table !! j1 = Some e1 -> slots table !! j2 = Some e2 ->
                     table_is_sentinel_entry e1 = false ->
                     table_is_sentinel_entry e2 = false ->
                     key e1 = key e2 -> j1 = j2) /\
                 length (slots table) = Z.to_nat (capacity table)).
  { destruct (Z.eq_dec (capacity table) 0) as [Hz | Hnz].
    - rewrite (rep_null _ _ _ Hrep Hz), Hz.
      split; [| split]; [intros j0 e He; rewrite lookup_nil in He; discriminate
                        | intros j1 j2 e1 e2 He; rewrite lookup_nil in He; discriminate
                        | reflexivity].
    - pose proof (rep_slots _ _ _ Hrep Hnz) as Hinv.
      split; [| split];
        [exact (inv_sign _ _ Hinv) | exact (inv_distinct _ _ Hinv) | exact (inv_length _ _ Hinv)]. }
  destruct Hold as (Hsign_old & Hdist_old & Hlen_old).
  assert (Hzero : forall j0 e, slots copy0 !! j0 = Some e -> e = zero_entry).
  { intros j0 e He. unfold copy0 in He. cbn [slots] in He.
    apply lookup_replicate in He. exact (proj1 He). }
  assert (Hcopied0 : copied_upto key_eqb table copy0 0).
  { split; [constructor |].
    - cbn [capacity copy0]. lia.
    - unfold copy0. cbn [slots capacity]. apply length_replicate.
    - intros j0 e He Hl. rewrite (Hzero j0 e He) in Hl. discriminate.
    - intros j1 j2 e1 e2 He1 _ Hl1. rewrite (Hzero j1 e1 He1) in Hl1. discriminate.
    - intros j0 e He Hl. rewrite (Hzero j0 e He) in Hl. discriminate.
    - split; [reflexivity |]. intros k v. split.
      + intros (j0 & e & He & Hl & _). rewrite (Hzero j0 e He) in Hl. discriminate.
      + intros (j0 & e & Hj0 & _). lia. }
  destruct (live_pairs_represents table m Hrep) as [_ Hlive].
  destruct (expand_loop_returns fuel table j (Z.to_nat (capacity table))
              Hsign_old Hdist_old ltac:(lia) 0%nat copy0 Hcopied0) as (copy' & -> & Hnt').
  - apply Forall_forall. intros e He. apply list_elem_of_lookup in He.
    destruct He as [j0 He]. rewrite (Hzero j0 e He). discriminate.
  - reflexivity.
  - cbn [entries copy0]. exact Halloc.
  - cbn [capacity count copy0]. lia.
  - cbn [capacity copy0]. lia.
  - cbn [capacity copy0]. exact Hfuel.
  - lia.
  - eexists _, _. split; [reflexivity | exact Hnt'].
Qed.

(** The growth check returns, and leaves at most [3 * count + 8] slots. *)
Lemma grow_check_returns (fuel : nat) (table : Table K V) (m : list (K * V))
    (w : World) (B : Z) :
  represents key_eqb table m ->
  load_invariant table ->
  Forall (fun e => sign e <> TOMBSTONE) (slots table) ->
  capacity table <= 3 * count table + 8 ->
  3 * count table + 8 <= B -> B <= 2 ^ 57 ->
  0 < sizeof_Table_Entry -> B * sizeof_Table_Entry < 2 ^ 64 ->
  (forall w a size align, allocator_alloc w a size align <> NULL) ->
  (Z.to_nat B <= fuel)%nat ->
  exists table1 w1,
    table_grow_check key_eqb allocator_alloc fuel table w = Ok (table1, w1) /\
    Forall (fun e => sign e <> TOMBSTONE) (slots table1) /\
    capacity table1 <= 3 * count table + 8.
Proof.
  intros Hrep Hload Hnt Hsmall HB HB57 Hsz Hfit Halloc Hfuel.
  change (2 ^ 57) with 144115188075855872 in HB57.
  assert (Hc : 0 <= count table) by exact (proj1 Hload).
  assert (Hcap0 : 0 <= capacity table).
  { destruct Hload as [_ [[-> _] | (k & Hk & -> & _)]]; [lia |].
    apply Z.lt_le_incl, Z.pow_pos_nonneg; lia. }
  unfold table_grow_check, LOAD_FACTOR, MIN_CAPACITY.
  rewrite !wrap_small by (change (2 ^ 64) with 18446744073709551616; lia).
  destruct (_ >=? _) eqn:Echk; [| exists table, w; auto].
  apply Z.geb_le in Echk.
  assert (Hexp : forall j, 1 <= j <= 63 -> capacity table <= 2 ^ j -> count table < 2 ^ j ->
            2 ^ j <= 3 * count table + 8 ->
            exists table1 w1,
              table_expand key_eqb allocator_alloc fuel table (2 ^ j) w = Ok (table1, w1) /\
              Forall (fun e => sign e <> TOMBSTONE) (slots table1) /\
              capacity table1 <= 3 * count table + 8).
  { intros j Hj Hle Hcnt Hb.
    assert (Hpos : 0 < 2 ^ j) by (apply Z.pow_pos_nonneg; lia).
    destruct (table_expand_returns fuel table m j w Hrep Hj ltac:(lia) Hcnt
                ltac:(nia) (Halloc _ _ _ _) ltac:(lia)) as (table1 & w1 & Hret & Hnt1).
    exists table1, w1. split; [exact Hret |]. split; [exact Hnt1 |].
    destruct (table_expand_fields key_eqb allocator_alloc _ _ _ _ _ _ Hret) as (_ & Hcap & _).
    rewrite Hcap, (nextpow2_pow2 j Hj). exact Hb. }
  destruct Hload as [_ [[Hz Hcz] | (k & Hk & Hpow & Hlf)]].
  - rewrite Hz. change (0 >=? 8) with false. cbv iota.
    change 8 with (2 ^ 3). apply Hexp; rewrite ?Hz, ?Hcz; cbn; lia.
  - pose proof (pow2_ge_8 k ltac:(lia)) as H8.
    replace (capacity table >=? 8) with true by (symmetry; apply Z.geb_le; lia).
    rewrite Hpow, Z.shiftl_mul_pow2 by lia.
    replace (2 ^ k * 2 ^ 1) with (2 ^ (k + 1)) by (rewrite Z.pow_add_r by lia; reflexivity).
    assert (Hdouble : 2 ^ (k + 1) = 2 * 2 ^ k).
    { rewrite Z.pow_add_r by lia. change (2 ^ 1) with 2. lia. }
    assert (Hk1 : k + 1 <= 57).
    { destruct (Z_le_gt_dec (k + 1) 57) as [Hle | Hgt]; [exact Hle | exfalso].
      assert (2 ^ 58 <= 2 ^ (k + 1)) by (apply Z.pow_le_mono_r; lia).
      change (2 ^ 58) with 288230376151711744 in *. unfold LOAD_FACTOR in *. lia. }
    assert (H64 : 2 ^ (k + 1) < 2 ^ 64) by (apply Z.pow_lt_mono_r; lia).
    rewrite (wrap_small (2 ^ (k + 1))) by lia.
    unfold LOAD_FACTOR in Hlf.
    apply Hexp; lia.
Qed.

(** The slot search of [table_create_entry] returns on a table that is
    ready for an insertion and has no tombstone. *)
Lemma claim_entry_returns (fuel : nat) (table : Table K V) (m : list (K * V)) (k : K) :
  represents key_eqb table m ->
  insert_ready table ->
  Forall (fun e => sign e <> TOMBSTONE) (slots table) ->
  (Z.to_nat (capacity table) <= fuel)%nat ->
  exists i table2,
    table_claim_entry key_eqb fuel table k = Ok (i, table2) /\
    Forall (fun e => sign e <> TOMBSTONE) (slots table2).
Proof.
  intros Hrep [Hc (k1 & Hk1 & Hpow & Hlf)] Hnt Hfuel.
  pose proof (pow2_ge_8 k1 ltac:(lia)) as H8. unfold LOAD_FACTOR in Hlf.
  assert (Hnz : capacity table <> 0) by lia.
  pose proof (rep_slots _ _ _ Hrep Hnz) as Hinv.
  destruct (live_pairs_represents table m Hrep) as [_ Hlive].
  assert (Hempty : exists j e, slots table !! j = Some e /\ sign e = EMPTY).
  { apply empty_slot_exists; [| exact Hnt]. rewrite (inv_length _ _ Hinv). lia. }
  unfold table_claim_entry.
  destruct (find_entry_sign_returns table k (table_create_signature (wrap (hash_func table k)))
              k1 fuel ltac:(lia) Hpow (inv_length _ _ Hinv) (rep_entries _ _ _ Hrep Hnz)
              ltac:(lia) Hempty Hfuel) as (s & e & -> & _ & -> & _).
  destruct (table_is_sentinel_entry e); eexists _, _; (split; [reflexivity |]);
    [| exact Hnt].
  cbn [slots]. apply Forall_insert; [exact Hnt |]. cbn [sign].
  exact (live_signature_not_tombstone table k).
Qed.

(** [table_update] returns on a table without tombstones. *)
Lemma table_update_returns (fuel : nat) (table : Table K V) (m : list (K * V))
    (k : K) (v : V) (w : World) (B : Z) :
  represents key_eqb table m ->
  load_invariant table ->
  Forall (fun e => sign e <> TOMBSTONE) (slots table) ->
  capacity table <= 3 * count table + 8 ->
  3 * count table + 8 <= B -> B <= 2 ^ 57 ->
  0 < sizeof_Table_Entry -> B * sizeof_Table_Entry < 2 ^ 64 ->
  (forall w a size align, allocator_alloc w a size align <> NULL) ->
  (Z.to_nat B <= fuel)%nat ->
  exists i table3 w3,
    table_update key_eqb allocator_alloc fuel table k v w = Ok (i, table3, w3) /\
    Forall (fun e => sign e <> TOMBSTONE) (slots table3) /\
    capacity table3 <= 3 * count table3 + 8 /\
    count table3 <= count table + 1.
Proof.
  intros Hrep Hload Hnt Hsmall HB HB57 Hsz Hfit Halloc Hfuel.
  destruct (grow_check_returns fuel table m w B Hrep Hload Hnt Hsmall HB HB57 Hsz Hfit
              Halloc Hfuel) as (table1 & w1 & Egrow & Hnt1 & Hcap1).
  pose proof (grow_check_ready key_eqb allocator_alloc _ _ _ _ _ Hload Egrow) as Hready.
  destruct (grow_check_represents _ _ _ _ _ _ Hrep Hload Egrow) as [Hrep1 _].
  destruct (grow_check_capacity key_eqb allocator_alloc _ _ _ _ _ Hload Egrow)
    as (Hcount1 & _ & _).
  destruct (claim_entry_returns fuel table1 m k Hrep1 Hready Hnt1 ltac:(lia))
    as (i & table2 & Eclaim & Hnt2).
  destruct (claim_entry_represents fuel table1 table2 m k i Hrep1 Hready Eclaim)
    as (e & Hi & He & _ & _ & Hcap2 & _ & _ & _ & Hcount2 & _).
  unfold table_update, table_create_entry. rewrite Egrow, Eclaim, He.
  eexists _, _, _. split; [reflexivity |]. cbn [slots capacity count].
  split; [| destruct Hcount2 as [[_ ->] | [_ ->]]; lia].
  apply Forall_insert; [exact Hnt2 |]. cbn [sign].
  apply list_elem_of_lookup_2 in He.
  exact (proj1 (Forall_forall _ _) Hnt2 e He).
Qed.

Lemma update_run_returns (fuel : nat) (B : Z) :
  B <= 2 ^ 57 ->
  0 < sizeof_Table_Entry -> B * sizeof_Table_Entry < 2 ^ 64 ->
  (forall w a size align, allocator_alloc w a size align <> NULL) ->
  (Z.to_nat B <= fuel)%nat ->
  forall (ops : list Op) (table : Table K V) (m : list (K * V)) (w : World),
    Forall (fun op => Iteration.is_update op = true) ops ->
    represents key_eqb table m ->
    load_invariant table ->
    Forall (fun e => sign e <> TOMBSTONE) (slots table) ->
    capacity table <= 3 * count table + 8 ->
    3 * (count table + Z.of_nat (length ops)) + 8 <= B ->
    exists table' w',
      apply_ops key_eqb allocator_alloc fuel ops (table, w) = Ok (table', w') /\
      Forall (fun e => sign e <> TOMBSTONE) (slots table') /\
      capacity table' <= B.
Proof.
  intros HB57 Hsz Hfit Halloc Hfuel.
  induction ops as [| op ops IH]; intros table m w Hops Hrep Hload Hnt Hsmall HB;
    cbn [apply_ops length] in *.
  - exists table, w. split; [reflexivity |]. split; [exact Hnt | lia].
  - apply Forall_cons in Hops. destruct Hops as [Hop Hops].
    destruct op as [k v | k |]; try discriminate.
    destruct (table_update_returns fuel table m k v w B Hrep Hload Hnt Hsmall ltac:(lia)
                HB57 Hsz Hfit Halloc Hfuel) as (i & table3 & w3 & Eup & Hnt3 & Hsmall3 & Hc3).
    assert (Eop : apply_op key_eqb allocator_alloc fuel (Op_update k v) (table, w)
                  = Ok (table3, w3)) by (cbn [apply_op]; rewrite Eup; reflexivity).
    rewrite Eop.
    destruct (table_update_represents fuel table table3 m k v i w w3 Hrep Hload Eup)
      as (Hrep3 & _).
    pose proof (apply_op_invariant key_eqb allocator_alloc fuel _ _ _ _ _ Hload Eop) as Hload3.
    apply (IH table3 _ w3 Hops Hrep3 Hload3 Hnt3 Hsmall3). lia.
Qed.

(** *** [table_find] on a table without tombstones; [table_expand] and
    [operator[]] *)

Lemma nextpow2_power (n : Z) :
  1 <= n <= 2 ^ 63 -> exists k, 0 <= k <= 63 /\ Memory.nextpow2 n = 2 ^ k.
Proof.
  intros Hn. unfold Memory.nextpow2.
  destruct (n =? 1) eqn:E1; [exists 0; split; [lia | reflexivity] |].
  apply Z.eqb_neq in E1. rewrite (wrap_small (n - 1)) by lia.
  pose proof (Z.log2_nonneg (n - 1)) as Hnn.
  assert (Hl : Z.log2 (n - 1) < 63) by (apply Z.log2_lt_pow2; lia).
  exists (Z.log2 (n - 1) + 1). split; [lia |].
  rewrite Z.shiftl_mul_pow2 by lia. rewrite Z.mul_1_l.
  assert (Hp : 2 ^ (Z.log2 (n - 1) + 1) <= 2 ^ 63) by (apply Z.pow_le_mono_r; lia).
  assert (H0 : 0 < 2 ^ (Z.log2 (n - 1) + 1)) by (apply Z.pow_pos_nonneg; lia).
  apply wrap_small. lia.
Qed.

(** With no tombstone and fewer entries than slots, [table_find] returns
    within one probe round per slot. *)
Lemma table_find_returns_within (table : Table K V) (m : list (K * V)) (k : K)
    (k1 : Z) (fuel : nat) :
  represents key_eqb table m ->
  0 <= k1 <= 63 -> capacity table = 2 ^ k1 -> count table < capacity table ->
  Forall (fun e => sign e <> TOMBSTONE) (slots table) ->
  (Z.to_nat (capacity table) <= fuel)%nat ->
  exists p, table_find key_eqb fuel table k = Ok p.
Proof.
  intros Hrep Hk1 Hpow Hcount Hnt Hfuel.
  assert (Hpos : 0 < capacity table) by (rewrite Hpow; apply Z.pow_pos_nonneg; lia).
  assert (Ecap : capacity table <> 0) by lia.
  pose proof (rep_slots _ _ _ Hrep Ecap) as Hinv.
  destruct (live_pairs_represents table _ Hrep) as [_ Hlive].
  assert (Hempty : exists j e, slots table !! j = Some e /\ sign e = EMPTY).
  { apply empty_slot_exists; [| exact Hnt]. rewrite (inv_length _ _ Hinv). lia. }
  unfold table_find, table_find_entry.
  replace (capacity table =? 0) with false by (symmetry; apply Z.eqb_neq; exact Ecap).
  destruct (find_entry_sign_returns table k (table_create_signature (wrap (hash_func table k)))
              k1 fuel Hk1 Hpow (inv_length _ _ Hinv) (rep_entries _ _ _ Hrep Ecap)
              ltac:(lia) Hempty Hfuel) as (s & e & -> & _ & He & _).
  cbn [entry_at]. rewrite He.
  destruct (negb (table_is_sentinel_entry e)); eauto.
Qed.

Lemma expand_step_no_tombstone (fuel : nat) (ptr : Table_Entry K V) (copy copy' : Table K V) :
  expand_step key_eqb fuel ptr copy = Ok copy' ->
  Forall (fun e => sign e <> TOMBSTONE) (slots copy) ->
  Forall (fun e => sign e <> TOMBSTONE) (slots copy').
Proof.
  unfold expand_step.
  destruct (table_is_sentinel_entry ptr) eqn:Esent; cbn [negb]; [intros [= <-]; auto |].
  destruct (table_find_entry_sign key_eqb fuel copy (key ptr) (sign ptr))
    as [[i |] | |]; try discriminate.
  destruct (slots copy !! Z.to_nat i); [| discriminate].
  intros [= <-] Hnt. cbn [slots]. apply Forall_insert; [exact Hnt |]. cbn [sign].
  unfold table_is_sentinel_entry in Esent. apply orb_false_iff in Esent.
  apply Z.eqb_neq. exact (proj2 Esent).
Qed.

Lemma expand_loop_no_tombstone (fuel : nat) (old : list (Table_Entry K V)) (n : nat) :
  forall (i : nat) (copy copy' : Table K V),
    expand_loop key_eqb fuel old i n copy = Ok copy' ->
    Forall (fun e => sign e <> TOMBSTONE) (slots copy) ->
    Forall (fun e => sign e <> TOMBSTONE) (slots copy').
Proof.
  induction n as [| n IH]; intros i copy copy'; cbn [expand_loop].
  - intros [= <-]. auto.
  - destruct (old !! i) as [ptr |]; [| discriminate].
    destruct (expand_step key_eqb fuel ptr copy) as [copy1 | |] eqn:Estep; try discriminate.
    intros Hloop Hnt.
    exact (IH (S i) copy1 copy' Hloop (expand_step_no_tombstone _ _ _ _ Estep Hnt)).
Qed.

(** The array [table_expand] builds has no tombstone. *)
Lemma table_expand_no_tombstone (fuel : nat) (table table' : Table K V) (capacity0 : Z)
    (w w' : World) :
  table_expand key_eqb allocator_alloc fuel table capacity0 w = Ok (table', w') ->
  Forall (fun e => sign e <> TOMBSTONE) (slots table').
Proof.
  unfold table_expand.
  destruct (capacity0 =? 0); [discriminate |].
  destruct (capacity0 <? capacity table); [discriminate |].
  unfold mem_alloc.
  destruct (_ =? NULL); [discriminate |].
  destruct (2 ^ 64 <=? _); [discriminate |].
  set (copy0 := mkTable (count table) _ (Memory.nextpow2 capacity0) (allocator table)
                        (hash_func table) _).
  destruct (expand_loop key_eqb fuel (slots table) 0 (Z.to_nat (capacity table)) copy0)
    as [copy' | |] eqn:Eloop; try discriminate.
  intros [= <- <-].
  apply (expand_loop_no_tombstone _ _ _ _ _ _ Eloop).
  unfold copy0. cbn [slots]. apply Forall_forall. intros e He.
  apply elem_of_replicate in He. destruct He as [-> _]. discriminate.
Qed.

(** [table_expand] keeps the contents.  Called on a table built from
    [make_table] by updates and removals, with a capacity between 1 and
    [2^63], a call that returns leaves a table of capacity
    [nextpow2(capacity)], no smaller than the request or the old capacity,
    with the same [count] and without tombstones.  On it [table_find]
    returns for every key, within one probe round per slot, and points to
    the value the table held for the key before, or is null when there
    was none.  The new array is taken from the allocator of the table and
    the old one is then released through it. *)
Theorem table_expand_keeps_entries
    (hash_func0 : K -> Z) (allocator0 : Z) (w0 w w' : World) (fuel fuel' : nat)
    (ops : list Op) (table table' : Table K V) (capacity0 : Z) :
  Forall (fun op => is_clear op = false) ops ->
  apply_ops key_eqb allocator_alloc fuel ops (make_table hash_func0 allocator0, w0)
    = Ok (table, w) ->
  1 <= capacity0 <= 2 ^ 63 ->
  table_expand key_eqb allocator_alloc fuel' table capacity0 w = Ok (table', w') ->
  capacity table' = Memory.nextpow2 capacity0 /\
  capacity table <= capacity0 <= capacity table' /\
  count table' = count table /\
  Forall (fun e => sign e <> TOMBSTONE) (slots table') /\
  (forall (fuel'' : nat) k, (Z.to_nat (capacity table') <= fuel'')%nat ->
     exists p, table_find key_eqb fuel'' table' k = Ok p /\
               value_at table' p = spec_find key_eqb k (spec_run key_eqb ops)) /\
  (forall fuel'' k p,
     table_find key_eqb fuel'' table' k = Ok p ->
     value_at table' p = spec_find key_eqb k (spec_run key_eqb ops)) /\
  w' = w ++ [Ev_alloc (allocator table)
                      (wrap (Memory.nextpow2 capacity0 * sizeof_Table_Entry))
                      alignof_Table_Entry (entries table');
             Ev_free (allocator table) (entries table)].
Proof.
  intros Hops Hrun Hc0 Hexp.
  destruct (run_represents _ _ _ _ _ _ _ Hops Hrun) as [Hload Hrep].
  pose proof (nextpow2_range capacity0 Hc0) as Hnp.
  destruct (nextpow2_power capacity0 Hc0) as (k1 & Hk1 & Hpow).
  assert (Hcap0 : 0 <= capacity table).
  { destruct Hload as [_ [[-> _] | (k2 & Hk2 & -> & _)]]; [lia |]. apply Z.pow_nonneg. lia. }
  assert (Hnp' : 0 < Memory.nextpow2 capacity0 < 2 ^ 64) by lia.
  destruct (table_expand_represents _ _ _ _ _ _ _ Hrep Hcap0 Hnp' Hexp) as [Hrep' _].
  destruct (table_expand_fields key_eqb allocator_alloc _ _ _ _ _ _ Hexp)
    as (Hcount & Hcap & _).
  pose proof (table_expand_events key_eqb allocator_alloc _ _ _ _ _ _ Hexp) as Hev.
  pose proof (table_expand_no_tombstone _ _ _ _ _ _ Hexp) as Hnt.
  assert (Hle : capacity table <= capacity0).
  { revert Hexp. unfold table_expand.
    destruct (capacity0 =? 0); [discriminate |].
    destruct (capacity0 <? capacity table) eqn:E; [discriminate |]. intros _.
    apply Z.ltb_ge in E. exact E. }
  assert (Hpartial : forall fuel'' k p,
            table_find key_eqb fuel'' table' k = Ok p ->
            value_at table' p = spec_find key_eqb k (spec_run key_eqb ops)).
  { intros fuel'' k p Hfind.
    apply (table_find_represents_pos fuel'' table' _ k p); [lia | exact Hrep' | exact Hfind]. }
  assert (Hroom : count table' < capacity table').
  { rewrite Hcount, Hcap.
    destruct Hload as [_ [[_ ->] | (k2 & Hk2 & Hpow2 & Hlf)]]; [lia |].
    unfold LOAD_FACTOR in Hlf. lia. }
  split; [exact Hcap |]. split; [lia |]. split; [exact Hcount |]. split; [exact Hnt |].
  split; [| split; [exact Hpartial | exact Hev]].
  intros fuel'' k Hfuel.
  destruct (table_find_returns_within table' _ k k1 fuel'' Hrep' Hk1
              ltac:(rewrite Hcap; exact Hpow) Hroom Hnt Hfuel) as [p Hp].
  exists p. split; [exact Hp | exact (Hpartial fuel'' k p Hp)].
Qed.

(** [operator[]].  On a table built from [make_table] by updates and
    removals, [table[key]], when it returns, refers to the value slot of
    a live entry of the key.  If the key was live, this is the value that
    was stored for it and [count] is as it was; if not, the key has become
    live and [count] has grown by one.  [table_find] of the key
    afterwards returns that entry, given enough fuel, and never anything
    else.  [table_find] of any other key, whenever it returns, points to
    the value the table held for that key before, or is null when there
    was none. *)
Theorem table_subscript_spec
    (hash_func0 : K -> Z) (allocator0 : Z) (w0 w w2 : World) (fuel fuel' : nat)
    (ops : list Op) (table table2 : Table K V) (k : K) (i : Z) :
  Forall (fun op => is_clear op = false) ops ->
  apply_ops key_eqb allocator_alloc fuel ops (make_table hash_func0 allocator0, w0)
    = Ok (table, w) ->
  Iteration.table_subscript key_eqb allocator_alloc fuel' table k w = Ok (i, table2, w2) ->
  (0 <= i /\
   exists e, slots table2 !! Z.to_nat i = Some e /\
             table_is_sentinel_entry e = false /\ key e = k) /\
  (forall v, spec_find key_eqb k (spec_run key_eqb ops) = Some v ->
             value_at table2 (Some i) = Some v /\ count table2 = count table) /\
  (spec_find key_eqb k (spec_run key_eqb ops) = None ->
   count table2 = count table + 1) /\
  (exists fuel'', table_find key_eqb fuel'' table2 k = Ok (Some i)) /\
  (forall fuel'' p, table_find key_eqb fuel'' table2 k = Ok p -> p = Some i) /\
  (forall fuel'' k' p, k' <> k ->
     table_find key_eqb fuel'' table2 k' = Ok p ->
     value_at table2 p = spec_find key_eqb k' (spec_run key_eqb ops)).
Proof.
  intros Hops Hrun. unfold Iteration.table_subscript, table_create_entry.
  destruct (run_represents _ _ _ _ _ _ _ Hops Hrun) as [Hload Hrep].
  set (m := spec_run key_eqb ops) in *.
  destruct (table_grow_check key_eqb allocator_alloc fuel' table w)
    as [[table1 w1] | |] eqn:Egrow; try discriminate.
  pose proof (grow_check_ready key_eqb allocator_alloc _ _ _ _ _ Hload Egrow) as Hready.
  destruct (grow_check_represents _ _ _ _ _ _ Hrep Hload Egrow) as [Hrep1 Hh1].
  destruct (grow_check_capacity key_eqb allocator_alloc _ _ _ _ _ Hload Egrow)
    as (Hcount1 & _ & _).
  destruct (table_claim_entry key_eqb fuel' table1 k) as [[i2 table2'] | |] eqn:Eclaim;
    try discriminate.
  intros [= <- <- <-].
  destruct (claim_entry_represents _ _ _ _ _ _ Hrep1 Hready Eclaim)
    as (e & Hi & He & Hlive & Hk & Hcap2 & Hh2 & Hent2 & Hinv2 & Hcount2 & Hholds2).
  destruct (claim_entry_invariant key_eqb _ _ _ _ _ Hready Eclaim) as [Hload2 _].
  assert (Hval : value_at table2' (Some i2) = Some (value e))
    by (cbn [value_at]; rewrite He; reflexivity).
  assert (Hholdk : holds table2' k (value e)) by (exists (Z.to_nat i2), e; auto).
  assert (Hpos2 : 0 < capacity table2').
  { rewrite Hcap2. destruct Hready as [_ (k1 & Hk1 & -> & _)]. apply Z.pow_pos_nonneg; lia. }
  assert (Hfind2 : forall fuel'' k' p,
            table_find key_eqb fuel'' table2' k' = Ok p ->
            forall j, p = Some j ->
            0 <= j /\
            exists e', slots table2' !! Z.to_nat j = Some e' /\
                       table_is_sentinel_entry e' = false /\ key e' = k').
  { intros fuel'' k' p Hfind j ->. revert Hfind. unfold table_find.
    replace (capacity table2' =? 0) with false by lia.
    unfold table_find_entry. fold (live_signature table2' k').
    destruct (table_find_entry_sign key_eqb fuel'' table2' k' (live_signature table2' k'))
      as [q | |] eqn:Efind; try discriminate.
    destruct (find_entry_sign_result _ _ _ _ _ Hpos2 Efind)
      as [[-> _] | (s & e' & -> & Hs & He' & Hkind & _)]; [discriminate |].
    cbn [entry_at]. rewrite He'.
    destruct (table_is_sentinel_entry e') eqn:Es'; cbn [negb]; intros [= <-].
    destruct Hkind as [Hm | Hs']; [| congruence].
    apply matches_live in Hm. destruct Hm as (_ & Hk' & _).
    split; [exact Hs |]. exists e'. auto. }
  assert (Hnone2 : forall fuel'' k',
            table_find key_eqb fuel'' table2' k' = Ok None ->
            forall v', ~ holds table2' k' v').
  { intros fuel'' k' Hfind v' (j & e' & He' & Hl' & Hk' & _). revert Hfind. unfold table_find.
    replace (capacity table2' =? 0) with false by lia.
    unfold table_find_entry. fold (live_signature table2' k').
    destruct (table_find_entry_sign key_eqb fuel'' table2' k' (live_signature table2' k'))
      as [q | |] eqn:Efind; try discriminate.
    destruct (find_entry_sign_result _ _ _ _ _ Hpos2 Efind)
      as [[-> _] | (s & e0 & -> & Hs & He0 & Hkind & Hloop)]; [discriminate |].
    cbn [entry_at]. rewrite He0.
    destruct (table_is_sentinel_entry e0) eqn:Es0; cbn [negb]; [| discriminate].
    intros _.
    exact (found_sentinel_absent fuel'' table2' k' s e0 Hinv2 Hloop Hs He0 Es0 j e' He' Hl' Hk'). }
  split; [split; [exact Hi | exists e; auto] |].
  split; [| split; [| split; [| split]]].
  - intros v Hv.
    assert (Hsame : table2' = table1)
      by (apply (claim_entry_present _ _ _ _ _ _ Hrep1 Hready Eclaim); congruence).
    subst table2'. split; [| lia].
    apply (rep_holds _ _ _ Hrep1) in Hholdk. congruence.
  - intros Hnone.
    destruct Hcount2 as [[Hpres _] | [_ ->]]; [contradiction | lia].
  - destruct (inv_findable _ _ Hinv2 (Z.to_nat i2) e He Hlive) as [fuel'' Hloop].
    exists fuel''. unfold table_find, table_find_entry.
    replace (capacity table2' =? 0) with false by lia.
    unfold table_find_entry_sign.
    assert (Hroom : capacity table2' <> count table2').
    { destruct Hload2 as [_ [[Hz _] | (k2 & Hk2 & Hpow2 & Hlf)]]; [lia |].
      unfold LOAD_FACTOR in Hlf. lia. }
    replace (capacity table2' =? count table2') with false
      by (symmetry; apply Z.eqb_neq; exact Hroom).
    assert (Hent : entries table2' <> NULL).
    { rewrite Hent2. apply (rep_entries _ _ _ Hrep1). lia. }
    replace (entries table2' =? NULL) with false by (symmetry; apply Z.eqb_neq; exact Hent).
    fold (live_signature table2' k).
    fold (home_slot table2' (live_signature table2' k)).
    rewrite (inv_sign _ _ Hinv2 _ _ He Hlive), Hk, Z2Nat.id in Hloop by exact Hi.
    rewrite Hloop. cbn [entry_at]. rewrite He, Hlive. reflexivity.
  - intros fuel'' p Hfind.
    destruct p as [j |].
    + destruct (Hfind2 _ _ _ Hfind j eq_refl) as (Hj & e' & He' & Hl' & Hk').
      f_equal.
      assert (Hjj : Z.to_nat j = Z.to_nat i2).
      { apply (inv_distinct _ _ Hinv2 _ _ e' e He' He Hl' Hlive). congruence. }
      lia.
    + exfalso. exact (Hnone2 _ _ Hfind (value e) Hholdk).
  - intros fuel'' k' p Hne Hfind.
    destruct p as [j |].
    + destruct (Hfind2 _ _ _ Hfind j eq_refl) as (_ & e' & He' & Hl' & Hk').
      cbn [value_at]. rewrite He'. cbn. symmetry.
      apply (rep_holds _ _ _ Hrep1). apply (Hholds2 k' (value e') Hne).
      exists (Z.to_nat j), e'. auto.
    + cbn [value_at]. destruct (spec_find key_eqb k' m) as [v' |] eqn:Ef; [| reflexivity].
      exfalso. apply (rep_holds _ _ _ Hrep1) in Ef. apply (Hholds2 k' v' Hne) in Ef.
      exact (Hnone2 _ _ Hfind v' Ef).
Qed.

(** A run of [table_update] calls on a fresh table returns whenever the
    allocator does, each call being given fuel [3 * n + 8] for the [n]
    calls of the run.  After the first [j] calls the table has at most
    [3 * j + 8] slots.  At the end [count] is the number of keys stored,
    and [table_find], with fuel for one probe round per slot, returns for
    every key and points to the last value stored for it, or is null
    when the key was never stored. *)
Theorem table_update_run_returns
    (hash_func0 : K -> Z) (allocator0 : Z) (w0 : World) (fuel : nat) (ops : list Op) :
  Forall (fun op => Iteration.is_update op = true) ops ->
  (forall w a size align, allocator_alloc w a size align <> NULL) ->
  0 < sizeof_Table_Entry ->
  (3 * Z.of_nat (length ops) + 8) * sizeof_Table_Entry < 2 ^ 64 ->
  Z.of_nat (length ops) < 2 ^ 55 ->
  (3 * length ops + 8 <= fuel)%nat ->
  exists table w,
    apply_ops key_eqb allocator_alloc fuel ops (make_table hash_func0 allocator0, w0)
      = Ok (table, w) /\
    count table = Z.of_nat (length (spec_run key_eqb ops)) /\
    capacity table <= 3 * Z.of_nat (length ops) + 8 /\
    (forall ops1 ops2, ops = ops1 ++ ops2 ->
       exists table1 w1,
         apply_ops key_eqb allocator_alloc fuel ops1 (make_table hash_func0 allocator0, w0)
           = Ok (table1, w1) /\
         capacity table1 <= 3 * Z.of_nat (length ops1) + 8) /\
    (forall (fuel' : nat) k, (Z.to_nat (capacity table) <= fuel')%nat ->
       exists p,
         table_find key_eqb fuel' table k = Ok p /\
         value_at table p = spec_find key_eqb k (spec_run key_eqb ops)).
Proof.
  intros Hops Halloc Hsz Hfit Hn Hfuel.
  change (2 ^ 55) with 36028797018963968 in Hn.
  pose proof (make_table_represents hash_func0 allocator0) as Hrep0.
  assert (Hload0 : load_invariant (make_table hash_func0 allocator0 : Table K V)).
  { split; [cbn; lia |]. left. auto. }
  assert (Hprefix : forall ops1 : list Op,
            Forall (fun op => Iteration.is_update op = true) ops1 ->
            (length ops1 <= length ops)%nat ->
            exists table1 w1,
              apply_ops key_eqb allocator_alloc fuel ops1
                        (make_table hash_func0 allocator0, w0) = Ok (table1, w1) /\
              Forall (fun e => sign e <> TOMBSTONE) (slots table1) /\
              capacity table1 <= 3 * Z.of_nat (length ops1) + 8).
  { intros ops1 Hops1 Hlen.
    assert (HB57 : 3 * Z.of_nat (length ops1) + 8 <= 2 ^ 57)
      by (change (2 ^ 57) with 144115188075855872; lia).
    assert (Hfit1 : (3 * Z.of_nat (length ops1) + 8) * sizeof_Table_Entry < 2 ^ 64) by nia.
    assert (Hfuel1 : (Z.to_nat (3 * Z.of_nat (length ops1) + 8) <= fuel)%nat) by lia.
    apply (update_run_returns fuel (3 * Z.of_nat (length ops1) + 8) HB57 Hsz Hfit1 Halloc
             Hfuel1 ops1 (make_table hash_func0 allocator0) [] w0 Hops1 Hrep0 Hload0).
    - constructor.
    - cbn. lia.
    - cbn [count make_table]. lia. }
  destruct (Hprefix ops Hops ltac:(lia)) as (table & w & Erun & Hnt & Hcap).
  exists table, w. split; [exact Erun |].
  assert (Hnc : Forall (fun op : Op => is_clear op = false) ops).
  { eapply Forall_impl; [exact Hops |]. intros [k v | k |]; cbn; congruence. }
  destruct (apply_ops_represents fuel ops _ _ _ _ _ Hnc Hload0 Hrep0 Erun)
    as (Hload & Hrep & _).
  fold (spec_run key_eqb ops) in Hrep.
  split; [exact (rep_count _ _ _ Hrep) |]. split; [exact Hcap |]. split.
  - intros ops1 ops2 Happ.
    assert (Hops1 : Forall (fun op => Iteration.is_update op = true) ops1).
    { rewrite Happ in Hops. apply Forall_app in Hops. exact (proj1 Hops). }
    assert (Hlen : (length ops1 <= length ops)%nat) by (rewrite Happ, length_app; lia).
    destruct (Hprefix ops1 Hops1 Hlen) as (table1 & w1 & Erun1 & _ & Hcap1).
    exists table1, w1. auto.
  - intros fuel' k Hfuel'.
    assert (Hfind : exists p, table_find key_eqb fuel' table k = Ok p).
    { destruct (Z.eq_dec (capacity table) 0) as [Hz | Hnz].
      - unfold table_find. rewrite Hz. cbn. eauto.
      - destruct Hload as [Hc [[Hz _] | (k1 & Hk1 & Hpow & Hlf)]]; [contradiction |].
        pose proof (pow2_ge_8 k1 ltac:(lia)) as H8. unfold LOAD_FACTOR in Hlf.
        apply (table_find_returns_within table _ k k1 fuel' Hrep); try assumption; lia. }
    destruct Hfind as [p Hp]. exists p. split; [exact Hp |].
    exact (table_find_represents fuel' table _ k p Hload Hrep Hp).
Qed.

End TableCorrectness.

(** *** [Table<int, int>] *)

Lemma usize_bytes_roundtrip (v : Z) :
  0 <= v < 2 ^ 64 -> usize_of_bytes (usize_to_bytes v) = v.
Proof.
  intros Hv. unfold usize_of_bytes, usize_to_bytes. cbn [map fold_right].
  rewrite !(Z.mod_small (byte_of _ _) 256) by apply byte_of_range.
  apply le_bytes_recompose. exact Hv.
Qed.

Lemma zero_prefix_nonpos (n : Z) (bs : list Z) : n <= 0 -> zero_prefix n bs = bs.
Proof.
  intros Hn. unfold zero_prefix.
  replace (Z.to_nat n) with 0%nat by lia.
  replace (Z.to_nat (Z.min n (Z.of_nat (length bs)))) with 0%nat by lia.
  reflexivity.
Qed.

(** [memset(entries, 0, capacity)] does not reach the signature of a slot
    [j] of a [Table<int, int>] with [capacity <= 16 * j + 8]: that is every
    slot from [capacity / 16] on. *)
Lemma memset_keeps_signature (n : Z) (es : list (Table_Entry Z Z)) (j : nat) (e : Table_Entry Z Z) :
  es !! j = Some e ->
  0 <= sign e < 2 ^ 64 ->
  n <= 16 * Z.of_nat j + 8 ->
  sign <$> (memset_entries n es !! j) = Some (sign e).
Proof.
  intros He Hs Hn. unfold memset_entries.
  rewrite list_lookup_imap, He. cbn [fmap option_fmap option_map memset_entry sign].
  f_equal. cbn [sizeof_Table_Entry sign_offset int_int_layout].
  rewrite zero_prefix_nonpos by lia.
  apply usize_bytes_roundtrip. exact Hs.
Qed.

(** The table test: 24 keys inserted with value [10 * key], overwritten
    with [100 * key], all removed, and inserted again with [1000 * key]. *)
Example table_test_scenario :
  observe (apply_ops Z.eqb bump_alloc 64 (updates_scaled 10) (int_table, []))
    = Some (24, 64, map (fun k => Some (k * 10)) test_keys) /\
  observe (apply_ops Z.eqb bump_alloc 64
             (updates_scaled 10 ++ updates_scaled 100) (int_table, []))
    = Some (24, 64, map (fun k => Some (k * 100)) test_keys) /\
  observe (apply_ops Z.eqb bump_alloc 64
             (updates_scaled 10 ++ updates_scaled 100 ++ map Op_remove test_keys)
             (int_table, []))
    = Some (0, 64, map (fun _ => None) test_keys) /\
  observe (apply_ops Z.eqb bump_alloc 64
             (updates_scaled 10 ++ updates_scaled 100 ++ map Op_remove test_keys
              ++ updates_scaled 1000) (int_table, []))
    = Some (24, 64, map (fun k => Some (k * 1000)) test_keys).
Proof. repeat split; vm_compute; reflexivity. Qed.

(** The collision test: every key hashes to [~0ull], all 24 are found. *)
Example table_badhash_scenario :
  observe (apply_ops Z.eqb bump_alloc 64 (updates_scaled 10)
             (make_table badhash mallocator_addr, []))
    = Some (24, 64, map (fun k => Some (k * 10)) test_keys).
Proof. vm_compute. reflexivity. Qed.

(** The correctness theorem at [Table<int, int>], on the three insertions. *)
Example three_table_correct :
  count three_table = 3 /\
  (forall (fuel : nat) (k : Z) (p : option Z),
     table_find Z.eqb fuel three_table k = Ok p ->
     value_at three_table p = spec_find Z.eqb k [(2, 20); (1, 10); (0, 0)]) /\
  (forall k : Z, exists (fuel : nat) (p : option Z),
     table_find Z.eqb fuel three_table k = Ok p).
Proof.
  assert (Hrun : apply_ops Z.eqb bump_alloc 8 three_updates (int_table, [])
                 = Ok (three_table, [Ev_alloc 4096 128 8 65536; Ev_free 4096 0]))
    by reflexivity.
  destruct (table_update_remove_correct Z.eqb bump_alloc Z.eqb_eq
              table_auto_hash mallocator_addr [] _ 8 three_updates three_table
              ltac:(repeat constructor) Hrun) as (Hcount & _ & Hfind & Hret).
  split; [exact Hcount |]. split; [exact Hfind |].
  intros k. apply Hret. right. left. exists 0%nat, (mkEntry 0 0 0). split; reflexivity.
Defined.

Lemma churned_table_saturated :
  Forall (fun e : Table_Entry Z Z => sign e = TOMBSTONE) (slots churned_table).
Proof. repeat constructor. Qed.

Lemma churned_table_never_found (fuel : nat) (key0 : Z) :
  table_find_entry Z.eqb fuel churned_table key0 = OutOfFuel.
Proof.
  apply find_entry_no_empty_slot.
  - cbn. lia.
  - reflexivity.
  - cbn. unfold NULL. lia.
  - cbn. lia.
  - intros j e He.
    pose proof (proj1 (Forall_lookup _ _) churned_table_saturated j e He) as Hs.
    cbn beta in Hs. rewrite Hs. unfold TOMBSTONE, EMPTY. lia.
  - intros j e He Hlive.
    pose proof (proj1 (Forall_lookup _ _) churned_table_saturated j e He) as Hs.
    cbn beta in Hs. unfold table_is_sentinel_entry in Hlive.
    rewrite Hs, Z.eqb_refl, orb_true_r in Hlive. discriminate.
Qed.

(** C1, failing run.  With the default hash, eight rounds of inserting a
    key and removing it again return normally and leave a table of
    capacity 8 with [count = 0] whose slots are all tombstones.  On that
    table [table_find] and [table_update] have not returned after any
    number of loop rounds, for any key: [table_find] does not return null
    for the removed keys, and no later insertion is ever found. *)
Theorem churn_then_find_never_returns :
  apply_ops Z.eqb bump_alloc 1 churn_ops (int_table, [])
    = Ok (churned_table, [Ev_alloc 4096 128 8 65536; Ev_free 4096 0]) /\
  count churned_table = 0 /\
  (forall (fuel : nat) (key0 : Z),
     table_find Z.eqb fuel churned_table key0 = OutOfFuel) /\
  (forall (fuel : nat) (key0 value0 : Z) (w : World),
     table_update Z.eqb bump_alloc fuel churned_table key0 value0 w = OutOfFuel).
Proof.
  split; [reflexivity |]. split; [reflexivity |]. split.
  - intros fuel key0. unfold table_find.
    change (capacity churned_table =? 0) with false. cbv iota.
    rewrite churned_table_never_found. reflexivity.
  - intros fuel key0 value0 w.
    unfold table_update, table_create_entry.
    change (table_grow_check Z.eqb bump_alloc fuel churned_table w)
      with (Ok (churned_table, w)). cbv iota beta.
    unfold table_claim_entry.
    change (table_find_entry_sign Z.eqb fuel churned_table key0
              (table_create_signature (wrap (hash_func churned_table key0))))
      with (table_find_entry Z.eqb fuel churned_table key0).
    rewrite churned_table_never_found. reflexivity.
Qed.

(** C5, failing input.  The table of eight tombstones has no empty slot
    and holds no key; yet [table_find_entry], with or without a
    precomputed signature, returns neither null nor a slot: for every key
    and every number of loop rounds the loop is still running.  Only a
    table with [count = capacity] gets the null result. *)
Theorem find_entry_tombstones_never_returns :
  Forall (fun e : Table_Entry Z Z => sign e <> EMPTY) (slots churned_table) /\
  (forall (fuel : nat) (key0 : Z),
     table_find_entry Z.eqb fuel churned_table key0 = OutOfFuel) /\
  (forall (fuel : nat) (key0 : Z),
     table_find_entry_sign Z.eqb fuel churned_table key0
       (table_create_signature (wrap (table_auto_hash key0))) = OutOfFuel) /\
  (forall (fuel : nat) (key0 : Z),
     table_find_entry Z.eqb fuel
       (mkTable 8 65536 8 mallocator_addr table_auto_hash (slots churned_table)) key0
     = Ok None).
Proof.
  split; [| split; [| split]].
  - eapply Forall_impl; [exact churned_table_saturated |].
    intros e He. cbn beta in He. rewrite He. unfold TOMBSTONE, EMPTY. lia.
  - exact churned_table_never_found.
  - exact churned_table_never_found.
  - intros fuel key0. reflexivity.
Qed.

(** C3, failing input.  [table_clear] on the table holding the keys 0, 1
    and 2 (capacity 8, 16-byte entries) zeroes 8 bytes, the key and value
    of slot 0, and resets [count]; every slot, signature included, stays
    as it was, so the entries are not empty and [table_find] still finds
    key 1 with its value 10. *)
Theorem table_clear_leaves_entries :
  apply_ops Z.eqb bump_alloc 8 three_updates (int_table, [])
    = Ok (three_table, [Ev_alloc 4096 128 8 65536; Ev_free 4096 0]) /\
  table_clear three_table
    = Ok (mkTable 0 65536 8 mallocator_addr table_auto_hash (slots three_table)) /\
  map sign (slots three_table) <> replicate 8 EMPTY /\
  table_find Z.eqb 1
    (mkTable 0 65536 8 mallocator_addr table_auto_hash (slots three_table)) 1
    = Ok (Some 1) /\
  value_at (mkTable 0 65536 8 mallocator_addr table_auto_hash (slots three_table)) (Some 1)
    = Some 10.
Proof.
  split; [reflexivity |]. split; [reflexivity |].
  split; [vm_compute; discriminate |]. split; reflexivity.
Qed.

(** C6, failing input.  A table made with a scoped allocator takes its
    entry array from that allocator on the first insertion; [deinit] then
    passes the array to the default allocator, not to the one stored in
    the table. *)
Theorem deinit_ignores_table_allocator :
  table_update Z.eqb bump_alloc 1 scoped_table 1 10 []
    = Ok (1, scoped_one,
          [Ev_alloc scoped_allocator_addr 128 8 65536;
           Ev_free scoped_allocator_addr NULL]) /\
  allocator scoped_one = scoped_allocator_addr /\
  entries scoped_one = 65536 /\
  (forall w : World,
     deinit mallocator_addr scoped_one w = w ++ [Ev_free mallocator_addr 65536]) /\
  mallocator_addr <> scoped_allocator_addr.
Proof.
  split; [reflexivity |]. split; [reflexivity |]. split; [reflexivity |].
  split; [intros w; reflexivity |]. vm_compute. discriminate.
Qed.

(** *** Signatures of live entries *)

(** The signature of a 64-bit hash is [2^63 + hash / 4]: the top bit is
    set and the two low bits of the hash are dropped.  It is therefore
    neither [EMPTY] nor [TOMBSTONE], an entry that carries it is not a
    sentinel, and the slot index [table_find_entry] starts from, the
    signature without its two top bits, is [hash / 4] without its top
    bit. *)
Theorem table_create_signature_spec (hash : Z) :
  0 <= hash < 2 ^ 64 ->
  table_create_signature hash = 2 ^ 63 + hash / 4 /\
  table_create_signature hash <> EMPTY /\
  table_create_signature hash <> TOMBSTONE /\
  (forall (K V : Type) (e : Table_Entry K V),
     sign e = table_create_signature hash -> table_is_sentinel_entry e = false) /\
  Z.land (table_create_signature hash) 0x3FFFFFFFFFFFFFFF = (hash / 4) mod 2 ^ 62.
Proof.
  intros Hh.
  assert (Hs : 0 <= hash / 4 < 2 ^ 62) by (Z.div_mod_to_equations; lia).
  assert (Hval : table_create_signature hash = 2 ^ 63 + hash / 4).
  { unfold table_create_signature. rewrite Z.shiftr_div_pow2 by lia.
    change (2 ^ 2) with 4. change 0x8000000000000000 with (2 ^ 63).
    rewrite <- Z.add_nocarry_lor; [lia |].
    apply Z.bits_inj'. intros n Hn. rewrite Z.land_spec, Z.bits_0.
    destruct (Z.eq_dec n 63) as [-> | Hne].
    - rewrite (Z.bits_above_log2 (hash / 4) 63); [reflexivity | lia |].
      destruct (Z.eq_dec (hash / 4) 0) as [-> | Hnz]; [cbn; lia |].
      apply Z.log2_lt_pow2; lia.
    - rewrite Z.pow2_bits_false by lia. apply andb_false_r. }
  split; [exact Hval |].
  assert (Hne : table_create_signature hash <> EMPTY /\
                table_create_signature hash <> TOMBSTONE).
  { rewrite Hval. unfold EMPTY, TOMBSTONE. lia. }
  split; [exact (proj1 Hne) |]. split; [exact (proj2 Hne) |]. split.
  - intros K V e He. unfold table_is_sentinel_entry. rewrite He.
    apply orb_false_iff. split; apply Z.eqb_neq; [exact (proj1 Hne) | exact (proj2 Hne)].
  - rewrite Hval. change 0x3FFFFFFFFFFFFFFF with (Z.ones 62).
    rewrite Z.land_ones by lia.
    replace (2 ^ 63 + hash / 4) with (hash / 4 + 2 * 2 ^ 62) by (change (2 ^ 63) with (2 * 2 ^ 62); lia).
    apply Z_mod_plus_full.
Qed.

Lemma table_create_signature_spec_witness :
  table_create_signature (table_auto_hash 1) = 12342874119663392217 /\
  table_create_signature (table_auto_hash 1) = 2 ^ 63 + table_auto_hash 1 / 4 /\
  Z.land (table_create_signature (table_auto_hash 1)) 0x3FFFFFFFFFFFFFFF
    = (table_auto_hash 1 / 4) mod 2 ^ 62.
Proof.
  assert (Hr : 0 <= table_auto_hash 1 < 2 ^ 64) by (vm_compute; split; congruence).
  destruct (table_create_signature_spec (table_auto_hash 1) Hr)
    as (Hval & _ & _ & _ & Hlow).
  split; [vm_compute; reflexivity |]. split; [exact Hval | exact Hlow].
Defined.

(** *** The operations at [Table<int, int>] *)

Lemma three_updates_run :
  apply_ops Z.eqb bump_alloc 8 three_updates (int_table, [])
  = Ok (three_table, [Ev_alloc 4096 128 8 65536; Ev_free 4096 0]).
Proof. reflexivity. Qed.

Lemma three_updates_no_clear :
  Forall (fun op : @Op Z Z => is_clear op = false) three_updates.
Proof. repeat constructor. Qed.

Lemma table_remove_result_witness :
  exists table2 : Table Z Z,
    table_remove Z.eqb 8 three_table 1 = Ok (true, table2) /\
    count table2 = 2 /\ capacity table2 = 8 /\
    (forall fuel p, table_find Z.eqb fuel table2 1 = Ok p -> p = None).
Proof.
  assert (Hok : match table_remove Z.eqb 8 three_table 1 with
                | Ok (removed, _) => removed
                | _ => false
                end = true) by (vm_compute; reflexivity).
  destruct (table_remove Z.eqb 8 three_table 1) as [[removed table2] | |] eqn:E;
    try discriminate Hok.
  subst removed.
  destruct (table_remove_result Z.eqb bump_alloc Z.eqb_eq table_auto_hash mallocator_addr
              [] _ 8 8 three_updates three_table table2 1 true
              three_updates_no_clear three_updates_run E)
    as (_ & _ & Hcount & Hcap & Hfind).
  exists table2. split; [reflexivity |]. split; [exact Hcount |].
  split; [exact Hcap | exact Hfind].
Defined.

Lemma table_expand_keeps_entries_witness :
  exists (table' : Table Z Z) (w' : World),
    table_expand Z.eqb bump_alloc 16 three_table 9
                 [Ev_alloc 4096 128 8 65536; Ev_free 4096 0] = Ok (table', w') /\
    capacity table' = 16 /\ count table' = 3 /\
    (forall k, exists p,
       table_find Z.eqb 16 table' k = Ok p /\
       value_at table' p = spec_find Z.eqb k (spec_run Z.eqb three_updates)).
Proof.
  assert (Hok : match table_expand Z.eqb bump_alloc 16 three_table 9
                        [Ev_alloc 4096 128 8 65536; Ev_free 4096 0] with
                | Ok _ => true
                | _ => false
                end = true) by (vm_compute; reflexivity).
  destruct (table_expand Z.eqb bump_alloc 16 three_table 9
              [Ev_alloc 4096 128 8 65536; Ev_free 4096 0]) as [[table' w'] | |] eqn:E;
    try discriminate Hok.
  assert (Hc0 : 1 <= 9 <= 2 ^ 63) by (split; [lia | discriminate]).
  destruct (table_expand_keeps_entries Z.eqb bump_alloc Z.eqb_eq table_auto_hash
              mallocator_addr [] _ _ 8 16 three_updates three_table table' 9
              three_updates_no_clear three_updates_run Hc0 E)
    as (Hcap & _ & Hcount & _ & Hfind & _).
  exists table', w'. split; [reflexivity |]. split; [exact Hcap |].
  split; [exact Hcount |].
  intros k. apply Hfind. rewrite Hcap. apply Nat.le_refl.
Defined.

Lemma table_subscript_spec_witness :
  exists (i : Z) (table2 : Table Z Z) (w2 : World),
    Iteration.table_subscript Z.eqb bump_alloc 8 three_table 7
      [Ev_alloc 4096 128 8 65536; Ev_free 4096 0] = Ok (i, table2, w2) /\
    count table2 = 4 /\
    (exists fuel, table_find Z.eqb fuel table2 7 = Ok (Some i)) /\
    (forall fuel p,
       table_find Z.eqb fuel table2 1 = Ok p -> value_at table2 p = Some 10).
Proof.
  assert (Hok : match Iteration.table_subscript Z.eqb bump_alloc 8 three_table 7
                        [Ev_alloc 4096 128 8 65536; Ev_free 4096 0] with
                | Ok _ => true
                | _ => false
                end = true) by (vm_compute; reflexivity).
  destruct (Iteration.table_subscript Z.eqb bump_alloc 8 three_table 7
              [Ev_alloc 4096 128 8 65536; Ev_free 4096 0]) as [[[i table2] w2] | |] eqn:E;
    try discriminate Hok.
  destruct (table_subscript_spec Z.eqb bump_alloc Z.eqb_eq table_auto_hash
              mallocator_addr [] _ _ 8 8 three_updates three_table table2 7 i
              three_updates_no_clear three_updates_run E)
    as (_ & _ & Hnew & Hfound & _ & Hother).
  exists i, table2, w2. split; [reflexivity |]. split; [exact (Hnew eq_refl) |].
  split; [exact Hfound |].
  intros fuel p Hp.
  assert (Hne : 1 <> 7) by discriminate.
  exact (Hother fuel 1 p Hne Hp).
Defined.

Lemma reachable_capacity_witness :
  capacity scoped_one = 2 ^ 3 /\
  (forall fuel op (table' : Table Z Z) w w',
     apply_op Z.eqb bump_alloc fuel op (scoped_one, w) = Ok (table', w') ->
     capacity scoped_one <= capacity table').
Proof.
  destruct (reachable_capacity Z.eqb bump_alloc scoped_one) as [_ Hmono].
  - apply (reachable_op Z.eqb bump_alloc 1 (Op_update 1 10) scoped_table scoped_one
             [] [Ev_alloc scoped_allocator_addr 128 8 65536;
                 Ev_free scoped_allocator_addr NULL]).
    + apply reachable_make.
    + reflexivity.
  - split; [reflexivity |].
    intros fuel op table' w w' Hop. exact (proj1 (Hmono fuel op table' w w' Hop)).
Defined.

Lemma table_iteration_spec_witness :
  exists items : list (Z * Z),
    Iteration.table_items 9 three_table = Ok items /\
    Permutation items (spec_run Z.eqb three_updates) /\
    Z.of_nat (length items) = 3.
Proof.
  assert (Hfuel : (Z.to_nat (capacity three_table) < 9)%nat) by (cbn; lia).
  destruct (table_iteration_spec Z.eqb bump_alloc Z.eqb_eq table_auto_hash mallocator_addr
              [] _ 8 9 three_updates three_table
              three_updates_no_clear three_updates_run Hfuel)
    as (items & Hitems & Hperm & Hlen & _).
  exists items. split; [exact Hitems |]. split; [exact Hperm | exact Hlen].
Defined.

Lemma table_update_run_returns_witness :
  exists (table : Table Z Z) (w : World),
    apply_ops Z.eqb bump_alloc 17 three_updates (int_table, []) = Ok (table, w) /\
    count table = 3 /\ capacity table <= 17 /\
    (forall k, exists p,
       table_find Z.eqb (Z.to_nat (capacity table)) table k = Ok p /\
       value_at table p = spec_find Z.eqb k (spec_run Z.eqb three_updates)).
Proof.
  destruct (table_update_run_returns Z.eqb bump_alloc Z.eqb_eq table_auto_hash
              mallocator_addr [] 17 three_updates)
    as (table & w & Hrun & Hcount & Hcap & _ & Hfind).
  - repeat constructor.
  - intros w a size align. unfold bump_alloc, NULL. lia.
  - reflexivity.
  - reflexivity.
  - reflexivity.
  - vm_compute. lia.
  - exists table, w. split; [exact Hrun |]. split; [exact Hcount |].
    split; [exact Hcap |].
    intros k. apply Hfind. apply Nat.le_refl.
Defined.


Lemma reachable_load_factor_witness :
  (0 < capacity scoped_one -> count scoped_one < capacity scoped_one) /\
  (forall (fuel : nat) (w w1 : World) (table1 : Table Z Z),
     table_grow_check Z.eqb bump_alloc fuel scoped_one w = Ok (table1, w1) ->
     count table1 = count scoped_one /\
     (capacity table1 = capacity scoped_one \/
      capacity table1 = Z.max (2 * capacity scoped_one) 8) /\
     (capacity scoped_one * 70 <= (count scoped_one + 1) * 100 ->
      capacity table1 = Z.max (2 * capacity scoped_one) 8) /\
     0 < capacity table1 /\ (count table1 + 1) * 100 < capacity table1 * 70).
Proof.
  apply (reachable_load_factor Z.eqb bump_alloc scoped_one).
  apply (reachable_op Z.eqb bump_alloc 1 (Op_update 1 10) scoped_table scoped_one
           [] [Ev_alloc scoped_allocator_addr 128 8 65536;
               Ev_free scoped_allocator_addr NULL]).
  - apply reachable_make.
  - reflexivity.
Defined.

End TableFacts.

(** * Part III: byte strings *)

Module StringFacts.
Import Machine Strings.

(** ** Bytes and bit fields *)

Lemma check_range (P : Z -> bool) (n : Z) :
  forallb P (seqZ 0 n) = true -> forall x, 0 <= x < n -> P x = true.
Proof.
  intros Hall x Hx. rewrite forallb_forall in Hall. apply Hall.
  apply list_elem_of_In, elem_of_seqZ. lia.
Qed.

Lemma lor_high_low (a b n : Z) :
  0 <= n -> 0 <= b < 2 ^ n -> Z.lor (a * 2 ^ n) b = a * 2 ^ n + b.
Proof.
  intros Hn Hb. symmetry. apply Z.add_nocarry_lor.
  apply Z.bits_inj'. intros i Hi. rewrite Z.land_spec, Z.bits_0.
  destruct (Z.lt_ge_cases i n) as [Hlt | Hge].
  - rewrite Z.mul_pow2_bits_low by lia. reflexivity.
  - rewrite <- (Z.mod_small b (2 ^ n)) by lia.
    rewrite Z.mod_pow2_bits_high by lia. apply andb_false_r.
Qed.

Lemma land_low (x n : Z) : 0 <= n -> Z.land x (2 ^ n - 1) = x mod 2 ^ n.
Proof.
  intros Hn. replace (2 ^ n - 1) with (Z.ones n) by (rewrite Z.ones_equiv; lia).
  apply Z.land_ones. exact Hn.
Qed.

Lemma u8_small (x : Z) : 0 <= x < 256 -> u8 x = x.
Proof. intros Hx. unfold u8. apply Z.mod_small. change (2 ^ 8) with 256. lia. Qed.

(** A continuation byte is one of [0x80 .. 0xBF]. *)
Lemma cont_byte_test (b : Z) :
  0 <= b < 256 -> (Z.land b 0xC0 =? 0x80) = (128 <=? b) && (b <? 192).
Proof.
  intros Hb.
  apply (check_range
           (fun b => Bool.eqb (Z.land b 0xC0 =? 0x80) ((128 <=? b) && (b <? 192))) 256)
    in Hb; [| vm_compute; reflexivity].
  apply eqb_prop. exact Hb.
Qed.

(** The sequence length the table gives for a leading byte. *)
Lemma first_byte_length (b0 : Z) :
  0 <= b0 < 256 ->
  utf8_first_byte_lengths !! Z.to_nat (Z.shiftr b0 3) = Some (lead_length b0).
Proof.
  intros Hb.
  apply (check_range
           (fun b0 => match utf8_first_byte_lengths !! Z.to_nat (Z.shiftr b0 3) with
                      | Some len => len =? lead_length b0
                      | None => false
                      end) 256)
    in Hb; [| vm_compute; reflexivity].
  destruct (utf8_first_byte_lengths !! Z.to_nat (Z.shiftr b0 3)) as [len |];
    [| discriminate].
  apply Z.eqb_eq in Hb. congruence.
Qed.

(** What [utf8_decode_cont] computes on bytes, in arithmetic. *)
Lemma decode_cont_value (val cont : Z) :
  0 <= val < 0x4000000 -> 0 <= cont < 256 ->
  utf8_decode_cont val cont =
    if (128 <=? cont) && (cont <? 192) then Some (val * 64 + (cont - 128)) else None.
Proof.
  intros Hv Hc. unfold utf8_decode_cont.
  rewrite cont_byte_test by exact Hc.
  destruct ((128 <=? cont) && (cont <? 192)) eqn:E; [| reflexivity].
  cbn [negb]. f_equal.
  apply andb_true_iff in E. destruct E as [E1 E2].
  change 0x3F with (2 ^ 6 - 1). rewrite land_low by lia.
  rewrite Z.shiftl_mul_pow2 by lia.
  unfold u32. change (2 ^ 32) with 4294967296.
  rewrite (Z.mod_small (val * 2 ^ 6)) by (change (2 ^ 6) with 64; lia).
  rewrite lor_high_low by first [lia | apply Z.mod_pos_bound; reflexivity].
  change (2 ^ 6) with 64. apply Z.leb_le in E1. apply Z.ltb_lt in E2.
  Z.to_euclidean_division_equations. lia.
Qed.


Lemma lead_payload (b0 lo n : Z) :
  0 <= n -> lo mod 2 ^ n = 0 -> lo <= b0 < lo + 2 ^ n ->
  Z.land b0 (2 ^ n - 1) = b0 - lo.
Proof.
  intros Hn Hlo Hb. rewrite land_low by exact Hn.
  assert (H2n : 0 < 2 ^ n) by (apply Z.pow_pos_nonneg; lia).
  replace b0 with (b0 - lo + lo) at 1 by lia.
  rewrite <- Z.add_mod_idemp_r, Hlo, Z.add_0_r by lia.
  apply Z.mod_small. lia.
Qed.

Ltac bool_to_prop :=
  repeat match goal with
    | H : (_ <? _) = true |- _ => apply Z.ltb_lt in H
    | H : (_ <? _) = false |- _ => apply Z.ltb_ge in H
    | H : (_ <=? _) = true |- _ => apply Z.leb_le in H
    | H : (_ <=? _) = false |- _ => apply Z.leb_gt in H
    | H : (_ >? _) = true |- _ => rewrite Z.gtb_ltb in H; apply Z.ltb_lt in H
    | H : (_ >? _) = false |- _ => rewrite Z.gtb_ltb in H; apply Z.ltb_ge in H
    | H : (_ >=? _) = true |- _ => rewrite Z.geb_leb in H; apply Z.leb_le in H
    | H : (_ >=? _) = false |- _ => rewrite Z.geb_leb in H; apply Z.leb_gt in H
    | H : (_ =? _) = true |- _ => apply Z.eqb_eq in H
    | H : (_ =? _) = false |- _ => apply Z.eqb_neq in H
    | H : _ && _ = true |- _ => apply andb_true_iff in H; destruct H
    | H : _ || _ = false |- _ => apply orb_false_iff in H; destruct H
    end.

Lemma decode_cont_at_value (str : list Z) (i : nat) (val b : Z)
    (k : Z -> Result (Z * Z)) :
  str !! i = Some b -> 0 <= val < 0x4000000 -> 0 <= b < 256 ->
  decode_cont_at str i val k =
    if is_cont b then k (val * 64 + (b - 128)) else Ok (0xFFFD, 1).
Proof.
  intros Hi Hv Hb. unfold decode_cont_at, byte_at. rewrite Hi.
  rewrite decode_cont_value by assumption. unfold is_cont.
  destruct ((128 <=? b) && (b <? 192)); reflexivity.
Qed.

(** [string_decode_rune] never reads outside the string, and computes
    [decode_cases]. *)
Lemma decode_rune_cases (str : list Z) :
  Forall is_byte str -> string_decode_rune str = Ok (decode_cases str).
Proof.
  intros Hbytes. destruct str as [| b0 rest]; [reflexivity |].
  apply Forall_cons in Hbytes. destruct Hbytes as [Hb0 Hrest]. unfold is_byte in Hb0.
  unfold string_decode_rune. rewrite first_byte_length by exact Hb0.
  unfold lead_length, decode_cases.
  destruct (b0 <? 128) eqn:E1; [reflexivity |].
  destruct (b0 <? 192) eqn:E2; [reflexivity |].
  destruct (b0 <? 224) eqn:E3.
  { bool_to_prop. change (2 =? 1) with false. cbv iota.
    destruct rest as [| b1 rest]; [reflexivity |].
    apply Forall_cons in Hrest. destruct Hrest as [Hb1 _]. unfold is_byte in Hb1.
    replace (Z.of_nat (length (b0 :: b1 :: rest)) <? 2) with false
      by (symmetry; apply Z.ltb_ge; cbn [length]; lia).
    change (2 =? 2) with true. cbv iota.
    change 0x1F with (2 ^ 5 - 1). rewrite (lead_payload b0 192 5) by (try reflexivity; lia).
    rewrite (decode_cont_at_value _ 1 _ b1) by (try reflexivity; lia).
    destruct (is_cont b1); [| reflexivity].
    cbv zeta. destruct (_ <? 0x80); reflexivity. }
  destruct (b0 <? 240) eqn:E4.
  { bool_to_prop. change (3 =? 1) with false. cbv iota.
    destruct rest as [| b1 [| b2 rest]]; [reflexivity | reflexivity |].
    apply Forall_cons in Hrest. destruct Hrest as [Hb1 Hrest].
    apply Forall_cons in Hrest. destruct Hrest as [Hb2 _]. unfold is_byte in Hb1, Hb2.
    replace (Z.of_nat (length (b0 :: b1 :: b2 :: rest)) <? 3) with false
      by (symmetry; apply Z.ltb_ge; cbn [length]; lia).
    change (3 =? 2) with false. change (3 =? 3) with true. cbv iota.
    change 0x0F with (2 ^ 4 - 1). rewrite (lead_payload b0 224 4) by (try reflexivity; lia).
    rewrite (decode_cont_at_value _ 1 _ b1) by (try reflexivity; lia).
    destruct (is_cont b1) eqn:C1; [| reflexivity]. cbn [andb].
    unfold is_cont in C1. bool_to_prop.
    rewrite (decode_cont_at_value _ 2 _ b2) by (try reflexivity; lia).
    destruct (is_cont b2); [| reflexivity].
    cbv zeta. destruct (_ <? 0x800); [reflexivity |].
    destruct ((0xD800 <=? _) && _); reflexivity. }
  destruct (b0 <? 248) eqn:E5.
  { bool_to_prop. change (4 =? 1) with false. cbv iota.
    destruct rest as [| b1 [| b2 [| b3 rest]]]; [reflexivity | reflexivity | reflexivity |].
    apply Forall_cons in Hrest. destruct Hrest as [Hb1 Hrest].
    apply Forall_cons in Hrest. destruct Hrest as [Hb2 Hrest].
    apply Forall_cons in Hrest. destruct Hrest as [Hb3 _].
    unfold is_byte in Hb1, Hb2, Hb3.
    replace (Z.of_nat (length (b0 :: b1 :: b2 :: b3 :: rest)) <? 4) with false
      by (symmetry; apply Z.ltb_ge; cbn [length]; lia).
    change (4 =? 2) with false. change (4 =? 3) with false. change (4 =? 4) with true.
    cbv iota.
    change 0x07 with (2 ^ 3 - 1). rewrite (lead_payload b0 240 3) by (try reflexivity; lia).
    rewrite (decode_cont_at_value _ 1 _ b1) by (try reflexivity; lia).
    destruct (is_cont b1) eqn:C1; [| reflexivity]. cbn [andb].
    unfold is_cont in C1. bool_to_prop.
    rewrite (decode_cont_at_value _ 2 _ b2) by (try reflexivity; lia).
    destruct (is_cont b2) eqn:C2; [| reflexivity]. cbn [andb].
    unfold is_cont in C2. bool_to_prop.
    rewrite (decode_cont_at_value _ 3 _ b3) by (try reflexivity; lia).
    destruct (is_cont b3); [| reflexivity].
    cbv zeta. destruct (_ <? 0x10000); [reflexivity |].
    destruct (_ >? 0x10FFFF); reflexivity. }
  change (0 =? 1) with false. cbv iota.
  replace (Z.of_nat (length (b0 :: rest)) <? 0) with false
    by (symmetry; apply Z.ltb_ge; lia).
  reflexivity.
Qed.

Lemma enc_lead (a n x : Z) :
  0 <= n -> 0 <= x < 2 ^ n -> 0 <= a -> a * 2 ^ n + 2 ^ n <= 256 ->
  u8 (Z.lor (a * 2 ^ n) x) = a * 2 ^ n + x.
Proof.
  intros Hn Hx Ha Hlim. rewrite lor_high_low by assumption.
  apply u8_small. nia.
Qed.

Lemma enc_cont (x : Z) : u8 (Z.lor 0x80 (Z.land x 0x3F)) = 128 + x mod 64.
Proof.
  change 0x3F with (2 ^ 6 - 1). rewrite land_low by lia.
  change 0x80 with (2 * 2 ^ 6).
  pose proof (Z.mod_pos_bound x (2 ^ 6) eq_refl) as Hm.
  rewrite enc_lead by (try lia; change (2 ^ 6) with 64; lia).
  reflexivity.
Qed.

Ltac short_string :=
  cbn; rewrite ?andb_false_r; cbn; rewrite ?andb_false_r; reflexivity.

(** [string_encode_rune] by cases: nothing is written when the rune has no
    encoding or the string is too short for it; otherwise the bytes of the
    encoding replace the first bytes of the string. *)
Lemma encode_rune_cases (str : list Z) (rune : Z) :
  0 <= rune ->
  string_encode_rune str rune =
    if (rune_length rune =? 0) || (Z.of_nat (length str) <? rune_length rune)
    then (0, str)
    else (rune_length rune, rune_bytes rune ++ drop (Z.to_nat (rune_length rune)) str).
Proof.
  intros Hr. unfold string_encode_rune, rune_length, rune_bytes.
  destruct (rune <? 0x80) eqn:E1.
  { destruct str as [| x0 rest]; [short_string |].
    replace (0 <? Z.of_nat (length (x0 :: rest))) with true
      by (symmetry; apply Z.ltb_lt; cbn [length]; lia).
    replace (Z.of_nat (length (x0 :: rest)) <? 1) with false
      by (symmetry; apply Z.ltb_ge; cbn [length]; lia).
    bool_to_prop. cbn. rewrite u8_small by lia. reflexivity. }
  destruct (rune <? 0x800) eqn:E2.
  { bool_to_prop. cbn [andb].
    assert (Hq : 0 <= rune / 64 < 2 ^ 5)
      by (change (2 ^ 5) with 32; Z.to_euclidean_division_equations; lia).
    destruct str as [| x0 [| x1 rest]]; [short_string | short_string |].
    replace (1 <? Z.of_nat (length (x0 :: x1 :: rest))) with true
      by (symmetry; apply Z.ltb_lt; cbn [length]; lia).
    replace (Z.of_nat (length (x0 :: x1 :: rest)) <? 2) with false
      by (symmetry; apply Z.ltb_ge; cbn [length]; lia).
    cbn [andb orb Z.eqb]. cbn [list_insert insert].
    rewrite enc_cont. rewrite Z.shiftr_div_pow2 by lia.
    change 0xC0 with (6 * 2 ^ 5). change (2 ^ 6) with 64.
    rewrite enc_lead by (try lia; change (2 ^ 5) with 32; lia).
    reflexivity. }
  destruct (rune <? 0x10000) eqn:E3.
  { bool_to_prop. cbn [andb].
    assert (Hq : 0 <= rune / 4096 < 2 ^ 4)
      by (change (2 ^ 4) with 16; Z.to_euclidean_division_equations; lia).
    replace (rune <? 0x110000) with true by (symmetry; apply Z.ltb_lt; lia).
    cbn [andb].
    destruct ((0xD800 <=? rune) && (rune <=? 0xDFFF)) eqn:Es.
    { cbn [Z.eqb orb].
      destruct (2 <? Z.of_nat (length str)) eqn:E4; [reflexivity |].
      destruct (3 <? Z.of_nat (length str)) eqn:E5; [| reflexivity].
      bool_to_prop. lia. }
    destruct str as [| x0 [| x1 [| x2 rest]]]; [short_string | short_string | short_string |].
    replace (2 <? Z.of_nat (length (x0 :: x1 :: x2 :: rest))) with true
      by (symmetry; apply Z.ltb_lt; cbn [length]; lia).
    replace (Z.of_nat (length (x0 :: x1 :: x2 :: rest)) <? 3) with false
      by (symmetry; apply Z.ltb_ge; cbn [length]; lia).
    cbn [andb orb Z.eqb]. cbn [list_insert insert].
    rewrite !enc_cont. rewrite !Z.shiftr_div_pow2 by lia.
    change 0xE0 with (14 * 2 ^ 4). change (2 ^ 6) with 64. change (2 ^ 12) with 4096.
    rewrite enc_lead by (try lia; change (2 ^ 4) with 16; lia).
    reflexivity. }
  destruct (rune <? 0x110000) eqn:E4.
  { bool_to_prop. cbn [andb].
    assert (Hq : 0 <= rune / 262144 < 2 ^ 3)
      by (change (2 ^ 3) with 8; Z.to_euclidean_division_equations; lia).
    destruct str as [| x0 [| x1 [| x2 [| x3 rest]]]];
      [short_string | short_string | short_string | short_string |].
    replace (3 <? Z.of_nat (length (x0 :: x1 :: x2 :: x3 :: rest))) with true
      by (symmetry; apply Z.ltb_lt; cbn [length]; lia).
    replace (Z.of_nat (length (x0 :: x1 :: x2 :: x3 :: rest)) <? 4) with false
      by (symmetry; apply Z.ltb_ge; cbn [length]; lia).
    cbn [andb orb Z.eqb]. cbn [list_insert insert].
    rewrite !enc_cont. rewrite !Z.shiftr_div_pow2 by lia.
    change 0xF0 with (30 * 2 ^ 3). change (2 ^ 6) with 64. change (2 ^ 12) with 4096.
    change (2 ^ 18) with 262144.
    rewrite enc_lead by (try lia; change (2 ^ 3) with 8; lia).
    reflexivity. }
  cbn [andb orb Z.eqb]. reflexivity.
Qed.

(** ** UTF-8: [string_encode_rune] and [string_decode_rune] *)

Ltac scalar_cases rune :=
  unfold rune_length, rune_bytes;
  destruct (rune <? 0x80) eqn:?E1;
  [| destruct (rune <? 0x800) eqn:?E2;
     [| destruct (rune <? 0x10000) eqn:?E3;
        [| destruct (rune <? 0x110000) eqn:?E4]]];
  bool_to_prop.

Lemma rune_length_scalar (rune : Z) :
  0 <= rune -> (rune_length rune <> 0 <-> is_scalar rune).
Proof.
  intros Hr. unfold is_scalar. scalar_cases rune; try (split; [intros _ | intros _; discriminate]; lia).
  - destruct ((0xD800 <=? rune) && (rune <=? 0xDFFF)) eqn:Es.
    + bool_to_prop. split; [congruence | lia].
    + split; [intros _ | intros _; discriminate].
      apply andb_false_iff in Es. destruct Es; bool_to_prop; lia.
  - split; [congruence | lia].
Qed.

Lemma rune_bytes_length (rune : Z) :
  is_scalar rune -> Z.of_nat (length (rune_bytes rune)) = rune_length rune.
Proof.
  intros [Hr Hs]. scalar_cases rune; try reflexivity; try lia.
  replace ((0xD800 <=? rune) && (rune <=? 0xDFFF)) with false; [reflexivity |].
  symmetry. apply andb_false_iff.
  destruct (Z.le_gt_cases 0xD800 rune); [right | left]; [apply Z.leb_gt | apply Z.leb_gt]; lia.
Qed.

Lemma rune_bytes_are_bytes (rune : Z) :
  is_scalar rune -> Forall is_byte (rune_bytes rune).
Proof.
  intros [Hr Hs]. unfold is_byte. scalar_cases rune; try lia;
    repeat apply Forall_cons_2; try apply Forall_nil_2;
    Z.to_euclidean_division_equations; lia.
Qed.

Lemma not_surrogate_test (rune : Z) :
  ~ (0xD800 <= rune <= 0xDFFF) -> (0xD800 <=? rune) && (rune <=? 0xDFFF) = false.
Proof.
  intros Hs. apply andb_false_iff.
  destruct (Z.le_gt_cases 0xD800 rune); [right | left]; apply Z.leb_gt; lia.
Qed.

(** Decoding the encoding of a scalar value gives the value and the length
    of the encoding, whatever follows it. *)
Lemma decode_cases_rune_bytes (rune : Z) (tail : list Z) :
  is_scalar rune ->
  decode_cases (rune_bytes rune ++ tail) = (rune, rune_length rune).
Proof.
  intros [Hr Hs]. pose proof (not_surrogate_test rune Hs) as Hns.
  scalar_cases rune; try lia.
  - cbn [app decode_cases].
    replace (rune <? 128) with true by (symmetry; apply Z.ltb_lt; lia). reflexivity.
  - cbn [app decode_cases].
    assert (Hq : 2 <= rune / 64 < 32) by (Z.to_euclidean_division_equations; lia).
    assert (Hm : 0 <= rune mod 64 < 64) by (Z.to_euclidean_division_equations; lia).
    replace (192 + rune / 64 <? 128) with false by (symmetry; apply Z.ltb_ge; lia).
    replace (192 + rune / 64 <? 192) with false by (symmetry; apply Z.ltb_ge; lia).
    replace (192 + rune / 64 <? 224) with true by (symmetry; apply Z.ltb_lt; lia).
    unfold is_cont.
    replace (128 <=? 128 + rune mod 64) with true by (symmetry; apply Z.leb_le; lia).
    replace (128 + rune mod 64 <? 192) with true by (symmetry; apply Z.ltb_lt; lia).
    cbn [andb]. cbv zeta.
    replace ((192 + rune / 64 - 192) * 64 + (128 + rune mod 64 - 128)) with rune
      by (Z.to_euclidean_division_equations; lia).
    replace (rune <? 128) with false by (symmetry; apply Z.ltb_ge; lia). reflexivity.
  - rewrite Hns. cbn [app decode_cases].
    assert (Hq : 0 <= rune / 4096 < 16) by (Z.to_euclidean_division_equations; lia).
    assert (Hm1 : 0 <= (rune / 64) mod 64 < 64) by (Z.to_euclidean_division_equations; lia).
    assert (Hm : 0 <= rune mod 64 < 64) by (Z.to_euclidean_division_equations; lia).
    replace (224 + rune / 4096 <? 128) with false by (symmetry; apply Z.ltb_ge; lia).
    replace (224 + rune / 4096 <? 192) with false by (symmetry; apply Z.ltb_ge; lia).
    replace (224 + rune / 4096 <? 224) with false by (symmetry; apply Z.ltb_ge; lia).
    replace (224 + rune / 4096 <? 240) with true by (symmetry; apply Z.ltb_lt; lia).
    unfold is_cont.
    replace (128 <=? 128 + rune / 64 mod 64) with true by (symmetry; apply Z.leb_le; lia).
    replace (128 + rune / 64 mod 64 <? 192) with true by (symmetry; apply Z.ltb_lt; lia).
    replace (128 <=? 128 + rune mod 64) with true by (symmetry; apply Z.leb_le; lia).
    replace (128 + rune mod 64 <? 192) with true by (symmetry; apply Z.ltb_lt; lia).
    cbn [andb]. cbv zeta.
    replace (((224 + rune / 4096 - 224) * 64 + (128 + rune / 64 mod 64 - 128)) * 64
             + (128 + rune mod 64 - 128)) with rune
      by (Z.to_euclidean_division_equations; lia).
    replace (rune <? 2048) with false by (symmetry; apply Z.ltb_ge; lia).
    rewrite Hns. reflexivity.
  - cbn [app decode_cases].
    assert (Hq : 0 <= rune / 262144 < 8) by (Z.to_euclidean_division_equations; lia).
    assert (Hm2 : 0 <= (rune / 4096) mod 64 < 64) by (Z.to_euclidean_division_equations; lia).
    assert (Hm1 : 0 <= (rune / 64) mod 64 < 64) by (Z.to_euclidean_division_equations; lia).
    assert (Hm : 0 <= rune mod 64 < 64) by (Z.to_euclidean_division_equations; lia).
    replace (240 + rune / 262144 <? 128) with false by (symmetry; apply Z.ltb_ge; lia).
    replace (240 + rune / 262144 <? 192) with false by (symmetry; apply Z.ltb_ge; lia).
    replace (240 + rune / 262144 <? 224) with false by (symmetry; apply Z.ltb_ge; lia).
    replace (240 + rune / 262144 <? 240) with false by (symmetry; apply Z.ltb_ge; lia).
    replace (240 + rune / 262144 <? 248) with true by (symmetry; apply Z.ltb_lt; lia).
    unfold is_cont.
    replace (128 <=? 128 + rune / 4096 mod 64) with true by (symmetry; apply Z.leb_le; lia).
    replace (128 + rune / 4096 mod 64 <? 192) with true by (symmetry; apply Z.ltb_lt; lia).
    replace (128 <=? 128 + rune / 64 mod 64) with true by (symmetry; apply Z.leb_le; lia).
    replace (128 + rune / 64 mod 64 <? 192) with true by (symmetry; apply Z.ltb_lt; lia).
    replace (128 <=? 128 + rune mod 64) with true by (symmetry; apply Z.leb_le; lia).
    replace (128 + rune mod 64 <? 192) with true by (symmetry; apply Z.ltb_lt; lia).
    cbn [andb]. cbv zeta.
    replace ((((240 + rune / 262144 - 240) * 64 + (128 + rune / 4096 mod 64 - 128)) * 64
              + (128 + rune / 64 mod 64 - 128)) * 64 + (128 + rune mod 64 - 128)) with rune
      by (Z.to_euclidean_division_equations; lia).
    replace (rune <? 65536) with false by (symmetry; apply Z.ltb_ge; lia).
    replace (rune >? 1114111) with false
      by (symmetry; rewrite Z.gtb_ltb; apply Z.ltb_ge; lia).
    reflexivity.
Qed.

(** What a result of [decode_cases] says about the bytes decoded: it is
    one of the two error pairs, or the rune is a scalar value and the bytes
    consumed are exactly its encoding. *)
Lemma decode_cases_inverse (str : list Z) (rune len : Z) :
  Forall is_byte str ->
  decode_cases str = (rune, len) ->
  (rune = 0xFFFD /\ ((len = 0 /\ str = []) \/ (len = 1 /\ str <> []))) \/
  (is_scalar rune /\ len = rune_length rune /\
   take (Z.to_nat len) str = rune_bytes rune).
Proof.
  intros Hbytes. unfold is_scalar.
  destruct str as [| b0 rest]; [intros [= <- <-]; left; auto |].
  apply Forall_cons in Hbytes. destruct Hbytes as [Hb0 Hrest]. unfold is_byte in Hb0.
  assert (Herr : (0xFFFD, 1) = (rune, len) ->
                 (rune = 0xFFFD /\ ((len = 0 /\ b0 :: rest = []) \/
                                    (len = 1 /\ b0 :: rest <> []))) \/
                 ((0 <= rune < 0x110000 /\ ~ (0xD800 <= rune <= 0xDFFF)) /\
                  len = rune_length rune /\
                  take (Z.to_nat len) (b0 :: rest) = rune_bytes rune)).
  { intros [= <- <-]. left. split; [reflexivity |]. right. split; [reflexivity | discriminate]. }
  unfold decode_cases.
  destruct (b0 <? 128) eqn:E1.
  { intros [= <- <-]. right. bool_to_prop. unfold rune_length, rune_bytes.
    replace (b0 <? 128) with true by (symmetry; apply Z.ltb_lt; lia).
    split; [lia |]. split; [reflexivity |].
    change (Z.to_nat 1) with 1%nat. cbn [take]. rewrite take_0. reflexivity. }
  destruct (b0 <? 192) eqn:E2; [exact Herr |].
  destruct (b0 <? 224) eqn:E3.
  { destruct rest as [| b1 rest]; [exact Herr |].
    apply Forall_cons in Hrest. destruct Hrest as [Hb1 _]. unfold is_byte in Hb1.
    destruct (is_cont b1) eqn:C1; [| exact Herr]. cbv zeta.
    set (v := (b0 - 192) * 64 + (b1 - 128)) in *.
    destruct (v <? 0x80) eqn:Ev; [exact Herr |].
    intros [= <- <-]. right. unfold is_cont in C1. bool_to_prop.
    assert (Hv : 128 <= v < 2048) by (unfold v; lia).
    unfold rune_length, rune_bytes.
    replace (v <? 128) with false by (symmetry; apply Z.ltb_ge; lia).
    replace (v <? 2048) with true by (symmetry; apply Z.ltb_lt; lia).
    split; [lia |]. split; [reflexivity |].
    change (Z.to_nat 2) with 2%nat. cbn [take]. rewrite take_0.
    repeat f_equal; unfold v; Z.to_euclidean_division_equations; lia. }
  destruct (b0 <? 240) eqn:E4.
  { destruct rest as [| b1 [| b2 rest]]; [exact Herr | exact Herr |].
    apply Forall_cons in Hrest. destruct Hrest as [Hb1 Hrest].
    apply Forall_cons in Hrest. destruct Hrest as [Hb2 _]. unfold is_byte in Hb1, Hb2.
    destruct (is_cont b1) eqn:C1; [| exact Herr].
    destruct (is_cont b2) eqn:C2; [| exact Herr]. cbn [andb]. cbv zeta.
    destruct (_ <? 0x800) eqn:Ev; [exact Herr |].
    destruct ((0xD800 <=? _) && _) eqn:Es; [exact Herr |].
    intros [= <- <-]. right. unfold is_cont in C1, C2. bool_to_prop.
    set (v := ((b0 - 224) * 64 + (b1 - 128)) * 64 + (b2 - 128)) in *.
    assert (Hv : 2048 <= v < 65536) by (unfold v; lia).
    assert (Hns : ~ (0xD800 <= v <= 0xDFFF)).
    { intros [Hlo Hhi]. apply andb_false_iff in Es. destruct Es; bool_to_prop; lia. }
    unfold rune_length, rune_bytes.
    replace (v <? 128) with false by (symmetry; apply Z.ltb_ge; lia).
    replace (v <? 2048) with false by (symmetry; apply Z.ltb_ge; lia).
    replace (v <? 65536) with true by (symmetry; apply Z.ltb_lt; lia).
    rewrite (not_surrogate_test v Hns).
    split; [lia |]. split; [reflexivity |].
    change (Z.to_nat 3) with 3%nat. cbn [take]. rewrite take_0.
    repeat f_equal; unfold v; Z.to_euclidean_division_equations; lia. }
  destruct (b0 <? 248) eqn:E5; [| exact Herr].
  destruct rest as [| b1 [| b2 [| b3 rest]]]; [exact Herr | exact Herr | exact Herr |].
  apply Forall_cons in Hrest. destruct Hrest as [Hb1 Hrest].
  apply Forall_cons in Hrest. destruct Hrest as [Hb2 Hrest].
  apply Forall_cons in Hrest. destruct Hrest as [Hb3 _].
  unfold is_byte in Hb1, Hb2, Hb3.
  destruct (is_cont b1) eqn:C1; [| exact Herr].
  destruct (is_cont b2) eqn:C2; [| exact Herr].
  destruct (is_cont b3) eqn:C3; [| exact Herr]. cbn [andb]. cbv zeta.
  destruct (_ <? 0x10000) eqn:Ev; [exact Herr |].
  destruct (_ >? 0x10FFFF) eqn:Ew; [exact Herr |].
  intros [= <- <-]. right. unfold is_cont in C1, C2, C3. bool_to_prop.
  set (v := (((b0 - 240) * 64 + (b1 - 128)) * 64 + (b2 - 128)) * 64 + (b3 - 128)) in *.
  assert (Hv : 65536 <= v < 1114112) by lia.
  unfold rune_length, rune_bytes.
  replace (v <? 128) with false by (symmetry; apply Z.ltb_ge; lia).
  replace (v <? 2048) with false by (symmetry; apply Z.ltb_ge; lia).
  replace (v <? 65536) with false by (symmetry; apply Z.ltb_ge; lia).
  replace (v <? 1114112) with true by (symmetry; apply Z.ltb_lt; lia).
  split; [lia |]. split; [reflexivity |].
  change (Z.to_nat 4) with 4%nat. cbn [take]. rewrite take_0.
  repeat f_equal; unfold v; Z.to_euclidean_division_equations; lia.
Qed.

Lemma encode_rune_success (str str' : list Z) (rune n : Z) :
  0 <= rune ->
  string_encode_rune str rune = (n, str') -> n <> 0 ->
  is_scalar rune /\ n = rune_length rune /\ n <= Z.of_nat (length str) /\
  str' = rune_bytes rune ++ drop (Z.to_nat n) str.
Proof.
  intros Hr Henc Hn. rewrite encode_rune_cases in Henc by exact Hr.
  destruct (rune_length rune =? 0) eqn:E0; cbn [orb] in Henc; [congruence |].
  destruct (Z.of_nat (length str) <? rune_length rune) eqn:E1; [congruence |].
  injection Henc as <- <-. bool_to_prop.
  split; [apply rune_length_scalar; assumption |]. split; [reflexivity |].
  split; [lia | reflexivity].
Qed.

(** Encoding then decoding.  Whenever [string_encode_rune] writes a rune
    into a string of bytes (it returns a length other than 0),
    [string_decode_rune] on the string written reads no byte outside it and
    returns that rune and that length. *)
Theorem decode_encode_rune (str str' : list Z) (rune n : Z) :
  Forall is_byte str -> 0 <= rune ->
  string_encode_rune str rune = (n, str') -> n <> 0 ->
  string_decode_rune str' = Ok (rune, n).
Proof.
  intros Hbytes Hr Henc Hn.
  destruct (encode_rune_success str str' rune n Hr Henc Hn) as (Hs & -> & _ & ->).
  rewrite decode_rune_cases.
  - rewrite decode_cases_rune_bytes by exact Hs. reflexivity.
  - apply Forall_app. split; [apply rune_bytes_are_bytes; exact Hs |].
    apply Forall_drop. exact Hbytes.
Qed.

(** What [string_encode_rune] writes.  The string keeps its length and
    every byte from index [n] on, [n] being the length returned; [n] is 0,
    and nothing is written, exactly when the rune is a surrogate half or
    above [0x10FFFF] or the string is shorter than the encoding; otherwise
    [n] is the length of the encoding and the first [n] bytes are the
    encoding. *)
Theorem encode_rune_result (str str' : list Z) (rune n : Z) :
  0 <= rune ->
  string_encode_rune str rune = (n, str') ->
  length str' = length str /\
  drop (Z.to_nat n) str' = drop (Z.to_nat n) str /\
  (n = 0 <-> ~ is_scalar rune \/ Z.of_nat (length str) < rune_length rune) /\
  (n = 0 -> str' = str) /\
  (n <> 0 -> n = rune_length rune /\ take (Z.to_nat n) str' = rune_bytes rune).
Proof.
  intros Hr Henc. pose proof Henc as Hcases.
  rewrite encode_rune_cases in Hcases by exact Hr.
  pose proof (rune_length_scalar rune Hr) as Hsc.
  destruct (rune_length rune =? 0) eqn:E0; cbn [orb] in Hcases.
  { injection Hcases as <- <-. bool_to_prop.
    split; [reflexivity |]. split; [reflexivity |].
    split; [split; [intros _; left; tauto | reflexivity] |].
    split; [reflexivity | congruence]. }
  destruct (Z.of_nat (length str) <? rune_length rune) eqn:E1.
  { injection Hcases as <- <-. bool_to_prop.
    split; [reflexivity |]. split; [reflexivity |].
    split; [split; [intros _; right; lia | reflexivity] |].
    split; [reflexivity | congruence]. }
  injection Hcases as <- <-. bool_to_prop.
  assert (Hs : is_scalar rune) by (apply Hsc; assumption).
  pose proof (rune_bytes_length rune Hs) as Hlen.
  assert (Hlen' : length (rune_bytes rune) = Z.to_nat (rune_length rune)) by lia.
  split; [| split; [| split; [| split]]].
  - rewrite length_app, length_drop. lia.
  - rewrite <- Hlen' at 1. rewrite drop_app_length. reflexivity.
  - split; [congruence |]. intros [Hns | Hshort]; [tauto | lia].
  - congruence.
  - intros _. split; [reflexivity |].
    rewrite <- Hlen'. rewrite take_app_length. reflexivity.
Qed.

(** Decoding then encoding.  When [string_decode_rune] on a string of
    bytes returns a pair other than the two error pairs [(0xFFFD, 0)] and
    [(0xFFFD, 1)], the rune is a Unicode scalar value and the bytes
    consumed are its one encoding: [string_encode_rune] of the rune into
    any string of at least that length returns the same length and writes
    the same bytes.  Overlong forms, surrogate halves and values above
    [0x10FFFF] are therefore never decoded. *)
Theorem encode_decode_rune (str buf : list Z) (rune len : Z) :
  Forall is_byte str ->
  string_decode_rune str = Ok (rune, len) ->
  (rune, len) <> (0xFFFD, 0) -> (rune, len) <> (0xFFFD, 1) ->
  len <= Z.of_nat (length buf) ->
  is_scalar rune /\
  exists buf',
    string_encode_rune buf rune = (len, buf') /\
    take (Z.to_nat len) buf' = take (Z.to_nat len) str.
Proof.
  intros Hbytes Hdec Hne0 Hne1 Hbuf.
  rewrite decode_rune_cases in Hdec by exact Hbytes. injection Hdec as Hdec.
  destruct (decode_cases_inverse str rune len Hbytes Hdec)
    as [(-> & [(-> & _) | (-> & _)]) | (Hs & Hlen & Htake)]; [congruence | congruence |].
  split; [exact Hs |].
  assert (Hr : 0 <= rune) by (destruct Hs as [? _]; lia).
  pose proof (proj2 (rune_length_scalar rune Hr) Hs) as Hnz.
  pose proof (rune_bytes_length rune Hs) as Hbl.
  exists (rune_bytes rune ++ drop (Z.to_nat len) buf). split.
  - rewrite encode_rune_cases by exact Hr. rewrite <- Hlen.
    replace (len =? 0) with false by (symmetry; apply Z.eqb_neq; lia).
    replace (Z.of_nat (length buf) <? len) with false by (symmetry; apply Z.ltb_ge; lia).
    reflexivity.
  - rewrite Htake.
    replace (Z.to_nat len) with (length (rune_bytes rune)) by lia.
    apply take_app_length.
Qed.

(** [string_decode_rune] on any string of bytes returns, without reading
    outside the string: the rune is a Unicode scalar value, the length is
    at most 4 and at most the length of the string, and it is 0 only for
    the empty string, so a loop that advances by the length returned
    consumes any string. *)
Theorem decode_rune_total (str : list Z) :
  Forall is_byte str ->
  exists rune len,
    string_decode_rune str = Ok (rune, len) /\
    is_scalar rune /\
    0 <= len <= 4 /\ len <= Z.of_nat (length str) /\
    (len = 0 <-> str = []).
Proof.
  intros Hbytes. rewrite decode_rune_cases by exact Hbytes.
  destruct (decode_cases str) as [rune len] eqn:Hdec.
  exists rune, len. split; [reflexivity |].
  destruct (decode_cases_inverse str rune len Hbytes Hdec)
    as [(-> & [(-> & ->) | (-> & Hne)]) | (Hs & Hlen & Htake)].
  - split; [unfold is_scalar; lia |]. cbn [length]. split; [lia |]. split; [lia |]. tauto.
  - split; [unfold is_scalar; lia |]. split; [lia |].
    destruct str as [| b0 rest]; [congruence |]. cbn [length].
    split; [lia |]. split; [lia | discriminate].
  - split; [exact Hs |].
    assert (Hr : 0 <= rune) by (destruct Hs as [? _]; lia).
    pose proof (proj2 (rune_length_scalar rune Hr) Hs) as Hnz.
    pose proof (rune_bytes_length rune Hs) as Hbl.
    assert (Hrange : 1 <= rune_length rune <= 4).
    { revert Hnz. unfold rune_length.
      repeat match goal with |- context [if ?c then _ else _] => destruct c end; lia. }
    assert (Hl : (length (take (Z.to_nat len) str) <= length str)%nat)
      by (rewrite length_take; lia).
    rewrite Htake in Hl.
    split; [lia |]. split; [lia |].
    split; [lia |]. intros ->. cbn [length] in Hl. lia.
Qed.

Lemma decode_encode_rune_witness :
  string_encode_rune [0; 0; 0; 0] 0x10348 = (4, [240; 144; 141; 136]) /\
  string_decode_rune [240; 144; 141; 136] = Ok (0x10348, 4).
Proof.
  split; [reflexivity |].
  apply (decode_encode_rune [0; 0; 0; 0] [240; 144; 141; 136] 0x10348 4).
  - repeat constructor; unfold is_byte; lia.
  - lia.
  - reflexivity.
  - lia.
Defined.

Lemma encode_rune_result_witness :
  length [237; 149; 156; 7] = length [5; 6; 0; 7] /\
  drop (Z.to_nat 3) [237; 149; 156; 7] = drop (Z.to_nat 3) [5; 6; 0; 7] /\
  (3 = 0 <-> ~ is_scalar 0xD55C \/ Z.of_nat (length [5; 6; 0; 7]) < rune_length 0xD55C) /\
  (3 = 0 -> [237; 149; 156; 7] = [5; 6; 0; 7]) /\
  (3 <> 0 -> 3 = rune_length 0xD55C /\
             take (Z.to_nat 3) [237; 149; 156; 7] = rune_bytes 0xD55C).
Proof.
  apply (encode_rune_result [5; 6; 0; 7] [237; 149; 156; 7] 0xD55C 3).
  - lia.
  - reflexivity.
Defined.

Lemma encode_decode_rune_witness :
  is_scalar 0xA3 /\
  exists buf',
    string_encode_rune [0; 0] 0xA3 = (2, buf') /\
    take (Z.to_nat 2) buf' = take (Z.to_nat 2) [0xC2; 0xA3; 0x41].
Proof.
  apply (encode_decode_rune [0xC2; 0xA3; 0x41] [0; 0] 0xA3 2).
  - repeat constructor; unfold is_byte; lia.
  - reflexivity.
  - discriminate.
  - discriminate.
  - cbn [length]. lia.
Defined.

Lemma decode_rune_total_witness :
  exists rune len,
    string_decode_rune [0xF0; 0x82; 0x82; 0xAC] = Ok (rune, len) /\
    is_scalar rune /\
    0 <= len <= 4 /\ len <= Z.of_nat (length [0xF0; 0x82; 0x82; 0xAC]) /\
    (len = 0 <-> [0xF0; 0x82; 0x82; 0xAC] = []).
Proof.
  apply (decode_rune_total [0xF0; 0x82; 0x82; 0xAC]).
  repeat constructor; unfold is_byte; lia.
Defined.

(** ** Trimming *)

Lemma skip_spaces_split (str : list Z) :
  exists l, str = l ++ skip_spaces str /\ all_spaces l.
Proof.
  induction str as [| c rest (l & Hl & Hs)]; [exists []; split; [reflexivity | constructor] |].
  cbn [skip_spaces]. destruct (is_space c) eqn:E.
  - exists (c :: l). split; [cbn [app]; congruence | constructor; assumption].
  - exists []. split; [reflexivity | constructor].
Qed.

Lemma skip_spaces_head (str : list Z) (c : Z) (rest : list Z) :
  skip_spaces str = c :: rest -> is_space c = false.
Proof.
  induction str as [| c0 rest0 IH]; [discriminate |].
  cbn [skip_spaces]. destruct (is_space c0) eqn:E; [exact IH |].
  intros [= <- <-]. exact E.
Qed.

Lemma skip_spaces_app (l m : list Z) :
  all_spaces l -> skip_spaces (l ++ m) = skip_spaces m.
Proof.
  induction 1 as [| c l Hc _ IH]; [reflexivity |].
  cbn [app skip_spaces]. rewrite Hc. exact IH.
Qed.

Lemma skip_spaces_fixed (m : list Z) :
  (forall c rest, m = c :: rest -> is_space c = false) -> skip_spaces m = m.
Proof.
  destruct m as [| c rest]; [reflexivity |].
  intros H. cbn [skip_spaces]. rewrite (H c rest eq_refl). reflexivity.
Qed.

Lemma trailing_count_le (data : list Z) (n : nat) : (trailing_count n data <= n)%nat.
Proof.
  induction n as [| n IH]; [reflexivity |]. cbn [trailing_count].
  destruct (data !! n) as [c |]; [| reflexivity].
  destruct (is_space c); [| reflexivity]. apply Nat.le_le_succ_r. exact IH.
Qed.

Lemma trailing_count_app (d e : list Z) (n : nat) :
  (n <= length d)%nat -> trailing_count n (d ++ e) = trailing_count n d.
Proof.
  induction n as [| n IH]; [reflexivity |]. intros Hn. cbn [trailing_count].
  rewrite lookup_app_l by lia. rewrite IH by lia. reflexivity.
Qed.

Lemma trailing_count_spaces (d r : list Z) :
  all_spaces r -> trailing_count (length (d ++ r)) (d ++ r) = trailing_count (length d) d.
Proof.
  induction r as [| c r IH] using rev_ind; intros Hr.
  - rewrite app_nil_r. reflexivity.
  - apply Forall_app in Hr. destruct Hr as [Hr Hc].
    apply Forall_cons in Hc. destruct Hc as [Hc _].
    rewrite app_assoc. rewrite length_app. cbn [length].
    rewrite Nat.add_1_r. cbn [trailing_count].
    rewrite lookup_app_r by lia. rewrite Nat.sub_diag. cbn [lookup list_lookup].
    rewrite Hc. rewrite trailing_count_app by lia. apply IH. exact Hr.
Qed.

Lemma trailing_count_fixed (m : list Z) :
  (forall front c, m = front ++ [c] -> is_space c = false) ->
  trailing_count (length m) m = length m.
Proof.
  destruct m as [| c m] using rev_ind; [reflexivity |].
  intros H. rewrite length_app. cbn [length]. rewrite Nat.add_1_r. cbn [trailing_count].
  rewrite lookup_app_r by lia. rewrite Nat.sub_diag. cbn [lookup list_lookup].
  rewrite (H m c eq_refl). reflexivity.
Qed.

Lemma trailing_count_last (data : list Z) (n : nat) (front : list Z) (c : Z) :
  (n <= length data)%nat ->
  take (trailing_count n data) data = front ++ [c] -> is_space c = false.
Proof.
  induction n as [| n IH]; intros Hn.
  - cbn [trailing_count]. rewrite take_0. destruct front; discriminate.
  - cbn [trailing_count].
    destruct (data !! n) as [c0 |] eqn:E; [| apply lookup_ge_None in E; lia].
    destruct (is_space c0) eqn:Es; [apply IH; lia |].
    intros Htake.
    assert (Hlast : take (S n) data = take n data ++ [c0])
      by (apply take_S_r; exact E).
    rewrite Hlast in Htake. apply app_inj_tail in Htake. destruct Htake as [_ <-]. exact Es.
Qed.

Lemma string_rtrim_split (str : list Z) :
  exists r, str = string_rtrim str ++ r /\ all_spaces r.
Proof.
  unfold string_rtrim. exists (drop (trailing_count (length str) str) str).
  split; [symmetry; apply take_drop |].
  assert (Hgen : forall n, (n <= length str)%nat ->
            all_spaces (drop (trailing_count n str) (take n str))).
  { induction n as [| n IH]; intros Hn.
    - rewrite take_0. constructor.
    - cbn [trailing_count].
      destruct (str !! n) as [c |] eqn:E; [| apply lookup_ge_None in E; lia].
      rewrite (take_S_r str n c E).
      destruct (is_space c) eqn:Es.
      + rewrite drop_app_le by (rewrite length_take; pose proof (trailing_count_le str n); lia).
        apply Forall_app. split; [apply IH; lia | repeat constructor; exact Es].
      + rewrite drop_ge by (rewrite length_app, length_take; cbn [length]; lia).
        constructor. }
  specialize (Hgen (length str) (Nat.le_refl _)).
  rewrite firstn_all in Hgen. exact Hgen.
Qed.

Lemma string_rtrim_last (str front : list Z) (c : Z) :
  string_rtrim str = front ++ [c] -> is_space c = false.
Proof. unfold string_rtrim. apply trailing_count_last. reflexivity. Qed.

Lemma string_rtrim_app (m r : list Z) :
  all_spaces r ->
  (forall front c, m = front ++ [c] -> is_space c = false) ->
  string_rtrim (m ++ r) = m.
Proof.
  intros Hr Hm. unfold string_rtrim.
  rewrite trailing_count_spaces by exact Hr.
  rewrite trailing_count_fixed by exact Hm.
  apply take_app_length.
Qed.

Lemma string_trim_unfold (str : list Z) :
  string_trim str = string_rtrim (string_ltrim str).
Proof. reflexivity. Qed.

(** [string_ltrim] and [string_rtrim] remove exactly the whitespace at their
    end of the string: what is removed is whitespace only, and what is left
    does not begin (does not end) with whitespace. *)
Theorem string_ltrim_rtrim_spec (str : list Z) :
  (exists l, str = l ++ string_ltrim str /\ all_spaces l /\
             forall c rest, string_ltrim str = c :: rest -> is_space c = false) /\
  (exists r, str = string_rtrim str ++ r /\ all_spaces r /\
             forall front c, string_rtrim str = front ++ [c] -> is_space c = false).
Proof.
  split.
  - destruct (skip_spaces_split str) as (l & Hl & Hs).
    exists l. split; [exact Hl |]. split; [exact Hs |].
    intros c rest. apply skip_spaces_head.
  - destruct (string_rtrim_split str) as (r & Hr & Hs).
    exists r. split; [exact Hr |]. split; [exact Hs |].
    intros front c. apply string_rtrim_last.
Qed.

Lemma all_spaces_head (l : list Z) (c : Z) (rest : list Z) :
  all_spaces l -> l = c :: rest -> is_space c = true.
Proof. intros Hl ->. apply Forall_cons in Hl. tauto. Qed.

(** [string_trim] returns the middle of the string: the string is
    whitespace, the result, whitespace; the result neither begins nor ends
    with whitespace (it is empty when the string is all whitespace).
    Trimming the right end first gives the same result, and trimming
    twice changes nothing. *)
Theorem string_trim_spec (str : list Z) :
  (exists l r, str = l ++ string_trim str ++ r /\ all_spaces l /\ all_spaces r) /\
  (forall c rest, string_trim str = c :: rest -> is_space c = false) /\
  (forall front c, string_trim str = front ++ [c] -> is_space c = false) /\
  string_trim str = string_ltrim (string_rtrim str) /\
  string_trim (string_trim str) = string_trim str.
Proof.
  destruct (skip_spaces_split str) as (l & Hl & Hls).
  destruct (string_rtrim_split (skip_spaces str)) as (r & Hr & Hrs).
  change (string_rtrim (skip_spaces str)) with (string_trim str) in Hr.
  assert (Hlast : forall front c, string_trim str = front ++ [c] -> is_space c = false)
    by (intros front c; apply string_rtrim_last).
  assert (Hhead : forall c rest, string_trim str = c :: rest -> is_space c = false).
  { intros c rest Ht. apply (skip_spaces_head str c (rest ++ r)).
    rewrite Hr, Ht. reflexivity. }
  assert (Hfix : string_trim (string_trim str) = string_trim str).
  { rewrite (string_trim_unfold (string_trim str)). unfold string_ltrim.
    rewrite skip_spaces_fixed by exact Hhead.
    rewrite <- (app_nil_r (string_trim str)) at 1.
    apply string_rtrim_app; [constructor | exact Hlast]. }
  split; [exists l, r; split; [rewrite <- Hr; exact Hl | split; assumption] |].
  split; [exact Hhead |]. split; [exact Hlast |]. split; [| exact Hfix].
  unfold string_ltrim.
  destruct (string_trim str) as [| c0 m] eqn:Em.
  - (* all whitespace *)
    cbn [app] in Hr.
    assert (Hall : all_spaces str).
    { rewrite Hl. apply Forall_app. split; [exact Hls | rewrite Hr; exact Hrs]. }
    rewrite <- (app_nil_l str) at 1.
    rewrite string_rtrim_app; [reflexivity | exact Hall |].
    intros front c H. destruct front; discriminate.
  - rewrite Hl at 1. rewrite Hr. rewrite app_assoc.
    rewrite string_rtrim_app.
    + rewrite skip_spaces_app by exact Hls.
      symmetry. apply skip_spaces_fixed. intros c rest [= <- <-]. apply (Hhead c0 m eq_refl).
    + exact Hrs.
    + intros front c H.
      destruct (exists_last (l := c0 :: m) ltac:(discriminate)) as (front' & c' & Hf).
      rewrite Hf, app_assoc in H. apply app_inj_tail in H. destruct H as [_ <-].
      apply (Hlast front' c' Hf).
Qed.

(** ** Tokens and lines *)

Lemma token_loop_spec (stop : Z -> bool) (str : list Z) :
  forall result token rest,
    token_loop stop str result = (token, rest) ->
    exists pre,
      token = result ++ pre /\ Forall (fun c => stop c = false) pre /\
      ((exists c, stop c = true /\ str = pre ++ c :: rest) \/ (str = pre /\ rest = [])).
Proof.
  induction str as [| c str IH]; intros result token rest; cbn [token_loop].
  - intros [= <- <-]. exists []. rewrite app_nil_r. split; [reflexivity |].
    split; [constructor |]. right. auto.
  - destruct (stop c) eqn:E.
    + intros [= <- <-]. exists []. rewrite app_nil_r. split; [reflexivity |].
      split; [constructor |]. left. exists c. auto.
    + intros Hloop. destruct (IH _ _ _ Hloop) as (pre & -> & Hpre & Hcase).
      exists (c :: pre). rewrite <- app_assoc. split; [reflexivity |].
      split; [constructor; assumption |].
      destruct Hcase as [(c' & Hc' & ->) | (-> & ->)].
      * left. exists c'. auto.
      * right. auto.
Qed.

Lemma skip_spaces_length (str : list Z) : (length (skip_spaces str) <= length str)%nat.
Proof.
  destruct (skip_spaces_split str) as (l & Hl & _).
  rewrite Hl at 2. rewrite length_app. lia.
Qed.

Lemma skip_spaces_nil (str : list Z) : skip_spaces str = [] <-> all_spaces str.
Proof.
  split.
  - intros H. destruct (skip_spaces_split str) as (l & Hl & Hs).
    rewrite H, app_nil_r in Hl. subst l. exact Hs.
  - intros H. rewrite <- (app_nil_r str). rewrite skip_spaces_app by exact H. reflexivity.
Qed.

(** [string_next_token(str, ch)].  After the leading whitespace, the token
    is everything before the first [ch] and the string is left just after
    that [ch]; when there is no [ch], the token is all that remains and the
    string is left empty.  A string that is not empty gets shorter, so a
    loop taking tokens until the string is empty ends. *)
Theorem string_next_token_spec (str : list Z) (ch : Z) (token rest : list Z) :
  string_next_token str ch = (token, rest) ->
  Forall (fun c => c <> ch) token /\
  (string_ltrim str = token ++ ch :: rest \/ (string_ltrim str = token /\ rest = [])) /\
  (str <> [] -> (length rest < length str)%nat).
Proof.
  unfold string_next_token, string_ltrim. intros Hloop.
  destruct (token_loop_spec _ _ _ _ _ Hloop) as (pre & Htok & Hpre & Hcase).
  cbn [app] in Htok. subst pre.
  pose proof (skip_spaces_length str) as Hlen.
  split; [| split].
  - eapply Forall_impl; [exact Hpre |]. intros c Hc. cbn beta in Hc.
    apply Z.eqb_neq. exact Hc.
  - destruct Hcase as [(c & Hc & Heq) | (Heq & ->)]; [left | right; auto].
    apply Z.eqb_eq in Hc. subst c. exact Heq.
  - intros Hne. destruct Hcase as [(c & Hc & Heq) | (Heq & ->)].
    + rewrite Heq, length_app in Hlen. cbn [length] in Hlen. lia.
    + destruct str; [congruence | cbn [length]; lia].
Qed.

(** [string_next_token(str)].  After the leading whitespace, the token is
    everything before the first whitespace character, and the string is
    left just after that one character; when there is none, the token is
    all that remains and the string is left empty.  The token contains no
    whitespace, and it is empty only when the string was all whitespace.  A
    string that is not empty gets shorter. *)
Theorem string_next_token_space_spec (str token rest : list Z) :
  string_next_token_space str = (token, rest) ->
  Forall (fun c => is_space c = false) token /\
  ((exists c, is_space c = true /\ string_ltrim str = token ++ c :: rest) \/
   (string_ltrim str = token /\ rest = [])) /\
  (token = [] <-> all_spaces str) /\
  (str <> [] -> (length rest < length str)%nat).
Proof.
  unfold string_next_token_space, string_ltrim. intros Hloop.
  destruct (token_loop_spec _ _ _ _ _ Hloop) as (pre & Htok & Hpre & Hcase).
  cbn [app] in Htok. subst pre.
  pose proof (skip_spaces_length str) as Hlen.
  split; [exact Hpre |]. split; [exact Hcase |]. split.
  - rewrite <- skip_spaces_nil. split.
    + intros ->. destruct Hcase as [(c & Hc & Heq) | (Heq & _)]; [| exact Heq].
      cbn [app] in Heq. rewrite (skip_spaces_head _ _ _ Heq) in Hc. discriminate.
    + intros Hnil. rewrite Hnil in Hcase.
      destruct Hcase as [(c & _ & Heq) | (Heq & _)]; [| congruence].
      destruct token; discriminate.
  - intros Hne. destruct Hcase as [(c & Hc & Heq) | (Heq & ->)].
    + rewrite Heq, length_app in Hlen. cbn [length] in Hlen. lia.
    + destruct str; [congruence | cbn [length]; lia].
Qed.

Lemma line_loop_spec (str : list Z) :
  forall result line rest,
    line_loop str result = (line, rest) ->
    exists pre,
      line = result ++ pre /\ Forall no_line_end pre /\
      (str = pre ++ [13; 10] ++ rest \/
       (str = pre ++ [13] ++ rest /\ forall rest', rest <> 10 :: rest') \/
       str = pre ++ [10] ++ rest \/
       (str = pre /\ rest = [])).
Proof.
  induction str as [| c str IH]; intros result line rest; cbn [line_loop].
  - intros [= <- <-]. exists []. rewrite app_nil_r. split; [reflexivity |].
    split; [constructor |]. right. right. right. auto.
  - destruct (c =? 13) eqn:E13.
    { apply Z.eqb_eq in E13. subst c.
      destruct str as [| c1 str1].
      - intros [= <- <-]. exists []. rewrite app_nil_r. split; [reflexivity |].
        split; [constructor |]. right. left. split; [reflexivity | discriminate].
      - destruct (c1 =? 10) eqn:E10.
        + apply Z.eqb_eq in E10. subst c1.
          intros [= <- <-]. exists []. rewrite app_nil_r. split; [reflexivity |].
          split; [constructor |]. left. reflexivity.
        + apply Z.eqb_neq in E10.
          intros [= <- <-]. exists []. rewrite app_nil_r. split; [reflexivity |].
          split; [constructor |]. right. left. split; [reflexivity |].
          intros rest' [= Hc _]. congruence. }
    destruct (c =? 10) eqn:E10.
    { apply Z.eqb_eq in E10. subst c.
      intros [= <- <-]. exists []. rewrite app_nil_r. split; [reflexivity |].
      split; [constructor |]. right. right. left. reflexivity. }
    apply Z.eqb_neq in E13. apply Z.eqb_neq in E10.
    intros Hloop. destruct (IH _ _ _ Hloop) as (pre & -> & Hpre & Hcase).
    exists (c :: pre). rewrite <- app_assoc. split; [reflexivity |].
    split; [constructor; [split; assumption | assumption] |].
    destruct Hcase as [-> | [(-> & Hr) | [-> | (-> & ->)]]].
    + left. reflexivity.
    + right. left. split; [reflexivity | exact Hr].
    + right. right. left. reflexivity.
    + right. right. right. auto.
Qed.

(** [string_next_line].  The line is everything before the first carriage
    return or line feed, and the string is left after that line ending: a
    carriage return with the line feed that follows it, a lone carriage
    return, or a line feed.  Without a line ending the line is the whole
    string, which is left empty.  A string that is not empty gets
    shorter. *)
Theorem string_next_line_spec (str line rest : list Z) :
  string_next_line str = (line, rest) ->
  Forall no_line_end line /\
  (str = line ++ [13; 10] ++ rest \/
   (str = line ++ [13] ++ rest /\ forall rest', rest <> 10 :: rest') \/
   str = line ++ [10] ++ rest \/
   (str = line /\ rest = [])) /\
  (str <> [] -> (length rest < length str)%nat).
Proof.
  unfold string_next_line. intros Hloop.
  destruct (line_loop_spec _ _ _ _ Hloop) as (pre & Hline & Hpre & Hcase).
  cbn [app] in Hline. subst pre.
  split; [exact Hpre |]. split; [exact Hcase |].
  intros Hne.
  destruct Hcase as [-> | [(-> & _) | [-> | (-> & ->)]]];
    rewrite ?length_app; cbn [length]; try lia.
  destruct line; [congruence | cbn [length]; lia].
Qed.

(** [string_equal_ignore_case] compares the strings after [to_lower] on
    every byte: it holds exactly when the two have the same length and
    the same bytes up to the case of the letters [A] to [Z]. *)
Theorem string_equal_ignore_case_spec (a b : list Z) :
  string_equal_ignore_case a b = true <-> map to_lower a = map to_lower b.
Proof.
  unfold string_equal_ignore_case. split.
  - destruct (Z.of_nat (length a) =? Z.of_nat (length b)) eqn:El; [| discriminate].
    cbn [negb]. apply Z.eqb_eq in El. assert (Hl : length a = length b) by lia.
    clear El. revert b Hl.
    induction a as [| ca a IH]; intros [| cb b] Hl; try discriminate; [reflexivity |].
    cbn [equal_ignore_case_loop map].
    destruct (to_lower ca =? to_lower cb) eqn:E; [| discriminate].
    cbn [negb]. apply Z.eqb_eq in E. intros H. rewrite E. f_equal.
    apply IH; [cbn [length] in Hl; lia | exact H].
  - intros Hmap.
    assert (Hl : length a = length b)
      by (rewrite <- (length_map to_lower a), <- (length_map to_lower b), Hmap; reflexivity).
    replace (Z.of_nat (length a) =? Z.of_nat (length b)) with true
      by (symmetry; apply Z.eqb_eq; lia).
    cbn [negb]. clear Hl. revert b Hmap.
    induction a as [| ca a IH]; intros [| cb b] Hmap; try discriminate; [reflexivity |].
    cbn [map] in Hmap. injection Hmap as Hc Hrest.
    cbn [equal_ignore_case_loop]. rewrite Hc, Z.eqb_refl. cbn [negb].
    apply IH. exact Hrest.
Qed.

Lemma string_next_token_spec_witness :
  Forall (fun c => c <> 32) [97] /\
  (string_ltrim [32; 97; 32; 98] = [97] ++ 32 :: [98] \/
   (string_ltrim [32; 97; 32; 98] = [97] /\ [98] = [])) /\
  ([32; 97; 32; 98] <> [] -> (length [98] < length [32; 97; 32; 98])%nat).
Proof.
  apply (string_next_token_spec [32; 97; 32; 98] 32 [97] [98]). reflexivity.
Defined.

Lemma string_next_token_space_spec_witness :
  Forall (fun c => is_space c = false) [42] /\
  ((exists c, is_space c = true /\ string_ltrim [32; 42; 9; 98; 10] = [42] ++ c :: [98; 10]) \/
   (string_ltrim [32; 42; 9; 98; 10] = [42] /\ [98; 10] = [])) /\
  ([42] = [] <-> all_spaces [32; 42; 9; 98; 10]) /\
  ([32; 42; 9; 98; 10] <> [] -> (length [98; 10] < length [32; 42; 9; 98; 10])%nat).
Proof.
  apply (string_next_token_space_spec [32; 42; 9; 98; 10] [42] [98; 10]). reflexivity.
Defined.

Lemma string_next_line_spec_witness :
  Forall no_line_end [97; 98; 99] /\
  ([97; 98; 99; 13; 10; 100] = [97; 98; 99] ++ [13; 10] ++ [100] \/
   ([97; 98; 99; 13; 10; 100] = [97; 98; 99] ++ [13] ++ [100] /\
    forall rest', [100] <> 10 :: rest') \/
   [97; 98; 99; 13; 10; 100] = [97; 98; 99] ++ [10] ++ [100] \/
   ([97; 98; 99; 13; 10; 100] = [97; 98; 99] /\ [100] = [])) /\
  ([97; 98; 99; 13; 10; 100] <> [] ->
   (length [100] < length [97; 98; 99; 13; 10; 100])%nat).
Proof.
  apply (string_next_line_spec [97; 98; 99; 13; 10; 100] [97; 98; 99] [100]). reflexivity.
Defined.

(** ** Integers *)

Lemma digit_of_range (c d : Z) : digit_of c = Some d -> 0 <= d < 256.
Proof.
  unfold digit_of, u8.
  destruct (is_digit c); [| destruct (is_alpha c); [| discriminate]];
    intros [= <-]; apply Z.mod_pos_bound; reflexivity.
Qed.

Lemma digits_value_step (base acc : Z) (ds : list Z) :
  fold_left (fun a d => a * base + d) ds acc
  = acc * base ^ Z.of_nat (length ds) + fold_left (fun a d => a * base + d) ds 0.
Proof.
  revert acc. induction ds as [| d ds IH]; intros acc.
  - cbn. lia.
  - cbn [fold_left length]. rewrite IH. rewrite (IH (0 * base + d)).
    rewrite Nat2Z.inj_succ, Z.pow_succ_r by lia. ring.
Qed.

Lemma digits_tail_nonneg (base : Z) (ds : list Z) :
  0 < base -> Forall (fun d => 0 <= d) ds ->
  forall acc, 0 <= acc -> acc <= fold_left (fun a d => a * base + d) ds acc.
Proof.
  intros Hb Hds. induction Hds as [| d ds Hd _ IH]; intros acc Hacc; [cbn; lia |].
  cbn [fold_left]. specialize (IH (acc * base + d) ltac:(nia)). nia.
Qed.

(** The digit loop on digits of the base, as long as the value stays
    below the last multiple of the base under [int_max]. *)
Lemma parse_loop_value (base ovfmin ovfmax : Z) (body ds : list Z) :
  0 < base -> 0 <= ovfmax -> ovfmax * base < 2 ^ 64 ->
  digits_of base body ds ->
  forall acc, 0 <= acc ->
    fold_left (fun a d => a * base + d) ds acc / base < ovfmax \/ ds = [] ->
    fold_left (fun a d => a * base + d) ds acc < 2 ^ 64 ->
    parse_loop body base ovfmin ovfmax acc
    = Some (fold_left (fun a d => a * base + d) ds acc).
Proof.
  intros Hb Hmax Hlim Hds. unfold digits_of in Hds.
  induction Hds as [| c d body ds (Hc & Hd) Htail IH]; intros acc Hacc Hq Hv; [reflexivity |].
  destruct Hq as [Hq | Hnil]; [| discriminate].
  cbn [fold_left] in Hq, Hv |- *. cbn [parse_loop]. rewrite Hc.
  pose proof (digit_of_range c d Hc) as Hdr.
  assert (Hds' : Forall (fun d => 0 <= d) ds).
  { clear - Htail. induction Htail as [| c' d' body' ds' (Hc' & _) _ IH']; constructor;
      [apply (digit_of_range c' d' Hc') | exact IH']. }
  pose proof (digits_tail_nonneg base ds Hb Hds' (acc * base + d) ltac:(nia)) as Hge.
  set (V := fold_left (fun a d => a * base + d) ds (acc * base + d)) in *.
  assert (Hacc_lt : acc < ovfmax).
  { assert (acc <= V / base); [| lia].
    apply Z.div_le_lower_bound; [lia |]. nia. }
  replace (d >=? base) with false by (symmetry; rewrite Z.geb_leb; apply Z.leb_gt; lia).
  replace (acc >? ovfmax) with false by (symmetry; rewrite Z.gtb_ltb; apply Z.ltb_ge; lia).
  replace (acc =? ovfmax) with false by (symmetry; apply Z.eqb_neq; lia).
  cbn [orb andb].
  assert (Hstep : acc * base + d < 2 ^ 64) by lia.
  unfold wrap. rewrite (Z.mod_small (acc * base)) by nia.
  rewrite Z.mod_small by nia.
  apply IH; [nia | | exact Hv].
  destruct ds as [| d1 ds1]; [right; reflexivity | left; exact Hq].
Qed.

(** The digit loop fails on any character that is not a digit of the
    base. *)
Lemma parse_loop_rejects (base ovfmin ovfmax : Z) (body : list Z) :
  Exists (not_a_digit base) body ->
  forall acc, parse_loop body base ovfmin ovfmax acc = None.
Proof.
  induction body as [| c body IH]; intros Hex acc; [inversion Hex |].
  cbn [parse_loop]. destruct (digit_of c) as [d |] eqn:Hc; [| reflexivity].
  destruct (d >=? base) eqn:Hd; [reflexivity |].
  destruct ((acc >? ovfmax) || _); [reflexivity |].
  apply IH. apply Exists_cons in Hex. destruct Hex as [Hbad | Hex]; [| exact Hex].
  specialize (Hbad d Hc). rewrite Z.geb_leb in Hd. apply Z.leb_gt in Hd. lia.
Qed.

Lemma string_parse_unsigned_unfold (str : list Z) (int_max base base1 : Z) (body : list Z) :
  string_ltrim str <> [] ->
  parse_prefix (string_ltrim str) base = (base1, body) ->
  string_parse_unsigned str int_max base =
    match parse_loop body (effective_base base1)
            (int_max mod effective_base base1) (int_max / effective_base base1) 0 with
    | Some acc => (true, acc)
    | None => (false, 0)
    end.
Proof.
  unfold string_parse_unsigned, string_ltrim. intros Hne Hpre.
  destruct (skip_spaces str) as [| c0 rest0]; [congruence |].
  rewrite Hpre. reflexivity.
Qed.

(** [string_parse_unsigned] on digits.  Once the leading whitespace and the
    base prefix are taken off, a string of digits of the base whose value
    is below the last multiple of the base that is at most [int_max] is
    parsed: the call returns true and stores that value, which does not
    exceed [int_max]. *)
Theorem string_parse_unsigned_value
    (str body ds : list Z) (int_max base base1 : Z) :
  string_ltrim str <> [] ->
  parse_prefix (string_ltrim str) base = (base1, body) ->
  0 < effective_base base1 ->
  0 <= int_max < 2 ^ 64 ->
  digits_of (effective_base base1) body ds ->
  digits_value (effective_base base1) ds / effective_base base1
    < int_max / effective_base base1 ->
  string_parse_unsigned str int_max base
    = (true, digits_value (effective_base base1) ds) /\
  digits_value (effective_base base1) ds <= int_max.
Proof.
  intros Hne Hpre Hb Hmax Hds Hq.
  set (b := effective_base base1) in *.
  assert (Hdiv : 0 <= int_max / b) by (apply Z.div_pos; lia).
  assert (Hmul : int_max / b * b <= int_max)
    by (rewrite Z.mul_comm; apply Z.mul_div_le; lia).
  assert (Hv : digits_value b ds < int_max / b * b).
  { pose proof (Z.mul_succ_div_gt (digits_value b ds) b Hb). nia. }
  split; [| lia].
  rewrite (string_parse_unsigned_unfold str int_max base base1 body Hne Hpre).
  fold b. unfold digits_value in *.
  rewrite (parse_loop_value b (int_max mod b) (int_max / b) body ds);
    try lia; try assumption; try (left; exact Hq).
  reflexivity.
Qed.

(** [string_parse_unsigned] on anything else.  A string that is empty or
    all whitespace, and a string in which, after the leading whitespace
    and the base prefix, some character is not a digit of the base, make
    the call return false and store 0: there is no partial result. *)
Theorem string_parse_unsigned_rejects
    (str body : list Z) (int_max base base1 : Z) :
  all_spaces str \/
  (parse_prefix (string_ltrim str) base = (base1, body) /\
   Exists (not_a_digit (effective_base base1)) body) ->
  string_parse_unsigned str int_max base = (false, 0).
Proof.
  intros [Hall | (Hpre & Hbad)].
  - unfold string_parse_unsigned. apply skip_spaces_nil in Hall. rewrite Hall. reflexivity.
  - destruct (list_eq_nil_dec (string_ltrim str)) as [Hnil | Hne].
    + unfold string_parse_unsigned. unfold string_ltrim in Hnil. rewrite Hnil. reflexivity.
    + rewrite (string_parse_unsigned_unfold str int_max base base1 body Hne Hpre).
      rewrite parse_loop_rejects by exact Hbad. reflexivity.
Qed.

Lemma string_parse_unsigned_value_witness :
  string_parse_unsigned [32; 48; 120; 69; 70; 53; 51; 53; 48] (2 ^ 32 - 1) 0
    = (true, digits_value (effective_base 16) [14; 15; 5; 3; 5; 0]) /\
  digits_value (effective_base 16) [14; 15; 5; 3; 5; 0] <= 2 ^ 32 - 1.
Proof.
  apply (string_parse_unsigned_value
           [32; 48; 120; 69; 70; 53; 51; 53; 48] [69; 70; 53; 51; 53; 48]
           [14; 15; 5; 3; 5; 0] (2 ^ 32 - 1) 0 16).
  - discriminate.
  - reflexivity.
  - reflexivity.
  - split; [discriminate | reflexivity].
  - repeat constructor.
  - reflexivity.
Defined.

Lemma string_parse_unsigned_rejects_witness :
  string_parse_unsigned [49; 48; 122; 122; 122] (2 ^ 32 - 1) 0 = (false, 0).
Proof.
  apply (string_parse_unsigned_rejects [49; 48; 122; 122; 122] [49; 48; 122; 122; 122]
           (2 ^ 32 - 1) 0 0).
  right. split; [reflexivity |].
  apply Exists_cons_tl, Exists_cons_tl, Exists_cons_hd.
  intros d [= <-]. vm_compute. discriminate.
Defined.


End StringFacts.
